(** * Topology engine and geometry pipeline of the parametric CAD tool

    A shallow embedding of
    - the mesh side of [Solid] (signed volume, winding coherence check,
      adjacency repair, outward orientation) and of the [CADEdge]
      constructor, and
    - [GeometryComputer] (compute, the per-type dispatch, the geometry
      cache and the dependency invalidation),
    followed by the properties the specification states about them.

    Numbers.  The source computes on JavaScript numbers.  Coordinates,
    distances and tolerances are modelled as exact rationals [Q]; array
    indices and BigInt edge keys as [nat]. *)

From Stdlib Require Import QArith Qabs Lia Lqa ZArith List Bool Arith.
From stdpp Require Import base option list gmap sets strings.

Local Open Scope nat_scope.

(** ** Results and outcomes *)

(** [Result<T>] of core/types.ts: [{success: true, value}] or
    [{success: false, error}]. *)
Inductive Result (A : Type) : Type :=
| Ok (value : A)
| Err (error : string).
Arguments Ok {A} value.
Arguments Err {A} error.

(** A call that either returns or throws; the thrown value is kept in its
    string form, as the handlers print it. *)
Inductive Outcome (A : Type) : Type :=
| Returned (value : A)
| Thrown (message : string).
Arguments Returned {A} value.
Arguments Thrown {A} message.

Definition isOk {A} (r : Result A) : bool :=
  match r with Ok _ => true | Err _ => false end.

(** ** Insertion-ordered maps with array values

    [Map<bigint, T[]>] filled by
    [if (!m.has(k)) m.set(k, []); m.get(k).push(u)]. *)
Module EdgeMap.

Definition t (A : Type) : Type := list (nat * list A).

Fixpoint push {A} (k : nat) (u : A) (m : t A) : t A :=
  match m with
  | [] => [(k, [u])]
  | (k', l) :: m' =>
      if k' =? k then (k', l ++ [u]) :: m' else (k', l) :: push k u m'
  end.

Fixpoint get {A} (k : nat) (m : t A) : option (list A) :=
  match m with
  | [] => None
  | (k', l) :: m' => if k' =? k then Some l else get k m'
  end.

Definition values {A} (m : t A) : list (list A) := map snd m.

(** The map obtained by pushing every use [u] of [us] under [key u]. *)
Definition ofUses {A} (key : A -> nat) (us : list A) : t A :=
  fold_left (fun m u => push (key u) u m) us [].

End EdgeMap.

(** ** The authoring arrays of [Solid] *)
Module Solid.

Local Open Scope Q_scope.

(** A triangle of [tris] in [_fixTriangleWindingsByAdjacency]:
    a three-element index array. *)
Definition Tri : Type := (nat * nat * nat)%type.

Record t : Type := mk {
  vertProperties : list Q;   (* flat [x0,y0,z0, x1,y1,z1, ...] *)
  triVerts : list nat;       (* flat [i0,i1,i2, ...] *)
  triIDs : list nat;         (* per-triangle face id *)
  dirty : bool;
  hasManifold : bool         (* [_manifold] is set *)
}.

Definition triCount (s : t) : nat := (length (triVerts s) / 3)%nat.
Definition numVerts (s : t) : nat := (length (vertProperties s) / 3)%nat.

(** [NV = BigInt(Math.max(1, numVerts))] and
    [ukey(a, b) = A < B ? A * NV + B : B * NV + A]. *)
Definition NV (s : t) : nat := Nat.max 1 (numVerts s).
Definition ukey (nv a b : nat) : nat :=
  if (a <? b)%nat then (a * nv + b)%nat else (b * nv + a)%nat.

(** Reads of the flat arrays. *)
Definition triVertAt (tv : list nat) (i : nat) : nat := nth i tv 0%nat.
Definition coord (vp : list Q) (i : nat) : Q := nth i vp 0.

Definition triAt (tv : list nat) (t : nat) : Tri :=
  (triVertAt tv (t * 3), triVertAt tv (t * 3 + 1), triVertAt tv (t * 3 + 2)).

(** The triangles [0 .. triCount-1], as the loops over [t] read them. *)
Definition trisOf (s : t) : list Tri :=
  map (triAt (triVerts s)) (seq 0 (triCount s)).

(** *** [_computeSignedVolume] *)

(** [x0*(y1*z2 - z1*y2) - y0*(x1*z2 - z1*x2) + z0*(x1*y2 - y1*x2)]. *)
Definition tripleProduct (vp : list Q) (i0 i1 i2 : nat) : Q :=
  let x0 := coord vp (i0 * 3) in
  let y0 := coord vp (i0 * 3 + 1) in
  let z0 := coord vp (i0 * 3 + 2) in
  let x1 := coord vp (i1 * 3) in
  let y1 := coord vp (i1 * 3 + 1) in
  let z1 := coord vp (i1 * 3 + 2) in
  let x2 := coord vp (i2 * 3) in
  let y2 := coord vp (i2 * 3 + 1) in
  let z2 := coord vp (i2 * 3 + 2) in
  x0 * (y1 * z2 - z1 * y2) - y0 * (x1 * z2 - z1 * x2) + z0 * (x1 * y2 - y1 * x2).

(** The loop [for (t = 0; t < triVerts.length; t += 3) vol6 += ...],
    by steps of three over the flat index array. *)
Fixpoint vol6Loop (vp : list Q) (tv : list nat) (vol6 : Q) : Q :=
  match tv with
  | i0 :: i1 :: i2 :: rest => vol6Loop vp rest (vol6 + tripleProduct vp i0 i1 i2)
  | _ => vol6
  end.

Definition computeSignedVolume (s : t) : Q :=
  vol6Loop (vertProperties s) (triVerts s) 0 / 6.

(** *** The flip loop of [_manifoldize]:
    [tmp = tv[t+1]; tv[t+1] = tv[t+2]; tv[t+2] = tmp] for every [t]. *)
Fixpoint flipAll (tv : list nat) : list nat :=
  match tv with
  | i0 :: i1 :: i2 :: rest => i0 :: i2 :: i1 :: flipAll rest
  | _ => tv
  end.

(** *** [_isCoherentlyOrientedManifold] *)

(** The directed edges [[i0,i1],[i1,i2],[i2,i0]] of a triangle. *)
Definition triEdges (tri : Tri) : list (nat * nat) :=
  let '(i0, i1, i2) := tri in [(i0, i1); (i1, i2); (i2, i0)].

Definition directedEdges (s : t) : list (nat * nat) :=
  flat_map triEdges (trisOf s).

Definition edgeMapOf (s : t) : EdgeMap.t (nat * nat) :=
  EdgeMap.ofUses (fun e => ukey (NV s) (fst e) (snd e)) (directedEdges s).

(** The test applied to each value of the edge map. *)
Definition oppositePair (arr : list (nat * nat)) : bool :=
  match arr with
  | [e0; e1] => (fst e0 =? snd e1)%nat && (snd e0 =? fst e1)%nat
  | _ => false
  end.

Definition isCoherentlyOrientedManifold (s : t) : bool :=
  if (triCount s =? 0)%nat then false
  else forallb oppositePair (EdgeMap.values (edgeMapOf s)).

(** *** [_fixTriangleWindingsByAdjacency] *)

(** An entry [{tri, a, b}] of the [undirected] map. *)
Record Use : Type := mkUse { use_tri : nat; use_a : nat; use_b : nat }.

(** [tri[e]] for a three-element array. *)
Definition triGet (tri : Tri) (e : nat) : nat :=
  let '(i0, i1, i2) := tri in
  match e with 0%nat => i0 | 1%nat => i1 | _ => i2 end.

(** The three uses [{tri: ti, a: tri[e], b: tri[(e + 1) % 3]}] of [tri]. *)
Definition triUses (ti : nat) (tri : Tri) : list Use :=
  map (fun e => mkUse ti (triGet tri e) (triGet tri ((e + 1) mod 3))) [0; 1; 2]%nat.

Fixpoint usesFrom (ti : nat) (tris : list Tri) : list Use :=
  match tris with
  | [] => []
  | tri :: rest => triUses ti tri ++ usesFrom (S ti) rest
  end.

Definition undirectedOf (nv : nat) (tris : list Tri) : EdgeMap.t Use :=
  EdgeMap.ofUses (fun u => ukey nv (use_a u) (use_b u)) (usesFrom 0 tris).

(** The mutable state of the traversal: the triangle array, the [visited]
    flags and the stack (top of the stack first). *)
Record Bfs : Type := mkBfs {
  tris : list Tri;
  visited : list bool;
  stack : list nat
}.

(** [visited[n]]; a missing slot reads as not visited. *)
Definition isVisited (v : list bool) (n : nat) : bool := default false (v !! n).

(** [[nTri[1], nTri[2]] = [nTri[2], nTri[1]]] on [tris[n]]. *)
Definition flipAt (n : nat) (ts : list Tri) : list Tri :=
  match ts !! n with
  | Some (i0, i1, i2) => <[n := (i0, i2, i1)]> ts
  | None => ts
  end.

(** [for (const entry of adj) { ... }] for the edge [(a, b)] of the
    popped triangle [t]. *)
Fixpoint visitAdj (t a b : nat) (adj : list Use) (st : Bfs) : Bfs :=
  match adj with
  | [] => st
  | entry :: rest =>
      let n := use_tri entry in
      if (n =? t)%nat || isVisited (visited st) n then visitAdj t a b rest st
      else
        let ts :=
          if (use_a entry =? a)%nat && (use_b entry =? b)%nat
          then flipAt n (tris st) else tris st in
        visitAdj t a b rest (mkBfs ts (<[n := true]> (visited st)) (n :: stack st))
  end.

(** One edge [e] of the popped triangle: look the key up, skip when the
    entry is missing or has fewer than two uses. *)
Definition visitEdge (und : EdgeMap.t Use) (nv t : nat) (tri : Tri) (e : nat)
    (st : Bfs) : Bfs :=
  let a := triGet tri e in
  let b := triGet tri ((e + 1) mod 3) in
  match EdgeMap.get (ukey nv a b) und with
  | None => st
  | Some adj => if (length adj <? 2)%nat then st else visitAdj t a b adj st
  end.

(** The body of the [while] loop after [t = stack.pop()]. *)
Definition processTri (und : EdgeMap.t Use) (nv t : nat) (st : Bfs) : Bfs :=
  let tri := default (0, 0, 0)%nat (tris st !! t) in
  fold_left (fun st e => visitEdge und nv t tri e st) [0; 1; 2]%nat st.

(** [while (stack.length > 0)]; [None] when the fuel runs out. *)
Fixpoint drain (und : EdgeMap.t Use) (nv fuel : nat) (st : Bfs) : option Bfs :=
  match stack st with
  | [] => Some st
  | t :: rest =>
      match fuel with
      | O => None
      | S fuel' =>
          drain und nv fuel' (processTri und nv t (mkBfs (tris st) (visited st) rest))
      end
  end.

(** [for (seed = 0; seed < triCount; seed++)]. *)
Fixpoint seedLoop (und : EdgeMap.t Use) (nv fuel : nat) (seeds : list nat)
    (st : Bfs) : option Bfs :=
  match seeds with
  | [] => Some st
  | seed :: rest =>
      if isVisited (visited st) seed then seedLoop und nv fuel rest st
      else
        match drain und nv fuel
                (mkBfs (tris st) (<[seed := true]> (visited st)) (seed :: stack st)) with
        | Some st' => seedLoop und nv fuel rest st'
        | None => None
        end
  end.

(** Writing the triangles back: [triVerts.push(tri[0], tri[1], tri[2])]. *)
Definition writeBack (ts : list Tri) : list nat :=
  flat_map (fun tri : Tri => let '(i0, i1, i2) := tri in [i0; i1; i2]) ts.

(** Every pop removes a stack slot and every push marks one more triangle,
    so twice the triangle count plus one bounds the iterations of one
    [while] loop. *)
Definition drainFuel (s : t) : nat := (2 * triCount s + 1)%nat.

Definition fixTriangleWindingsByAdjacency (s : t) : option t :=
  if isCoherentlyOrientedManifold s then Some s
  else if (triCount s =? 0)%nat then Some s
  else
    let ts := trisOf s in
    let und := undirectedOf (NV s) ts in
    match seedLoop und (NV s) (drainFuel s) (seq 0 (triCount s))
            (mkBfs ts (replicate (triCount s) false) []) with
    | Some st =>
        Some (mk (vertProperties s) (writeBack (tris st)) (triIDs s) true
                (hasManifold s))
    | None => None
    end.

(** *** [_manifoldize] *)

(** [if (signedVolume < 0) { flip all triangles }]. *)
Definition orientOutward (s : t) : t :=
  if Qlt_le_dec (computeSignedVolume s) 0
  then mk (vertProperties s) (flipAll (triVerts s)) (triIDs s) (dirty s)
         (hasManifold s)
  else s.

(** [_manifoldize()]: the solid as the call leaves it, and whether the call
    returned the manifold or threw.  [moduleReady] is [isModuleReady()];
    [newManifold] stands for the typed arrays, [mesh.merge()] and
    [new Manifold(mesh)] on the oriented arrays. *)
Definition manifoldize (moduleReady : bool) (newManifold : t -> Outcome unit)
    (s : t) : option (t * Outcome unit) :=
  if negb (dirty s) && hasManifold s then Some (s, Returned tt)
  else if negb moduleReady then Some (s, Thrown "Solid module not initialized")
  else if (triCount s =? 0)%nat then Some (s, Thrown "No triangles to build")
  else
    match fixTriangleWindingsByAdjacency s with
    | Some repaired =>
        let oriented := orientOutward repaired in
        match newManifold oriented with
        | Returned _ =>
            Some (mk (vertProperties oriented) (triVerts oriented)
                    (triIDs oriented) false true, Returned tt)
        | Thrown e => Some (oriented, Thrown e)
        end
    | None => None
    end.

(** *** Authoring: [_getPointIndex], [_getOrCreateID], [addTriangle] *)

Definition Point : Type := (Q * Q * Q)%type.

(** [_key(p)] prints the three coordinates; two points get the same key
    exactly when their coordinates are the same numbers. *)
Definition sameKey (p q : Point) : bool :=
  let '(p0, p1, p2) := p in
  let '(q0, q1, q2) := q in
  Qeq_bool p0 q0 && Qeq_bool p1 q1 && Qeq_bool p2 q2.

(** The solid while triangles are added: the arrays, [_vertKeyToIndex],
    [_faceNameToID], and the next id [Manifold.reserveIDs(1)] hands out. *)
Record Authoring : Type := mkAuthoring {
  arrays : t;
  vertKeyToIndex : list (Point * nat);
  faceNameToID : list (string * nat);
  nextID : nat
}.

Fixpoint keyGet (p : Point) (m : list (Point * nat)) : option nat :=
  match m with
  | [] => None
  | (q, i) :: rest => if sameKey q p then Some i else keyGet p rest
  end.

Fixpoint nameGet (faceName : string) (m : list (string * nat)) : option nat :=
  match m with
  | [] => None
  | (n, i) :: rest => if String.eqb n faceName then Some i else nameGet faceName rest
  end.

(** [_getPointIndex(p)] on finite coordinates. *)
Definition getPointIndex (p : Point) (a : Authoring) : nat * Authoring :=
  match keyGet p (vertKeyToIndex a) with
  | Some found => (found, a)
  | None =>
      let s := arrays a in
      let idx := (length (vertProperties s) / 3)%nat in
      let '(x, y, z) := p in
      (idx,
       mkAuthoring
         (mk (vertProperties s ++ [x; y; z]) (triVerts s) (triIDs s) (dirty s)
            (hasManifold s))
         (vertKeyToIndex a ++ [(p, idx)]) (faceNameToID a) (nextID a))
  end.

(** [_getOrCreateID(faceName)] once the module is ready. *)
Definition getOrCreateID (faceName : string) (a : Authoring) : nat * Authoring :=
  match nameGet faceName (faceNameToID a) with
  | Some id => (id, a)
  | None =>
      (nextID a,
       mkAuthoring (arrays a) (vertKeyToIndex a)
         (faceNameToID a ++ [(faceName, nextID a)]) (S (nextID a)))
  end.

(** [addTriangle(faceName, p0, p1, p2)]. *)
Definition addTriangle (moduleReady : bool) (faceName : string) (p0 p1 p2 : Point)
    (a : Authoring) : Outcome Authoring :=
  if negb moduleReady then Thrown "Solid module not initialized"
  else
    let '(id, a0) := getOrCreateID faceName a in
    let '(i0, a1) := getPointIndex p0 a0 in
    let '(i1, a2) := getPointIndex p1 a1 in
    let '(i2, a3) := getPointIndex p2 a2 in
    let s := arrays a3 in
    Returned
      (mkAuthoring
         (mk (vertProperties s) (triVerts s ++ [i0; i1; i2]) (triIDs s ++ [id])
            true (hasManifold s))
         (vertKeyToIndex a3) (faceNameToID a3) (nextID a3)).

(** A new [Solid]. *)
Definition empty : Authoring := mkAuthoring (mk [] [] [] true false) [] [] 1.

(** The solid after a sequence of [addTriangle] calls on a ready module. *)
Fixpoint addTriangles (faces : list (string * (Point * Point * Point)))
    (a : Authoring) : Authoring :=
  match faces with
  | [] => a
  | (faceName, (p0, p1, p2)) :: rest =>
      match addTriangle true faceName p0 p1 p2 a with
      | Returned a' => addTriangles rest a'
      | Thrown _ => a
      end
  end.

(** What authoring maintains: whole vertices, and indices of stored
    vertices only. *)
Definition authoringInvariant (a : Authoring) : Prop :=
  (length (vertProperties (arrays a)) mod 3 = 0)%nat
  /\ Forall (fun i => (i < numVerts (arrays a))%nat) (triVerts (arrays a))
  /\ Forall (fun e => (snd e < numVerts (arrays a))%nat) (vertKeyToIndex a).

(** *** The measure of the traversal *)

Definition unvisited (v : list bool) : nat := length (List.filter negb v).

(** Stack slots count once, unvisited triangles twice: a pop costs one and
    every push pays one of its two back. *)
Definition weight (st : Bfs) : nat :=
  (length (stack st) + 2 * unvisited (visited st))%nat.

(** Every use filed in the map names a triangle below [N]. *)
Definition usesBelow (N : nat) (und : EdgeMap.t Use) : Prop :=
  forall k adj, EdgeMap.get k und = Some adj ->
    List.Forall (fun u => (use_tri u < N)%nat) adj.

(** *** Well-formed arrays and the specification's reading of coherence *)

(** [_getPointIndex] only hands out indices of stored vertices, so every
    index of an authored mesh is below the vertex count. *)
Definition wellFormed (s : t) : Prop :=
  Forall (fun i => (i < numVerts s)%nat) (triVerts s).

(** Two directed edges over the same unordered pair of vertices. *)
Definition sameUndirected (e f : nat * nat) : bool :=
  ((fst e =? fst f)%nat && (snd e =? snd f)%nat)
  || ((fst e =? snd f)%nat && (snd e =? fst f)%nat).

(** The directed uses of the undirected edge under [e], in mesh order. *)
Definition usesOf (s : t) (e : nat * nat) : list (nat * nat) :=
  List.filter (sameUndirected e) (directedEdges s).

(** Spec, 4.2 step 2: every key has exactly two uses whose directed pairs
    are mutual reverses. *)
Definition coherentSpec (s : t) : Prop :=
  forall e, In e (directedEdges s) ->
    exists a b, usesOf s e = [(a, b); (b, a)].


End Solid.

(** ** The constructor of [CADEdge] *)
Module CADEdge.

Local Open Scope Q_scope.

Definition Point : Type := (Q * Q * Q)%type.

Record t : Type := mk {
  edgeName : string;
  edgeIndex : nat;
  faceA : string;
  faceB : string;
  polylineLocal : list Point;
  closedLoop : bool
}.

(** [1e-9]. *)
Definition tolerance : Q := 1 # 1000000000.

(** [Math.abs(x - y) < 1e-9]. *)
Definition absBelow (x y : Q) : bool :=
  if Qlt_le_dec (Qabs (x - y)) tolerance then true else false.

(** The three conjuncts of the closed-loop test. *)
Definition coincide (first last : Point) : bool :=
  let '(f0, f1, f2) := first in
  let '(l0, l1, l2) := last in
  absBelow f0 l0 && absBelow f1 l1 && absBelow f2 l2.

(** [new CADEdge(positions, name, index, faceA, faceB)]: the field
    initialiser leaves [closedLoop] false, the constructor sets it when
    there are at least two positions. *)
Definition new (positions : list Point) (name : string) (index : nat)
    (fA fB : string) : t :=
  let closed :=
    if (2 <=? length positions)%nat
    then coincide (nth 0 positions (0, 0, 0))
                  (nth (length positions - 1) positions (0, 0, 0))
    else false in
  mk name index fA fB positions closed.

(** The squared Euclidean distance of two points. *)
Definition sqDist (p q : Point) : Q :=
  let '(p0, p1, p2) := p in
  let '(q0, q1, q2) := q in
  (p0 - q0) * (p0 - q0) + (p1 - q1) * (p1 - q1) + (p2 - q2) * (p2 - q2).

(** Spec, 4.4: the points coincide within 1e-9 absolute distance. *)
Definition withinDistance (p q : Point) : Prop :=
  sqDist p q <= tolerance * tolerance.

(** The largest coordinate difference is below the tolerance. *)
Definition withinPerAxis (p q : Point) : Prop :=
  let '(p0, p1, p2) := p in
  let '(q0, q1, q2) := q in
  Qabs (p0 - q0) < tolerance /\ Qabs (p1 - q1) < tolerance
  /\ Qabs (p2 - q2) < tolerance.

End CADEdge.

(** ** Sample meshes and polylines *)
Module Samples.

Local Open Scope Q_scope.


(** Two disjoint unit tetrahedra, the first wound outward and the second
    inward. *)
Definition twoShells : Solid.t :=
  Solid.mk [0; 0; 0;  1; 0; 0;  0; 1; 0;  0; 0; 1;
            5; 0; 0;  6; 0; 0;  5; 1; 0;  5; 0; 1]
           [0; 2; 1;  0; 1; 3;  0; 3; 2;  1; 2; 3;
            4; 5; 6;  4; 7; 5;  4; 6; 7;  5; 7; 6]%nat
           [1; 2; 3; 4; 5; 6; 7; 8]%nat true false.

(** The corner tetrahedron as four [addTriangle] calls; the last face is
    given with the opposite winding. *)
Definition authoredTetra : Solid.t :=
  let o := (0, 0, 0) in
  let x := (1, 0, 0) in
  let y := (0, 1, 0) in
  let z := (0, 0, 1) in
  Solid.arrays
    (Solid.addTriangles
       [("bottom", (o, y, x)); ("front", (o, x, z)); ("left", (o, z, y));
        ("slope", (x, z, y))]
       Solid.empty).


(** A kernel constructor that accepts every mesh. *)
Definition accept (s : Solid.t) : Outcome unit := Returned tt.

(** A polyline whose ends differ by 9e-10 along every axis. *)
Definition nearlyClosed : list CADEdge.Point :=
  [(0, 0, 0); (1, 0, 0); (9 # 10000000000, 9 # 10000000000, 9 # 10000000000)].

(** A closed square outline. *)
Definition square : list CADEdge.Point :=
  [(0, 0, 0); (1, 0, 0); (1, 1, 0); (0, 1, 0); (0, 0, 0)].

End Samples.

(** ** The node graph, as the geometry computer reads it *)
Module CAD.

Definition Point2D : Type := (Q * Q)%type.

(** A closed profile of a sketch: [Point2D[]]. *)
Definition Profile : Type := list Point2D.

Record Point3D : Type := mkPoint3D { px : Q; py : Q; pz : Q }.

Record BoundingBox : Type := mkBoundingBox { bmin : Point3D; bmax : Point3D }.

Inductive BooleanOperation : Type := OpUnion | OpDifference | OpIntersection.

(** [ExtrudeDirection = 'normal' | 'both' | 'symmetric']. *)
Inductive ExtrudeDirection : Type := DirNormal | DirBoth | DirSymmetric.

(** [booleanOp: BooleanOperation | 'new']. *)
Inductive FeatureOp : Type := OpNew | OpBoolean (op : BooleanOperation).

Inductive PrimitiveParams : Type :=
| BoxParams (width height depth : Q) (center : bool)
| SphereParams (radius : Q) (circularSegments : nat)
| CylinderParams (radius height : Q) (circularSegments : nat) (center : bool)
| ConeParams (bottomRadius topRadius height : Q) (circularSegments : nat) (center : bool)
| TorusParams (majorRadius minorRadius : Q) (majorSegments minorSegments : nat).

Record ExtrudeParams : Type := mkExtrudeParams {
  sketchId : string;
  distance : Q;
  direction : ExtrudeDirection;
  draftAngle : Q;
  booleanOp : FeatureOp;
  targetBodyId : option string
}.

Record RevolveParams : Type := mkRevolveParams {
  rev_sketchId : string;
  axisEntityId : string;
  angle : Q;
  rev_booleanOp : FeatureOp;
  rev_targetBodyId : option string
}.

(** Node types that [compute] has no case for. *)
Inductive OtherType : Type := TSweep | TLoft | TGroup | TImport.

(** The type discriminant together with the fields of that type. *)
Inductive NodeBody : Type :=
| Primitive (params : PrimitiveParams)
| Boolean (op : BooleanOperation) (operandIds : list string)
| Sketch (profiles : list Profile)
| Extrude (params : ExtrudeParams)
| Revolve (params : RevolveParams)
| Other (type : OtherType).

Record CADNode : Type := mkNode { id : string; name : string; body : NodeBody }.

(** [node.type], as the messages print it. *)
Definition typeName (n : CADNode) : string :=
  match body n with
  | Primitive (BoxParams _ _ _ _) => "box"
  | Primitive (SphereParams _ _) => "sphere"
  | Primitive (CylinderParams _ _ _ _) => "cylinder"
  | Primitive (ConeParams _ _ _ _ _) => "cone"
  | Primitive (TorusParams _ _ _ _) => "torus"
  | Boolean OpUnion _ => "union"
  | Boolean OpDifference _ => "difference"
  | Boolean OpIntersection _ => "intersection"
  | Sketch _ => "sketch"
  | Extrude _ => "extrude"
  | Revolve _ => "revolve"
  | Other TSweep => "sweep"
  | Other TLoft => "loft"
  | Other TGroup => "group"
  | Other TImport => "import"
  end.

(** [doc.nodes]: a [Map<string, CADNode>], in insertion order. *)
Definition Nodes : Type := list (string * CADNode).

(** [nodesStore.get(nodeId)]. *)
Fixpoint nodesGet (nodeId : string) (nodes : Nodes) : option CADNode :=
  match nodes with
  | [] => None
  | (k, n) :: rest => if String.eqb k nodeId then Some n else nodesGet nodeId rest
  end.

End CAD.

(** ** The CSG kernel and the other collaborators

    What the wasm module, the [Solid] classes and three.js do is not part of
    the repository's logic; it enters as a record of operations.  An
    operation that may throw returns an [Outcome]. *)
Record Kernel : Type := mkKernel {
  Manifold : Type;
  MeshData : Type;
  BufferGeometry : Type;
  Topology : Type;
  SolidObject : Type;
  (** [manifoldEngine.initialize()] *)
  engineInitialize : Result unit;
  (** [manifoldEngine.isReady()], [CrossSection] loaded, [isModuleReady()] *)
  isReady : bool;
  hasCrossSection : bool;
  isModuleReady : bool;
  (** [a.add(b)], [a.subtract(b)], [a.intersect(b)] *)
  k_add : Manifold -> Manifold -> Outcome Manifold;
  k_subtract : Manifold -> Manifold -> Outcome Manifold;
  k_intersect : Manifold -> Manifold -> Outcome Manifold;
  (** [CrossSection.ofPolygons([p]).extrude(height, 1, 0, [1, 1])] *)
  k_extrude : CAD.Profile -> Q -> Outcome Manifold;
  (** [CrossSection.ofPolygons([p]).revolve(segments, angle)] *)
  k_revolve : CAD.Profile -> Q -> Outcome Manifold;
  (** [solid.translate([x, y, z])] *)
  k_translate : Manifold -> CAD.Point3D -> Outcome Manifold;
  (** [solid.getMesh()] and the copy into typed arrays with normals *)
  k_getMesh : Manifold -> Outcome MeshData;
  (** [solid.boundingBox?.()] *)
  k_boundingBox : Manifold -> Outcome (option CAD.BoundingBox);
  (** the empty topology [{vertices: [], edges: [], faces: []}] *)
  emptyTopology : Topology;
  (** [new THREE.BufferGeometry()] with its attributes and bounding box *)
  newBufferGeometry : MeshData -> Outcome BufferGeometry;
  (** [new BoxSolid(...)] and its siblings, [solid.getManifold()], and the
      topology summary read off the solid's faces, edges and vertices *)
  newSolid : CAD.CADNode -> CAD.PrimitiveParams -> Outcome SolidObject;
  solidGetManifold : SolidObject -> Outcome Manifold;
  solidTopology : SolidObject -> Outcome Topology
}.

(** ** [ManifoldEngine]: the wrappers the geometry computer calls *)
Module ManifoldEngine.
Section Engine.
Context (K : Kernel).

Definition notInitialized : string := "Manifold not initialized".

(** [try { return Ok(f()) } catch (error) { return Err(prefix + error) }]. *)
Definition guarded {A} (prefix : string) (o : Outcome A) : Result A :=
  match o with
  | Returned v => Ok v
  | Thrown e => Err (prefix +:+ e)
  end.

Definition union (a b : Manifold K) : Result (Manifold K) :=
  if negb (isReady K) then Err notInitialized
  else guarded "Union failed: " (k_add K a b).

Definition difference (a b : Manifold K) : Result (Manifold K) :=
  if negb (isReady K) then Err notInitialized
  else guarded "Difference failed: " (k_subtract K a b).

Definition intersection (a b : Manifold K) : Result (Manifold K) :=
  if negb (isReady K) then Err notInitialized
  else guarded "Intersection failed: " (k_intersect K a b).

Definition boolean (a b : Manifold K) (operation : CAD.BooleanOperation)
    : Result (Manifold K) :=
  match operation with
  | CAD.OpUnion => union a b
  | CAD.OpDifference => difference a b
  | CAD.OpIntersection => intersection a b
  end.

Definition extrude (profile : CAD.Profile) (height : Q) : Result (Manifold K) :=
  if negb (isReady K) || negb (hasCrossSection K) then Err notInitialized
  else guarded "Extrusion failed: " (k_extrude K profile height).

Definition revolve (profile : CAD.Profile) (angle : Q) : Result (Manifold K) :=
  if negb (isReady K) || negb (hasCrossSection K) then Err notInitialized
  else guarded "Revolution failed: " (k_revolve K profile angle).

Definition translate (solid : Manifold K) (offset : CAD.Point3D)
    : Result (Manifold K) :=
  if negb (isReady K) then Err notInitialized
  else guarded "Translation failed: " (k_translate K solid offset).

Definition extractMesh (solid : Manifold K) : Result (MeshData K) :=
  if negb (isReady K) then Err notInitialized
  else guarded "Mesh extraction failed: " (k_getMesh K solid).

Definition extractTopology (solid : Manifold K) : Result (Topology K) :=
  if negb (isReady K) then Err notInitialized
  else Ok (emptyTopology K).

Definition getBoundingBox (solid : Manifold K) : Result CAD.BoundingBox :=
  if negb (isReady K) then Err notInitialized
  else
    match k_boundingBox K solid with
    | Returned (Some bbox) => Ok bbox
    | Returned None => Err "Could not get bounding box"
    | Thrown e => Err ("Bounding box failed: " +:+ e)
    end.

End Engine.
End ManifoldEngine.

(** ** [GeometryComputer] *)
Module GeometryComputer.
Section Computer.
Context (K : Kernel).

(** [ComputedGeometry] of core/types.ts. *)
Record ComputedGeometry : Type := mkGeometry {
  manifold : option (Manifold K);
  threeGeometry : option (BufferGeometry K);
  meshData : option (MeshData K);
  topology : option (Topology K);
  bounds : option CAD.BoundingBox;
  dirty : bool;
  error : option string
}.

(** The fields of the computer and of the cache store it writes to.
    [booleanCalls] is a ghost counter of the calls of
    [manifoldEngine.boolean]; no decision reads it. *)
Record State : Type := mkState {
  initialized : bool;
  computing : gset string;
  cache : gmap string ComputedGeometry;
  booleanCalls : nat
}.

Definition setInitialized (s : State) : State :=
  mkState true (computing s) (cache s) (booleanCalls s).
Definition computingAdd (nodeId : string) (s : State) : State :=
  mkState (initialized s) ({[nodeId]} ∪ computing s) (cache s) (booleanCalls s).
Definition computingDelete (nodeId : string) (s : State) : State :=
  mkState (initialized s) (computing s ∖ {[nodeId]}) (cache s) (booleanCalls s).
(** [geometryCacheStore.set(nodeId, geometry)]. *)
Definition cacheSet (nodeId : string) (g : ComputedGeometry) (s : State) : State :=
  mkState (initialized s) (computing s) (<[nodeId := g]> (cache s)) (booleanCalls s).
Definition countBoolean (s : State) : State :=
  mkState (initialized s) (computing s) (cache s) (S (booleanCalls s)).

(** [createEmptyGeometry(error)]. *)
Definition createEmptyGeometry (error : string) : ComputedGeometry :=
  mkGeometry None None None None None false (Some error).

(** [value ? value : null] on a result. *)
Definition orNull {A} (r : Result A) : option A :=
  match r with Ok v => Some v | Err _ => None end.

(** [manifoldToGeometry(solid)]; the three.js calls are outside any
    handler of this method. *)
Definition manifoldToGeometry (solid : Manifold K) : Outcome ComputedGeometry :=
  match ManifoldEngine.extractMesh K solid with
  | Err e => Returned (createEmptyGeometry e)
  | Ok mesh =>
      match newBufferGeometry K mesh with
      | Thrown e => Thrown e
      | Returned three =>
          Returned (mkGeometry (Some solid) (Some three) (Some mesh)
                      (orNull (ManifoldEngine.extractTopology K solid))
                      (orNull (ManifoldEngine.getBoundingBox K solid))
                      false None)
      end
  end.

(** [computePrimitive(node)]: everything after the readiness test runs
    inside the method's own handler. *)
Definition computePrimitive (node : CAD.CADNode) (params : CAD.PrimitiveParams)
    : ComputedGeometry :=
  let failed e := createEmptyGeometry ("Primitive creation failed: " +:+ e) in
  if negb (isModuleReady K) then createEmptyGeometry "Solid module not initialized"
  else
    match newSolid K node params with
    | Thrown e => failed e
    | Returned solid =>
        match solidGetManifold K solid with
        | Thrown e => failed e
        | Returned m =>
            match ManifoldEngine.extractMesh K m with
            | Err e => createEmptyGeometry e
            | Ok mesh =>
                match newBufferGeometry K mesh with
                | Thrown e => failed e
                | Returned three =>
                    match solidTopology K solid with
                    | Thrown e => failed e
                    | Returned topo =>
                        mkGeometry (Some m) (Some three) (Some mesh) (Some topo)
                          (orNull (ManifoldEngine.getBoundingBox K m)) false None
                    end
                end
            end
        end
    end.

(** *** Extrusion and revolution of the profiles *)

(** The [(height, offsetZ)] chosen from [direction]. *)
Definition extrudeDims (direction : CAD.ExtrudeDirection) (distance : Q) : Q * Q :=
  match direction with
  | CAD.DirBoth => (distance * 2, - distance)%Q
  | CAD.DirSymmetric => (distance, - distance / 2)%Q
  | CAD.DirNormal => (distance, 0%Q)
  end.

(** The body of the loop over the profiles: the solid pushed onto
    [extrusionResults], if any. *)
Definition extrudeProfile (direction : CAD.ExtrudeDirection) (distance : Q)
    (profile : CAD.Profile) : option (Manifold K) :=
  let '(height, offsetZ) := extrudeDims direction distance in
  match ManifoldEngine.extrude K profile height with
  | Err _ => None
  | Ok solid =>
      if negb (Qeq_bool offsetZ 0) then
        match ManifoldEngine.translate K solid (CAD.mkPoint3D 0 0 offsetZ) with
        | Ok moved => Some moved
        | Err _ => Some solid
        end
      else Some solid
  end.

Fixpoint extrudeProfiles (direction : CAD.ExtrudeDirection) (distance : Q)
    (profiles : list CAD.Profile) : list (Manifold K) :=
  match profiles with
  | [] => []
  | profile :: rest =>
      match extrudeProfile direction distance profile with
      | Some solid => solid :: extrudeProfiles direction distance rest
      | None => extrudeProfiles direction distance rest
      end
  end.

Fixpoint revolveProfiles (angle : Q) (profiles : list CAD.Profile)
    : list (Manifold K) :=
  match profiles with
  | [] => []
  | profile :: rest =>
      match ManifoldEngine.revolve K profile angle with
      | Ok solid => solid :: revolveProfiles angle rest
      | Err _ => revolveProfiles angle rest
      end
  end.

(** [for (i = 1; ...) { u = union(result, results[i]); if (u.success)
    result = u.value }]. *)
Fixpoint unionAll (result : Manifold K) (rest : list (Manifold K)) : Manifold K :=
  match rest with
  | [] => result
  | next :: rest' =>
      match ManifoldEngine.union K result next with
      | Ok v => unionAll v rest'
      | Err _ => unionAll result rest'
      end
  end.

(** *** The recursive methods, over the call [this.compute] *)

(** What a call of [compute] yields: the result and the state it leaves;
    [None] when the recursion budget of the model is used up. *)
Definition Compute : Type :=
  string -> State -> option (Result ComputedGeometry * State).

Section Methods.
Context (nodes : CAD.Nodes) (compute : Compute).

(** The first loop of [computeBoolean]: either the geometry it returns
    early, or the operands' manifolds.  Only the manifold of a pushed
    geometry is read afterwards. *)
Fixpoint computeOperands (operandIds : list string) (acc : list (Manifold K))
    (s : State) : option ((ComputedGeometry + list (Manifold K)) * State) :=
  match operandIds with
  | [] => Some (inr acc, s)
  | operandId :: rest =>
      match compute operandId s with
      | None => None
      | Some (Ok {| manifold := Some m |}, s') => computeOperands rest (acc ++ [m]) s'
      | Some (_, s') =>
          Some (inl (createEmptyGeometry ("Failed to compute operand: " +:+ operandId)), s')
      end
  end.

(** The second loop of [computeBoolean]: the left fold of the operator. *)
Fixpoint foldBoolean (op : CAD.BooleanOperation) (result : Manifold K)
    (rest : list (Manifold K)) (s : State) : (ComputedGeometry + Manifold K) * State :=
  match rest with
  | [] => (inr result, s)
  | operand :: rest' =>
      match ManifoldEngine.boolean K result operand op with
      | Err e => (inl (createEmptyGeometry e), countBoolean s)
      | Ok v => foldBoolean op v rest' (countBoolean s)
      end
  end.

Definition computeBoolean (op : CAD.BooleanOperation) (operandIds : list string)
    (s : State) : option (Outcome ComputedGeometry * State) :=
  if (length operandIds <? 2)%nat
  then Some (Returned (createEmptyGeometry "Boolean requires at least 2 operands"), s)
  else
    match computeOperands operandIds [] s with
    | None => None
    | Some (inl early, s') => Some (Returned early, s')
    | Some (inr [], s') => Some (Thrown "TypeError: operandGeometries[0] is undefined", s')
    | Some (inr (first :: rest), s') =>
        match foldBoolean op first rest s' with
        | (inl early, s'') => Some (Returned early, s'')
        | (inr result, s'') => Some (manifoldToGeometry result, s'')
        end
    end.

(** [booleanOp !== 'new' && targetBodyId]: a set, non-empty target id. *)
Definition booleanTarget (p : CAD.ExtrudeParams)
    : option (CAD.BooleanOperation * string) :=
  match CAD.booleanOp p, CAD.targetBodyId p with
  | CAD.OpBoolean op, Some target =>
      if String.eqb target EmptyString then None else Some (op, target)
  | _, _ => None
  end.

Definition computeExtrude (p : CAD.ExtrudeParams) (s : State)
    : option (Outcome ComputedGeometry * State) :=
  match CAD.nodesGet (CAD.sketchId p) nodes with
  | Some {| CAD.body := CAD.Sketch profiles |} =>
      match profiles with
      | [] => Some (Returned (createEmptyGeometry "No closed profiles in sketch"), s)
      | _ =>
          match extrudeProfiles (CAD.direction p) (CAD.distance p) profiles with
          | [] => Some (Returned (createEmptyGeometry "Extrusion failed"), s)
          | first :: rest =>
              let result := unionAll first rest in
              match booleanTarget p with
              | None => Some (manifoldToGeometry result, s)
              | Some (op, target) =>
                  match compute target s with
                  | None => None
                  | Some (Ok {| manifold := Some tm |}, s') =>
                      match ManifoldEngine.boolean K tm result op with
                      | Ok v => Some (manifoldToGeometry v, countBoolean s')
                      | Err _ => Some (manifoldToGeometry result, countBoolean s')
                      end
                  | Some (_, s') => Some (manifoldToGeometry result, s')
                  end
              end
          end
      end
  | _ => Some (Returned (createEmptyGeometry "Sketch not found"), s)
  end.

Definition computeRevolve (p : CAD.RevolveParams) (s : State)
    : option (Outcome ComputedGeometry * State) :=
  match CAD.nodesGet (CAD.rev_sketchId p) nodes with
  | Some {| CAD.body := CAD.Sketch profiles |} =>
      match profiles with
      | [] => Some (Returned (createEmptyGeometry "No closed profiles in sketch"), s)
      | _ =>
          match revolveProfiles (CAD.angle p) profiles with
          | [] => Some (Returned (createEmptyGeometry "Revolution failed"), s)
          | first :: rest => Some (manifoldToGeometry (unionAll first rest), s)
          end
      end
  | _ => Some (Returned (createEmptyGeometry "Sketch not found"), s)
  end.

(** The [switch (node.type)] of [compute]. *)
Definition dispatch (node : CAD.CADNode) (s : State)
    : option (Outcome ComputedGeometry * State) :=
  match CAD.body node with
  | CAD.Primitive params => Some (Returned (computePrimitive node params), s)
  | CAD.Boolean op operandIds => computeBoolean op operandIds s
  | CAD.Extrude p => computeExtrude p s
  | CAD.Revolve p => computeRevolve p s
  | CAD.Sketch _ | CAD.Other _ =>
      Some (Returned (createEmptyGeometry
                        ("Unsupported node type: " +:+ CAD.typeName node)), s)
  end.

(** [cached && !cached.dirty]: the entry that is returned as it is. *)
Definition cachedClean (nodeId : string) (s : State) : option ComputedGeometry :=
  match cache s !! nodeId with
  | Some cached => if dirty cached then None else Some cached
  | None => None
  end.

(** [compute(nodeId)], with [this.compute] for the nested calls. *)
Definition computeBody (nodeId : string) (s0 : State)
    : option (Result ComputedGeometry * State) :=
  let afterInit : Result State :=
    if initialized s0 then Ok s0
    else match engineInitialize K with
         | Ok _ => Ok (setInitialized s0)
         | Err e => Err e
         end in
  match afterInit with
  | Err e => Some (Err e, s0)
  | Ok s =>
      if bool_decide (nodeId ∈ computing s)
      then Some (Err "Already computing this node", s)
      else
        match CAD.nodesGet nodeId nodes with
        | None => Some (Err ("Node not found: " +:+ nodeId), s)
        | Some node =>
            match cachedClean nodeId s with
            | Some cached => Some (Ok cached, s)
            | None =>
                match dispatch node (computingAdd nodeId s) with
                | None => None
                | Some (Returned geometry, s') =>
                    Some (Ok geometry,
                          computingDelete nodeId (cacheSet nodeId geometry s'))
                | Some (Thrown e, s') =>
                    Some (Err e,
                          computingDelete nodeId
                            (cacheSet nodeId
                               (createEmptyGeometry ("Computation error: " +:+ e)) s'))
                end
            end
        end
  end.

End Methods.

(** [compute] with a bound on the depth of nested calls. *)
Fixpoint compute (nodes : CAD.Nodes) (fuel : nat) : Compute :=
  match fuel with
  | O => fun _ _ => None
  | S fuel' => computeBody nodes (compute nodes fuel')
  end.

(** *** Invalidation *)

(** [geometryCacheStore.markDirty(nodeId)]: [{...geometry, dirty: true}]
    over an existing entry, nothing otherwise. *)
Definition setDirty (g : ComputedGeometry) : ComputedGeometry :=
  mkGeometry (manifold g) (threeGeometry g) (meshData g) (topology g) (bounds g)
    true (error g).

Definition markDirty (nodeId : string) (c : gmap string ComputedGeometry)
    : gmap string ComputedGeometry :=
  match c !! nodeId with
  | Some geometry => <[nodeId := setDirty geometry]> c
  | None => c
  end.

(** [operandIds.includes(nodeId)]. *)
Definition includes (ids : list string) (nodeId : string) : bool :=
  existsb (String.eqb nodeId) ids.

(** The three tests of the loop body of [markDirtyWithDependents]. *)
Definition isBooleanOver (node : CAD.CADNode) (nodeId : string) : bool :=
  match CAD.body node with
  | CAD.Boolean _ operandIds => includes operandIds nodeId
  | _ => false
  end.
Definition isExtrudeOf (node : CAD.CADNode) (nodeId : string) : bool :=
  match CAD.body node with
  | CAD.Extrude p => String.eqb (CAD.sketchId p) nodeId
  | _ => false
  end.
Definition isRevolveOf (node : CAD.CADNode) (nodeId : string) : bool :=
  match CAD.body node with
  | CAD.Revolve p => String.eqb (CAD.rev_sketchId p) nodeId
  | _ => false
  end.

(** A map over the cache that may run out of recursion budget. *)
Definition Marker : Type :=
  gmap string ComputedGeometry -> option (gmap string ComputedGeometry).

Definition when (b : bool) (f : Marker) : Marker :=
  fun c => if b then f c else Some c.

(** [for (const [id, node] of doc.nodes) { ... }], with [recur id] for
    [this.markDirtyWithDependents(id)]. *)
Fixpoint scanNodes (recur : string -> Marker) (nodeId : string)
    (entries : CAD.Nodes) : Marker :=
  fun c =>
    match entries with
    | [] => Some c
    | (id, node) :: rest =>
        c1 ← when (isBooleanOver node nodeId) (recur id) c;
        c2 ← when (isExtrudeOf node nodeId) (recur id) c1;
        c3 ← when (isRevolveOf node nodeId) (recur id) c2;
        scanNodes recur nodeId rest c3
    end.

Fixpoint markDirtyWithDependents (nodes : CAD.Nodes) (fuel : nat)
    (nodeId : string) : Marker :=
  match fuel with
  | O => fun _ => None
  | S fuel' =>
      fun c =>
        scanNodes (markDirtyWithDependents nodes fuel') nodeId nodes
          (markDirty nodeId c)
  end.

End Computer.
End GeometryComputer.

(** ** A small kernel and a small document to run the computer on *)
Module Fixtures.

Import CAD.
Local Open Scope Q_scope.

(** A solid is known by its bounding box. *)
Definition boxOf (zmin zmax : Q) : BoundingBox :=
  mkBoundingBox (mkPoint3D (-1) (-1) zmin) (mkPoint3D 1 1 zmax).

Definition shift (b : BoundingBox) (v : Point3D) : BoundingBox :=
  mkBoundingBox
    (mkPoint3D (px (bmin b) + px v) (py (bmin b) + py v) (pz (bmin b) + pz v))
    (mkPoint3D (px (bmax b) + px v) (py (bmax b) + py v) (pz (bmax b) + pz v)).

(** Profiles with fewer than three points are rejected; everything else
    succeeds, except unions, which always throw. *)
Definition extrudeBox (profile : Profile) (height : Q) : Outcome BoundingBox :=
  if (length profile <? 3)%nat then Thrown "Error: degenerate polygon"
  else Returned (boxOf 0 height).

Definition boxKernel : Kernel :=
  mkKernel BoundingBox unit unit unit PrimitiveParams
    (Ok tt) true true true
    (fun a b => Thrown "Error: union unsupported")
    (fun a b => Returned a)
    (fun a b => Returned a)
    extrudeBox
    (fun profile angle => extrudeBox profile 1)
    (fun m v => Returned (shift m v))
    (fun m => Returned tt)
    (fun m => Returned (Some m))
    tt
    (fun mesh => Returned tt)
    (fun node params => Returned params)
    (fun solid => Returned (boxOf (-1) 1))
    (fun solid => Returned tt).

(** The same kernel with a translation that always throws. *)
Definition stuckKernel : Kernel :=
  mkKernel BoundingBox unit unit unit PrimitiveParams
    (Ok tt) true true true
    (fun a b => Thrown "Error: union unsupported")
    (fun a b => Returned a)
    (fun a b => Returned a)
    extrudeBox
    (fun profile angle => extrudeBox profile 1)
    (fun m v => Thrown "Error: cannot translate")
    (fun m => Returned tt)
    (fun m => Returned (Some m))
    tt
    (fun mesh => Returned tt)
    (fun node params => Returned params)
    (fun solid => Returned (boxOf (-1) 1))
    (fun solid => Returned tt).

Definition centeredSquare : Profile := [(-1, -1); (1, -1); (1, 1); (-1, 1)].
Definition brokenProfile : Profile := [(0, 0); (1, 1)].

Definition node (nodeId : string) (b : NodeBody) : string * CADNode :=
  (nodeId, mkNode nodeId nodeId b).

Definition document : Nodes :=
  [ node "box1" (Primitive (BoxParams 20 20 20 true));
    node "sketch1" (Sketch [centeredSquare]);
    node "sketch2" (Sketch [brokenProfile; centeredSquare; centeredSquare]);
    node "sketch3" (Sketch [brokenProfile]);
    node "symmetric10"
      (Extrude (mkExtrudeParams "sketch1" 10 DirSymmetric 0 OpNew None));
    node "both10"
      (Extrude (mkExtrudeParams "sketch1" 10 DirBoth 0 OpNew None));
    node "extrude2"
      (Extrude (mkExtrudeParams "sketch2" 4 DirBoth 0 OpNew None));
    node "revolve1" (Revolve (mkRevolveParams "sketch1" "axis" 360 OpNew None));
    node "lonely" (Boolean OpUnion ["missing"]);
    node "cut" (Boolean OpDifference ["box1"; "missing"; "symmetric10"]);
    node "self" (Boolean OpUnion ["box1"; "self"]);
    node "outer" (Boolean OpIntersection ["cut"; "box1"]) ].

(** Ranks that fall along every reference of [document]. *)
Definition documentRank (nodeId : string) : nat :=
  if String.eqb nodeId "outer" then 0
  else if String.eqb nodeId "cut" then 1
  else if String.eqb nodeId "lonely" then 1
  else if String.eqb nodeId "symmetric10" then 2
  else if String.eqb nodeId "both10" then 2
  else if String.eqb nodeId "extrude2" then 2
  else if String.eqb nodeId "revolve1" then 2
  else 3.

(** [document] without the self-referencing boolean. *)
Definition acyclicDocument : Nodes :=
  List.filter (fun e => negb (String.eqb (fst e) "self")) document.

End Fixtures.

(** ** Vocabulary of the stated properties *)
Module Shape.
Section Shape.
Import GeometryComputer.
Context (K : Kernel).

(** A successful result: no error, and the kernel handle, the render
    geometry and the mesh buffers are present. *)
Definition success (g : ComputedGeometry K) : Prop :=
  error K g = None /\ is_Some (manifold K g)
  /\ is_Some (threeGeometry K g) /\ is_Some (meshData K g).

(** A failure: every geometry field is null and [error] holds a message. *)
Definition failure (g : ComputedGeometry K) : Prop :=
  manifold K g = None /\ threeGeometry K g = None /\ meshData K g = None
  /\ topology K g = None /\ bounds K g = None /\ is_Some (error K g).

(** An operand result that [computeBoolean] gives up on. *)
Definition operandFailed (r : Result (ComputedGeometry K)) : Prop :=
  match r with
  | Ok g => manifold K g = None
  | Err _ => True
  end.

(** What one call may do to the state around it. *)
Record step (s s' : State K) : Prop := mkStep {
  step_computing : computing K s' = computing K s;
  step_cache : forall k g, cache K s' !! k = Some g ->
    cache K s !! k = Some g \/ (dirty K g = false /\ (success g \/ failure g));
  step_initialized : initialized K s = true -> initialized K s' = true;
  step_boolean : booleanCalls K s <= booleanCalls K s'
}.

(** A [compute] all of whose calls are such steps. *)
Definition sound (rec : Compute K) : Prop :=
  forall nodeId s r s', rec nodeId s = Some (r, s') -> step s s'.

(** The operands of [pre] are computed one after the other, each with a
    manifold, taking the state from [s] to [s']. *)
Inductive operandsComputed (rec : Compute K)
    : list string -> State K -> list (Manifold K) -> State K -> Prop :=
| computed_nil s : operandsComputed rec [] s [] s
| computed_cons operandId rest s g m s1 ms s2 :
    rec operandId s = Some (Ok g, s1) ->
    manifold K g = Some m ->
    operandsComputed rec rest s1 ms s2 ->
    operandsComputed rec (operandId :: rest) s (m :: ms) s2.

(** The nodes of the document that are not being computed. *)
Definition idle (nodes : CAD.Nodes) (s : State K) : nat :=
  length (List.filter (fun e => bool_decide (fst e ∉ computing K s)) nodes).

End Shape.

(** [y] names a node of the document that refers to [x]: a boolean with
    [x] among its operands, or an extrude or revolve of the sketch [x]. *)
Definition refersTo (node : CAD.CADNode) (x : string) : bool :=
  match CAD.body node with
  | CAD.Boolean _ operandIds => GeometryComputer.includes operandIds x
  | CAD.Extrude p => String.eqb (CAD.sketchId p) x
  | CAD.Revolve p => String.eqb (CAD.rev_sketchId p) x
  | _ => false
  end.

Definition references (nodes : CAD.Nodes) (y x : string) : Prop :=
  exists node, In (y, node) nodes /\ refersTo node x = true.

(** [y] is [x] or refers to it through any number of nodes. *)
Definition dependsOn (nodes : CAD.Nodes) (y x : string) : Prop :=
  Relation_Operators.clos_refl_trans string (references nodes) y x.

(** A document without reference cycles: ranks fall along references. *)
Definition acyclic (nodes : CAD.Nodes) (rank : string -> nat) : Prop :=
  forall y node x, In (y, node) nodes -> refersTo node x = true ->
    (rank y < rank x)%nat.

Section Invalidation.
Import GeometryComputer.
Context (K : Kernel).

(** Every entry of [c'] is the entry of [c] or that entry marked dirty. *)
Definition marks (c c' : gmap string (ComputedGeometry K)) : Prop :=
  forall k, c' !! k = c !! k \/ c' !! k = setDirty K <$> (c !! k).

(** The entry of [y], if there is one, has been marked dirty. *)
Definition dirtied (c c' : gmap string (ComputedGeometry K)) (y : string) : Prop :=
  c' !! y = setDirty K <$> (c !! y).

(** [recur id] returns, marks entries only, and marks the entry of every
    node that depends on [id]. *)
Definition reaches (nodes : CAD.Nodes) (recur : string -> Marker K)
    (id : string) : Prop :=
  forall c, exists c', recur id c = Some c' /\ marks c c'
    /\ forall y, dependsOn nodes y id -> dirtied c c' y.

End Invalidation.

(** The z-range of the kernel's bounding box of [m]. *)
Definition zSpan (K : Kernel) (m : Manifold K) (lo hi : Q) : Prop :=
  exists b, k_boundingBox K m = Returned (Some b)
    /\ (CAD.pz (CAD.bmin b) == lo)%Q /\ (CAD.pz (CAD.bmax b) == hi)%Q.

(** What the kernel documents about prisms and translations: a prism of
    positive height stands on the plane and reaches up to its height, and a
    translation moves the bounding box along. *)
Record PrismLaws (K : Kernel) : Prop := mkPrismLaws {
  extrude_span : forall profile h m,
    (0 < h)%Q -> k_extrude K profile h = Returned m -> zSpan K m 0 h;
  translate_span : forall m v m' lo hi,
    k_translate K m v = Returned m' -> zSpan K m lo hi ->
    zSpan K m' (lo + CAD.pz v)%Q (hi + CAD.pz v)%Q
}.

End Shape.

(** ** States to start the computer from *)
Module States.
Import GeometryComputer.

(** Initialised, nothing cached, nothing in progress. *)
Definition fresh (K : Kernel) : State K := mkState K true ∅ ∅ 0.

(** [nodeId] is being computed. *)
Definition busyWith (K : Kernel) (nodeId : string) : State K :=
  mkState K true {[nodeId]} ∅ 0.

(** [nodeId] has a stale entry, invalidated since it was stored. *)
Definition staleAt (K : Kernel) (nodeId : string) : State K :=
  mkState K true ∅ {[nodeId := setDirty K (createEmptyGeometry K "stale")]} 0.

End States.

(** ** A cache to invalidate *)
Module Caches.
Import GeometryComputer.

(** Clean entries for the sketch, two nodes built on it and an unrelated
    primitive. *)
Definition built (K : Kernel) : gmap string (ComputedGeometry K) :=
  let clean := mkGeometry K None None None None None false None in
  <["sketch1" := clean]> (<["symmetric10" := clean]> (<["cut" := clean]>
    (<["outer" := clean]> (<["box1" := clean]> ∅)))).

End Caches.

(** ** More of [GeometryComputer] *)
Module Recompute.
Section Recompute.
Import GeometryComputer.
Context (K : Kernel) (nodes : CAD.Nodes).

(** The loop of [recomputeAll()]:
    [if (!cached || cached.dirty) await this.compute(nodeId)]. *)
Fixpoint recomputeLoop (fuel : nat) (entries : CAD.Nodes) (s : State K)
    : option (State K) :=
  match entries with
  | [] => Some s
  | (nodeId, _) :: rest =>
      match cachedClean K nodeId s with
      | Some _ => recomputeLoop fuel rest s
      | None =>
          match compute K nodes fuel nodeId s with
          | None => None
          | Some (_, s') => recomputeLoop fuel rest s'
          end
      end
  end.

(** [recomputeAll()], with [fuel] bounding the nesting of each [compute]. *)
Definition recomputeAll (fuel : nat) (s : State K) : option (State K) :=
  recomputeLoop fuel nodes s.

(** The operator applied from left to right over the operands' manifolds. *)
Fixpoint leftFold (op : CAD.BooleanOperation) (acc : Manifold K)
    (rest : list (Manifold K)) : Result (Manifold K) :=
  match rest with
  | [] => Ok acc
  | next :: rest' =>
      match ManifoldEngine.boolean K acc next op with
      | Ok v => leftFold op v rest'
      | Err e => Err e
      end
  end.

(** The calls of [manifoldEngine.boolean] the fold makes: one per operand
    up to and including the first that fails. *)
Fixpoint foldCalls (op : CAD.BooleanOperation) (acc : Manifold K)
    (rest : list (Manifold K)) : nat :=
  match rest with
  | [] => 0
  | next :: rest' =>
      match ManifoldEngine.boolean K acc next op with
      | Ok v => S (foldCalls op v rest')
      | Err _ => 1
      end
  end.

(** The state with [n] more boolean calls counted. *)
Definition countBooleans (n : nat) (s : State K) : State K :=
  mkState K (initialized K s) (computing K s) (cache K s) (n + booleanCalls K s).

(** Every entry of [c] is still an entry of [c'], untouched or replaced by
    a clean one. *)
Definition grows (c c' : gmap string (ComputedGeometry K)) : Prop :=
  forall k g, c !! k = Some g ->
    exists g', c' !! k = Some g'
      /\ (g' = g \/ (dirty K g' = false /\ (Shape.success K g' \/ Shape.failure K g'))).

(** A [compute] all of whose calls let the cache grow. *)
Definition growing (rec : Compute K) : Prop :=
  forall nodeId s r s', rec nodeId s = Some (r, s') -> grows (cache K s) (cache K s').

(** The computer is initialised, or initialising the engine succeeds. *)
Definition canStart (s : State K) : Prop :=
  initialized K s = true \/ engineInitialize K = Ok tt.

(** [nodeId] has an entry with [dirty = false]. *)
Definition cleanAt (s : State K) (nodeId : string) : Prop :=
  exists g, cache K s !! nodeId = Some g /\ dirty K g = false.

End Recompute.

(** The extrude parameters with [booleanOp: 'new']. *)
Definition asNew (p : CAD.ExtrudeParams) : CAD.ExtrudeParams :=
  CAD.mkExtrudeParams (CAD.sketchId p) (CAD.distance p) (CAD.direction p)
    (CAD.draftAngle p) CAD.OpNew (CAD.targetBodyId p).

(** The nodes a node may pass to a nested [compute]: the operands of a
    boolean and the target body of an extrude. *)
Definition callsOf (node : CAD.CADNode) : list string :=
  match CAD.body node with
  | CAD.Boolean _ operandIds => operandIds
  | CAD.Extrude p =>
      match GeometryComputer.booleanTarget p with
      | Some (_, target) => [target]
      | None => []
      end
  | _ => []
  end.

Definition calls (nodes : CAD.Nodes) (y x : string) : Prop :=
  exists node, CAD.nodesGet y nodes = Some node /\ In x (callsOf node).

(** [x] is [y] or is reached from it through nested calls. *)
Definition reachable (nodes : CAD.Nodes) (y x : string) : Prop :=
  Relation_Operators.clos_refl_trans string (calls nodes) y x.

End Recompute.

(** ** More fixtures *)
Module Fixtures2.
Import CAD.
Local Open Scope Q_scope.

(** [Fixtures.boxKernel] with a three.js that throws. *)
Definition throwingKernel : Kernel :=
  mkKernel BoundingBox unit unit unit PrimitiveParams
    (Ok tt) true true true
    (fun a b => Thrown "Error: union unsupported")
    (fun a b => Returned a)
    (fun a b => Returned a)
    Fixtures.extrudeBox
    (fun profile angle => Fixtures.extrudeBox profile 1)
    (fun m v => Returned (Fixtures.shift m v))
    (fun m => Returned tt)
    (fun m => Returned (Some m))
    tt
    (fun mesh => Thrown "Error: WebGL context lost")
    (fun node params => Returned params)
    (fun solid => Returned (Fixtures.boxOf (-1) 1))
    (fun solid => Returned tt).

(** An extrude that cuts into a box, and a boolean over both. *)
Definition withTarget : Nodes :=
  [ Fixtures.node "box1" (Primitive (BoxParams 20 20 20 true));
    Fixtures.node "sketch1" (Sketch [Fixtures.centeredSquare]);
    Fixtures.node "pocket"
      (Extrude (mkExtrudeParams "sketch1" 5 DirNormal 0
                  (OpBoolean OpDifference) (Some "box1")));
    Fixtures.node "both" (Boolean OpUnion ["box1"; "pocket"]) ].

Definition withTargetRank (nodeId : string) : nat :=
  if String.eqb nodeId "both" then 0
  else if String.eqb nodeId "pocket" then 1
  else 2.

(** Two booleans that list each other. *)
Definition cyclic : Nodes :=
  [ Fixtures.node "box1" (Primitive (BoxParams 20 20 20 true));
    Fixtures.node "a" (Boolean OpUnion ["box1"; "b"]);
    Fixtures.node "b" (Boolean OpUnion ["a"; "box1"]) ].

End Fixtures2.

(** ** Reading a mesh back *)
Module Mesh.
Import Solid.

(** The vertex [i]: [vp[i*3], vp[i*3 + 1], vp[i*3 + 2]]. *)
Definition vertexAt (s : Solid.t) (i : nat) : Point :=
  (coord (vertProperties s) (i * 3), coord (vertProperties s) (i * 3 + 1),
   coord (vertProperties s) (i * 3 + 2)).

(** The corner points of the triangles, in the order of [triVerts]. *)
Definition corners (s : Solid.t) : list Point := map (vertexAt s) (triVerts s).

(** The corner points and the face names handed to [addTriangle]. *)
Definition given (faces : list (string * (Point * Point * Point))) : list Point :=
  flat_map (fun f => let '(_, (p0, p1, p2)) := f in [p0; p1; p2]) faces.

Definition names (faces : list (string * (Point * Point * Point))) : list string :=
  map fst faces.

(** [_vertKeyToIndex] lists the stored vertices in order, and no two of
    them have the same key. *)
Definition welded (a : Authoring) : Prop :=
  (length (vertProperties (arrays a)) mod 3 = 0)%nat
  /\ vertKeyToIndex a
     = map (fun i => (vertexAt (arrays a) i, i)) (seq 0 (numVerts (arrays a)))
  /\ (forall i j, (i < numVerts (arrays a))%nat -> (j < numVerts (arrays a))%nat ->
        sameKey (vertexAt (arrays a) i) (vertexAt (arrays a) j) = true -> i = j).

(** Every stored vertex is a corner of some triangle. *)
Definition noOrphans (s : Solid.t) : Prop :=
  forall i, (i < numVerts s)%nat -> In i (triVerts s).

(** The indices of [triVerts] point at vertices with the keys of [pts]. *)
Definition readsBack (s : Solid.t) (pts : list Point) : Prop :=
  Forall2 (fun i p => (i < numVerts s)%nat /\ sameKey (vertexAt s i) p = true)
    (triVerts s) pts.

(** The ids of [triIDs] are the ids registered for [ns]. *)
Definition idsOf (a : Authoring) (ns : list string) : Prop :=
  Forall2 (fun id n => nameGet n (faceNameToID a) = Some id) (triIDs (arrays a)) ns.

(** [[tri[1], tri[2]] = [tri[2], tri[1]]]. *)
Definition flip (tri : Tri) : Tri := let '(i0, i1, i2) := tri in (i0, i2, i1).

(** A triangle as it was, or with its second and third index swapped. *)
Definition sameOrFlipped (tri tri' : Tri) : Prop := tri' = tri \/ tri' = flip tri.

(** The flat index array cut into triangles; a rest of one or two indices
    is no triangle. *)
Fixpoint chunks (tv : list nat) : list Tri :=
  match tv with
  | i0 :: i1 :: i2 :: rest => (i0, i1, i2) :: chunks rest
  | _ => []
  end.

(** The solid with other indices. *)
Definition withTriVerts (tv : list nat) (s : Solid.t) : Solid.t :=
  mk (vertProperties s) tv (triIDs s) (dirty s) (hasManifold s).

End Mesh.

(** ** More solids *)
Module Samples2.

Local Open Scope Q_scope.

(** The unit corner tetrahedron with every face wound inward. *)
Definition inwardTetra : Solid.t :=
  Solid.mk [0; 0; 0;  1; 0; 0;  0; 1; 0;  0; 0; 1]
           [0; 1; 2;  0; 3; 1;  0; 2; 3;  1; 3; 2]%nat
           [1; 2; 3; 4]%nat true false.

End Samples2.

(** ** [BoxSolid._generateBox] *)
Module BoxSolid.
Import Solid.
Local Open Scope Q_scope.

(** The twelve [addTriangle] calls, in order. *)
Definition faces (x y z : Q) (name : string)
    : list (string * (Point * Point * Point)) :=
  let p000 : Point := (0, 0, 0) in
  let p100 : Point := (x, 0, 0) in
  let p010 : Point := (0, y, 0) in
  let p110 : Point := (x, y, 0) in
  let p001 : Point := (0, 0, z) in
  let p101 : Point := (x, 0, z) in
  let p011 : Point := (0, y, z) in
  let p111 : Point := (x, y, z) in
  [ (name +:+ "_NX", (p000, p001, p011)); (name +:+ "_NX", (p000, p011, p010));
    (name +:+ "_PX", (p100, p110, p111)); (name +:+ "_PX", (p100, p111, p101));
    (name +:+ "_NY", (p000, p100, p101)); (name +:+ "_NY", (p000, p101, p001));
    (name +:+ "_PY", (p010, p011, p111)); (name +:+ "_PY", (p010, p111, p110));
    (name +:+ "_NZ", (p000, p010, p110)); (name +:+ "_NZ", (p000, p110, p100));
    (name +:+ "_PZ", (p001, p101, p111)); (name +:+ "_PZ", (p001, p111, p011)) ].

(** [for (i = 0; i < vp.length; i += 3) { vp[i] += ox; vp[i+1] += oy;
    vp[i+2] += oz }], on whole vertices. *)
Fixpoint translateAll (ox oy oz : Q) (vp : list Q) : list Q :=
  match vp with
  | vx :: vy :: vz :: rest =>
      (vx + ox) :: (vy + oy) :: (vz + oz) :: translateAll ox oy oz rest
  | _ => vp
  end.

(** [_vertKeyToIndex.set(key, v)]: a key that is present keeps its place
    and gets the new index. *)
Fixpoint keySet (p : Point) (v : nat) (m : list (Point * nat))
    : list (Point * nat) :=
  match m with
  | [] => [(p, v)]
  | (q, j) :: rest =>
      if sameKey q p then (q, v) :: rest else (q, j) :: keySet p v rest
  end.

(** [_vertKeyToIndex.clear()] and the loop that fills it again. *)
Definition rebuildKeys (s : Solid.t) : list (Point * nat) :=
  fold_left (fun m v => keySet (Mesh.vertexAt s v) v m) (seq 0 (numVerts s)) [].

(** [_generateBox({width: x, height: y, depth: z, center, name})] on a new
    solid, the module being ready. *)
Definition generateBox (x y z : Q) (center : bool) (name : string) : Authoring :=
  let a := addTriangles (faces x y z name) empty in
  if center then
    let s := arrays a in
    let moved :=
      mk (translateAll (- x / 2) (- y / 2) (- z / 2) (vertProperties s))
        (triVerts s) (triIDs s) (dirty s) (hasManifold s) in
    mkAuthoring moved (rebuildKeys moved) (faceNameToID a) (nextID a)
  else a.

(** The index array of every box: the corners are numbered in the order
    [p000, p001, p011, p010, p100, p110, p111, p101] of their first use. *)
Definition boxTriVerts : list nat :=
  [0; 1; 2;  0; 2; 3;  4; 5; 6;  4; 6; 7;  0; 4; 7;  0; 7; 1;
   3; 2; 6;  3; 6; 5;  0; 3; 5;  0; 5; 4;  1; 7; 6;  1; 6; 2]%nat.

(** The corners in that order, flat. *)
Definition boxCorners (x y z : Q) : list Q :=
  [0; 0; 0;  0; 0; z;  0; y; z;  0; y; 0;  x; 0; 0;  x; y; 0;  x; y; z;  x; 0; z].

End BoxSolid.

(** ** [Solid.visualize]: the polylines between two faces

    The body of [for (const [pairKey, edgeList] of pairToEdges)]: the
    segments [[v0, v1]] shared by two faces are chained into polylines. *)
Module Chains.

(** [Set<number>.add(v)], in insertion order. *)
Definition setAdd (v : nat) (s : list nat) : list nat :=
  if existsb (Nat.eqb v) s then s else s ++ [v].

(** [Map<number, Set<number>>] in insertion order. *)
Definition Adj : Type := list (nat * list nat).

Fixpoint adjGet (u : nat) (adj : Adj) : option (list nat) :=
  match adj with
  | [] => None
  | (k, s) :: rest => if (k =? u)%nat then Some s else adjGet u rest
  end.

(** [if (!adj.has(u)) adj.set(u, new Set())]. *)
Definition adjEnsure (u : nat) (adj : Adj) : Adj :=
  match adjGet u adj with
  | Some _ => adj
  | None => adj ++ [(u, [])]
  end.

(** [adj.get(u)!.add(v)]. *)
Fixpoint adjAdd (u v : nat) (adj : Adj) : Adj :=
  match adj with
  | [] => []
  | (k, s) :: rest =>
      if (k =? u)%nat then (k, setAdd v s) :: rest else (k, s) :: adjAdd u v rest
  end.

Definition addSegment (adj : Adj) (e : nat * nat) : Adj :=
  let '(u, v) := e in
  adjAdd v u (adjAdd u v (adjEnsure v (adjEnsure u adj))).

(** [// Build adjacency]. *)
Definition buildAdj (edgeList : list (nat * nat)) : Adj :=
  fold_left addSegment edgeList [].

(** [ek(u, v)]; the string [u,v] stands for the ordered pair. *)
Definition ek (u v : nat) : nat * nat := if (u <? v)%nat then (u, v) else (v, u).

Definition sameSegment (e f : nat * nat) : bool :=
  (fst e =? fst f)%nat && (snd e =? snd f)%nat.

Definition hasKey (visited : list (nat * nat)) (k : nat * nat) : bool :=
  existsb (sameSegment k) visited.

(** [n === prev], with [prev = -1] before the first step. *)
Definition isPrev (prev : option nat) (n : nat) : bool :=
  match prev with
  | Some p => (n =? p)%nat
  | None => false
  end.

(** [for (const n of currNbrs) { if (visited.has(ek(curr, n)) || n === prev)
    continue; next = n; ...; break }]. *)
Fixpoint pickNext (curr : nat) (prev : option nat) (nbrs : list nat)
    (visited : list (nat * nat)) : option nat :=
  match nbrs with
  | [] => None
  | n :: rest =>
      if hasKey visited (ek curr n) || isPrev prev n
      then pickNext curr prev rest visited
      else Some n
  end.

(** [while (true) { ... }]: the chain and the visited keys when the loop
    is left; [None] when the budget of the model runs out. *)
Fixpoint walk (fuel : nat) (adj : Adj) (prev : option nat) (curr : nat)
    (chain : list nat) (visited : list (nat * nat))
    : option (list nat * list (nat * nat)) :=
  match fuel with
  | O => None
  | S fuel' =>
      match adjGet curr adj with
      | None => Some (chain, visited)
      | Some currNbrs =>
          match pickNext curr prev currNbrs visited with
          | None => Some (chain, visited)
          | Some next =>
              walk fuel' adj (Some curr) next (chain ++ [next])
                (visited ++ [ek curr next])
          end
      end
  end.

(** [for (const [start, nbrs] of adj) { ... }]: the chains a [CADEdge] is
    made of, in order. *)
Fixpoint starts (fuel : nat) (adj : Adj) (entries : Adj)
    (visited : list (nat * nat)) : option (list (list nat)) :=
  match entries with
  | [] => Some []
  | (start, nbrs) :: rest =>
      match nbrs with
      | [firstNbr] =>
          if hasKey visited (ek start firstNbr) then starts fuel adj rest visited
          else
            match walk fuel adj None start [start] visited with
            | None => None
            | Some (chain, visited') =>
                match starts fuel adj rest visited' with
                | None => None
                | Some chains =>
                    Some (if (2 <=? length chain)%nat then chain :: chains
                          else chains)
                end
            end
      | _ => starts fuel adj rest visited
      end
  end.

(** Every step of a walk marks a segment that was not marked, so the
    number of segments plus one bounds the steps of one walk. *)
Definition walkChains (edgeList : list (nat * nat)) : option (list (list nat)) :=
  let adj := buildAdj edgeList in
  starts (S (length edgeList)) adj adj [].

(** The vertices [u] is joined to by a segment of the list. *)
Definition neighbours (u : nat) (edgeList : list (nat * nat)) : list nat :=
  flat_map (fun e : nat * nat =>
              (if (fst e =? u)%nat then [snd e] else [])
              ++ (if (snd e =? u)%nat then [fst e] else []))
    edgeList.

(** The number of vertices [u] is joined to. *)
Definition degree (u : nat) (edgeList : list (nat * nat)) : nat :=
  length (nodup Nat.eq_dec (neighbours u edgeList)).

(** [u] and [v] are the two ends of a segment of the list. *)
Definition joined (edgeList : list (nat * nat)) (u v : nat) : Prop :=
  In (u, v) edgeList \/ In (v, u) edgeList.

(** Consecutive vertices of the chain are joined. *)
Fixpoint isPath (edgeList : list (nat * nat)) (chain : list nat) : Prop :=
  match chain with
  | u :: (v :: _) as rest => joined edgeList u v /\ isPath edgeList rest
  | _ => True
  end.

(** A closed outline and an open strip. *)
Definition squareLoop : list (nat * nat) := [(0, 1); (1, 2); (2, 3); (0, 3)]%nat.
Definition strip : list (nat * nat) := [(0, 1); (1, 2); (2, 3)]%nat.

End Chains.

(** * Properties *)

(** ** Insertion-ordered maps *)
Section EdgeMapFacts.
Context {A : Type}.
Implicit Types (m : EdgeMap.t A) (k : nat) (u : A).

Lemma EdgeMap_get_push_eq m k u :
  EdgeMap.get k (EdgeMap.push k u m) = Some (default [] (EdgeMap.get k m) ++ [u]).
Proof.
  induction m as [|[k' l] m IH]; simpl.
  - rewrite Nat.eqb_refl. reflexivity.
  - destruct (k' =? k) eqn:E; simpl; rewrite E; [reflexivity | exact IH].
Qed.

Lemma EdgeMap_get_push_ne m k k' u :
  k <> k' -> EdgeMap.get k' (EdgeMap.push k u m) = EdgeMap.get k' m.
Proof.
  intros Hne. induction m as [|[k0 l] m IH]; simpl.
  - destruct (k =? k') eqn:E; [apply Nat.eqb_eq in E; contradiction | reflexivity].
  - destruct (k0 =? k) eqn:E; simpl.
    + apply Nat.eqb_eq in E. subst k0.
      destruct (k =? k') eqn:E'; [apply Nat.eqb_eq in E'; contradiction | reflexivity].
    + destruct (k0 =? k'); [reflexivity | exact IH].
Qed.

Lemma EdgeMap_keys_push m k u :
  forall k', In k' (map fst (EdgeMap.push k u m)) <-> k' = k \/ In k' (map fst m).
Proof.
  induction m as [|[k0 l] m IH]; simpl; intros k'.
  - intuition.
  - destruct (k0 =? k) eqn:E; simpl.
    + apply Nat.eqb_eq in E. subst. intuition.
    + rewrite IH. intuition.
Qed.

Lemma EdgeMap_NoDup_push m k u :
  List.NoDup (map fst m) -> List.NoDup (map fst (EdgeMap.push k u m)).
Proof.
  induction m as [|[k0 l] m IH]; simpl; intros Hnd.
  - constructor; [intros [] | constructor].
  - inversion Hnd as [|? ? Hnin Hnd']; subst.
    destruct (k0 =? k) eqn:E; simpl.
    + constructor; assumption.
    + constructor; [| apply IH; assumption].
      rewrite EdgeMap_keys_push. intros [->|Hin]; [| contradiction].
      rewrite Nat.eqb_refl in E. discriminate.
Qed.

Lemma EdgeMap_get_In m k l :
  EdgeMap.get k m = Some l -> In (k, l) m.
Proof.
  induction m as [|[k0 l0] m IH]; simpl; [discriminate |].
  destruct (k0 =? k) eqn:E.
  - apply Nat.eqb_eq in E. intros [= ->]. subst. left. reflexivity.
  - intros H. right. apply IH, H.
Qed.

Lemma EdgeMap_In_get m k l :
  List.NoDup (map fst m) -> In (k, l) m -> EdgeMap.get k m = Some l.
Proof.
  induction m as [|[k0 l0] m IH]; simpl; [intros _ [] |].
  intros Hnd [Heq|Hin]; inversion Hnd as [|? ? Hnin Hnd']; subst.
  - injection Heq as -> ->. rewrite Nat.eqb_refl. reflexivity.
  - destruct (k0 =? k) eqn:E.
    + apply Nat.eqb_eq in E. subst. exfalso. apply Hnin.
      change k with (fst (k, l)). apply in_map, Hin.
    + apply IH; assumption.
Qed.

(** What a key holds after pushing the uses [us] on top of [m]. *)
Lemma EdgeMap_get_fold (key : A -> nat) (us : list A) m k :
  EdgeMap.get k (fold_left (fun m u => EdgeMap.push (key u) u m) us m)
  = match EdgeMap.get k m, List.filter (fun u => key u =? k) us with
    | None, [] => None
    | None, l => Some l
    | Some l0, l => Some (l0 ++ l)
    end.
Proof.
  revert m. induction us as [|u us IH]; intros m; simpl.
  - destruct (EdgeMap.get k m); [rewrite app_nil_r |]; reflexivity.
  - rewrite IH. destruct (key u =? k) eqn:E.
    + apply Nat.eqb_eq in E. subst k. rewrite EdgeMap_get_push_eq.
      destruct (EdgeMap.get (key u) m) as [l0|]; simpl.
      * rewrite <- app_assoc. reflexivity.
      * reflexivity.
    + rewrite EdgeMap_get_push_ne by (intros Hk; rewrite Hk, Nat.eqb_refl in E; discriminate).
      reflexivity.
Qed.

Lemma EdgeMap_get_ofUses (key : A -> nat) (us : list A) k :
  EdgeMap.get k (EdgeMap.ofUses key us)
  = match List.filter (fun u => key u =? k) us with
    | [] => None
    | l => Some l
    end.
Proof. unfold EdgeMap.ofUses. rewrite EdgeMap_get_fold. reflexivity. Qed.

Lemma EdgeMap_NoDup_ofUses (key : A -> nat) (us : list A) :
  List.NoDup (map fst (EdgeMap.ofUses key us)).
Proof.
  unfold EdgeMap.ofUses.
  assert (H : forall m, List.NoDup (map fst m) ->
            List.NoDup (map fst (fold_left (fun m u => EdgeMap.push (key u) u m) us m))).
  { induction us as [|u us IH]; intros m Hm; simpl; [exact Hm |].
    apply IH, EdgeMap_NoDup_push, Hm. }
  apply H. constructor.
Qed.

(** A test holds of every value of the map exactly when it holds of the
    uses filed under every key that occurs. *)
Lemma EdgeMap_forallb_values (key : A -> nat) (us : list A) (P : list A -> bool) :
  forallb P (EdgeMap.values (EdgeMap.ofUses key us)) = true
  <-> forall u, In u us -> P (List.filter (fun v => key v =? key u) us) = true.
Proof.
  rewrite forallb_forall. unfold EdgeMap.values. split.
  - intros H u Hu.
    pose proof (EdgeMap_get_ofUses key us (key u)) as Hg.
    destruct (List.filter (fun v => key v =? key u) us) as [|x l] eqn:Hf.
    + exfalso. assert (Hin : In u (List.filter (fun v => key v =? key u) us)).
      { apply filter_In. split; [exact Hu | apply Nat.eqb_refl]. }
      rewrite Hf in Hin. destruct Hin.
    + apply H. apply EdgeMap_get_In in Hg.
      change (x :: l) with (snd (key u, x :: l)). apply in_map, Hg.
  - intros H l Hl. apply in_map_iff in Hl as [[k l'] [<- Hin]]. simpl.
    apply EdgeMap_In_get in Hin; [| apply EdgeMap_NoDup_ofUses].
    rewrite EdgeMap_get_ofUses in Hin.
    destruct (List.filter (fun u => key u =? k) us) as [|x l] eqn:Hf; [discriminate |].
    injection Hin as <-.
    assert (Hx : In x (List.filter (fun u => key u =? k) us)) by (rewrite Hf; left; reflexivity).
    apply filter_In in Hx as [Hx Hk]. apply Nat.eqb_eq in Hk. subst k.
    rewrite <- Hf. apply H, Hx.
Qed.

End EdgeMapFacts.

(** ** Edge keys and the coherence check *)

Lemma ukey_sameUndirected nv a b c d :
  Solid.sameUndirected (a, b) (c, d) = true -> Solid.ukey nv a b = Solid.ukey nv c d.
Proof.
  unfold Solid.sameUndirected, Solid.ukey. simpl. intros H.
  apply orb_true_iff in H as [H|H]; apply andb_true_iff in H as [H1 H2];
    apply Nat.eqb_eq in H1, H2; subst.
  - reflexivity.
  - destruct (d <? c) eqn:E1, (c <? d) eqn:E2; try reflexivity.
    + apply Nat.ltb_lt in E1, E2. lia.
    + apply Nat.ltb_ge in E1, E2. assert (c = d) by lia. subst. reflexivity.
Qed.

Lemma ukey_inj nv a b c d :
  a < nv -> b < nv -> c < nv -> d < nv ->
  Solid.ukey nv a b = Solid.ukey nv c d ->
  Solid.sameUndirected (a, b) (c, d) = true.
Proof.
  intros Ha Hb Hc Hd. unfold Solid.ukey, Solid.sameUndirected. simpl.
  assert (Hdiv : forall x y x' y', y < nv -> y' < nv ->
            x * nv + y = x' * nv + y' -> x = x' /\ y = y').
  { intros x y x' y' Hy Hy' Heq.
    assert (x = x') by nia. subst. lia. }
  destruct (a <? b) eqn:E1, (c <? d) eqn:E2; intros Heq;
    apply Hdiv in Heq as [H1 H2]; try assumption; subst;
    rewrite ?Nat.eqb_refl; simpl;
    try reflexivity.
  - apply Nat.ltb_lt in E1. apply Nat.ltb_ge in E2.
    rewrite orb_true_r. reflexivity.
  - apply Nat.ltb_lt in E2. apply Nat.ltb_ge in E1.
    rewrite orb_true_r. reflexivity.
Qed.

Lemma oppositePair_spec (l : list (nat * nat)) :
  Solid.oppositePair l = true <-> exists a b, l = [(a, b); (b, a)].
Proof.
  split.
  - destruct l as [|[a b] [|[c d] [|? ?]]]; simpl; try discriminate.
    intros H. apply andb_true_iff in H as [H1 H2].
    apply Nat.eqb_eq in H1, H2. subst. exists d, c. reflexivity.
  - intros (a & b & ->). simpl. rewrite !Nat.eqb_refl. reflexivity.
Qed.

Lemma triCount_bound (s : Solid.t) t j :
  t < Solid.triCount s -> j < 3 -> t * 3 + j < length (Solid.triVerts s).
Proof.
  unfold Solid.triCount. intros Ht Hj.
  pose proof (Nat.Div0.mul_div_le (length (Solid.triVerts s)) 3). lia.
Qed.

Lemma directedEdges_bound (s : Solid.t) :
  Solid.wellFormed s ->
  forall e, In e (Solid.directedEdges s) ->
    fst e < Solid.NV s /\ snd e < Solid.NV s.
Proof.
  intros Hwf e He. unfold Solid.directedEdges in He.
  apply in_flat_map in He as (tri & Htri & He).
  unfold Solid.trisOf in Htri. apply in_map_iff in Htri as (t & <- & Ht).
  apply in_seq in Ht. destruct Ht as [_ Ht]. simpl in Ht.
  assert (Hread : forall j, j < 3 ->
            Solid.triVertAt (Solid.triVerts s) (t * 3 + j) < Solid.NV s).
  { intros j Hj. unfold Solid.triVertAt.
    pose proof (triCount_bound s t j Ht Hj) as Hlt.
    unfold Solid.wellFormed in Hwf. rewrite List.Forall_forall in Hwf.
    specialize (Hwf _ (nth_In _ 0 Hlt)). unfold Solid.NV. lia. }
  pose proof (Hread 0 ltac:(lia)) as H0. rewrite Nat.add_0_r in H0.
  pose proof (Hread 1 ltac:(lia)) as H1.
  pose proof (Hread 2 ltac:(lia)) as H2.
  unfold Solid.triAt, Solid.triEdges in He. simpl in He.
  destruct He as [<-|[<-|[<-|[]]]]; simpl; split; assumption.
Qed.

(** Under well-formedness the key groups the directed edges by their
    unordered vertex pair. *)
Lemma usesOf_filter_key (s : Solid.t) e :
  Solid.wellFormed s -> In e (Solid.directedEdges s) ->
  List.filter (fun v => Solid.ukey (Solid.NV s) (fst v) (snd v)
                        =? Solid.ukey (Solid.NV s) (fst e) (snd e))
              (Solid.directedEdges s)
  = Solid.usesOf s e.
Proof.
  intros Hwf He. unfold Solid.usesOf.
  pose proof (directedEdges_bound s Hwf) as Hb.
  destruct (Hb e He) as [He1 He2]. clear He.
  induction (Solid.directedEdges s) as [|v l IH]; simpl; [reflexivity |].
  assert (Hv : fst v < Solid.NV s /\ snd v < Solid.NV s) by (apply Hb; left; reflexivity).
  assert (Hl : forall e, In e l -> fst e < Solid.NV s /\ snd e < Solid.NV s)
    by (intros e' He'; apply Hb; right; exact He').
  destruct Hv as [Hv1 Hv2]. destruct v as [c d], e as [a b]. simpl in *.
  destruct (Solid.sameUndirected (a, b) (c, d)) eqn:Es.
  - assert (Ht : (Solid.ukey (Solid.NV s) c d =? Solid.ukey (Solid.NV s) a b) = true).
    { apply Nat.eqb_eq. symmetry. apply ukey_sameUndirected, Es. }
    rewrite Ht. f_equal. apply IH. exact Hl.
  - destruct (Solid.ukey (Solid.NV s) c d =? Solid.ukey (Solid.NV s) a b) eqn:Ek.
    + apply Nat.eqb_eq in Ek. symmetry in Ek.
      apply ukey_inj in Ek; try assumption. congruence.
    + apply IH. exact Hl.
Qed.

Lemma isCoherent_spec (s : Solid.t) :
  Solid.wellFormed s -> 0 < Solid.triCount s ->
  (Solid.isCoherentlyOrientedManifold s = true <-> Solid.coherentSpec s).
Proof.
  intros Hwf Hn. unfold Solid.isCoherentlyOrientedManifold.
  destruct (Solid.triCount s =? 0) eqn:E; [apply Nat.eqb_eq in E; lia |].
  unfold Solid.edgeMapOf. rewrite EdgeMap_forallb_values.
  unfold Solid.coherentSpec. split; intros H e He.
  - apply oppositePair_spec. rewrite <- usesOf_filter_key by assumption.
    apply H, He.
  - rewrite usesOf_filter_key by assumption. apply oppositePair_spec, H, He.
Qed.

(** ** The adjacency repair always finishes *)

Lemma unvisited_le_length v : Solid.unvisited v <= length v.
Proof. unfold Solid.unvisited. apply List.filter_length_le. Qed.

Lemma unvisited_mark (v : list bool) n :
  Solid.isVisited v n = false -> n < length v ->
  Solid.unvisited (<[n := true]> v) + 1 = Solid.unvisited v.
Proof.
  unfold Solid.isVisited, Solid.unvisited. revert n.
  induction v as [|x v IH]; intros n Hv Hn; simpl in *; [lia |].
  destruct n as [|n]; simpl in *.
  - subst x. simpl. lia.
  - specialize (IH n Hv ltac:(lia)). destruct x; simpl; lia.
Qed.

Lemma visitAdj_weight t a b adj N :
  List.Forall (fun u => Solid.use_tri u < N) adj ->
  forall st, length (Solid.visited st) = N ->
    length (Solid.visited (Solid.visitAdj t a b adj st)) = N
    /\ Solid.weight (Solid.visitAdj t a b adj st) <= Solid.weight st.
Proof.
  induction 1 as [|u adj Hu _ IH]; intros st Hlen; simpl; [split; lia |].
  destruct (Solid.use_tri u =? t) eqn:Et; simpl; [apply IH, Hlen |].
  destruct (Solid.isVisited (Solid.visited st) (Solid.use_tri u)) eqn:Ev;
    [apply IH, Hlen |].
  match goal with |- context [Solid.visitAdj t a b adj ?st'] =>
    destruct (IH st') as [IH1 IH2] end.
  { simpl. rewrite length_insert. exact Hlen. }
  split; [exact IH1 |].
  etransitivity; [exact IH2 |].
  unfold Solid.weight. simpl.
  pose proof (unvisited_mark (Solid.visited st) (Solid.use_tri u) Ev ltac:(lia)).
  lia.
Qed.

Lemma visitEdge_weight und nv t tri e N :
  Solid.usesBelow N und ->
  forall st, length (Solid.visited st) = N ->
    length (Solid.visited (Solid.visitEdge und nv t tri e st)) = N
    /\ Solid.weight (Solid.visitEdge und nv t tri e st) <= Solid.weight st.
Proof.
  intros Hund st Hlen. unfold Solid.visitEdge.
  destruct (EdgeMap.get _ und) as [adj|] eqn:Hg; [| split; lia].
  destruct (length adj <? 2); [split; lia |].
  apply visitAdj_weight; [eapply Hund, Hg | exact Hlen].
Qed.

Lemma processTri_weight und nv t N :
  Solid.usesBelow N und ->
  forall st, length (Solid.visited st) = N ->
    length (Solid.visited (Solid.processTri und nv t st)) = N
    /\ Solid.weight (Solid.processTri und nv t st) <= Solid.weight st.
Proof.
  intros Hund st Hlen. unfold Solid.processTri. simpl.
  set (tri := default (0, 0, 0) (Solid.tris st !! t)).
  destruct (visitEdge_weight und nv t tri 0 N Hund st Hlen) as [L0 W0].
  destruct (visitEdge_weight und nv t tri 1 N Hund _ L0) as [L1 W1].
  destruct (visitEdge_weight und nv t tri 2 N Hund _ L1) as [L2 W2].
  split; [exact L2 | lia].
Qed.

Lemma drain_total und nv N :
  Solid.usesBelow N und ->
  forall fuel st, length (Solid.visited st) = N -> Solid.weight st <= fuel ->
    exists st', Solid.drain und nv fuel st = Some st'
      /\ length (Solid.visited st') = N /\ Solid.stack st' = [].
Proof.
  intros Hund. induction fuel as [|fuel IH]; intros st Hlen Hw.
  - destruct st as [ts v [|t rest]]; simpl.
    + eexists. split; [reflexivity | split; [exact Hlen | reflexivity]].
    + unfold Solid.weight in Hw. simpl in Hw. lia.
  - destruct st as [ts v [|t rest]]; simpl.
    + eexists. split; [reflexivity | split; [exact Hlen | reflexivity]].
    + simpl in Hlen.
      destruct (processTri_weight und nv t N Hund (Solid.mkBfs ts v rest) Hlen)
        as [L W].
      apply IH; [exact L |].
      unfold Solid.weight in *. simpl in *. lia.
Qed.

Lemma seedLoop_total und nv N fuel :
  Solid.usesBelow N und -> 2 * N + 1 <= fuel ->
  forall seeds st, length (Solid.visited st) = N -> Solid.stack st = [] ->
    Forall (fun seed => seed < N) seeds ->
    exists st', Solid.seedLoop und nv fuel seeds st = Some st'.
Proof.
  intros Hund Hfuel. induction seeds as [|seed seeds IH]; intros st Hlen Hst Hseeds; simpl.
  - eexists. reflexivity.
  - apply Forall_cons in Hseeds as [Hseed Hseeds].
    destruct (Solid.isVisited (Solid.visited st) seed) eqn:Ev; [apply IH; assumption |].
    edestruct (drain_total und nv N Hund fuel) as (st' & -> & L & S).
    + simpl. rewrite length_insert. exact Hlen.
    + unfold Solid.weight. simpl. rewrite Hst. simpl.
      pose proof (unvisited_mark _ _ Ev ltac:(lia)).
      pose proof (unvisited_le_length (Solid.visited st)). lia.
    + apply IH; assumption.
Qed.

Lemma usesFrom_range ts : forall i u,
  In u (Solid.usesFrom i ts) -> i <= Solid.use_tri u < i + length ts.
Proof.
  induction ts as [|tri ts IH]; intros i u Hu; simpl in *; [destruct Hu |].
  destruct Hu as [<-|[<-|[<-|Hu]]]; simpl; try lia.
  apply IH in Hu. lia.
Qed.

Lemma undirectedOf_usesBelow nv ts : Solid.usesBelow (length ts) (Solid.undirectedOf nv ts).
Proof.
  intros k adj Hg. unfold Solid.undirectedOf in Hg.
  rewrite EdgeMap_get_ofUses in Hg.
  apply List.Forall_forall. intros u Hu.
  assert (Hin : In u (Solid.usesFrom 0 ts)).
  { destruct (List.filter _ (Solid.usesFrom 0 ts)) eqn:Hf; [discriminate |].
    injection Hg as <-. rewrite <- Hf in Hu. apply filter_In in Hu. tauto. }
  apply usesFrom_range in Hin. lia.
Qed.

Lemma length_trisOf s : length (Solid.trisOf s) = Solid.triCount s.
Proof. unfold Solid.trisOf. rewrite length_map, length_seq. reflexivity. Qed.

(** The traversal never runs out of the fuel it is given. *)
Lemma fixTriangleWindingsByAdjacency_total (s : Solid.t) :
  exists s', Solid.fixTriangleWindingsByAdjacency s = Some s'
    /\ Solid.vertProperties s' = Solid.vertProperties s.
Proof.
  unfold Solid.fixTriangleWindingsByAdjacency.
  destruct (Solid.isCoherentlyOrientedManifold s); [eexists; split; reflexivity |].
  destruct (Solid.triCount s =? 0); [eexists; split; reflexivity |].
  edestruct (seedLoop_total (Solid.undirectedOf (Solid.NV s) (Solid.trisOf s))
               (Solid.NV s) (Solid.triCount s) (Solid.drainFuel s)) as (st' & ->).
  - rewrite <- length_trisOf. apply undirectedOf_usesBelow.
  - unfold Solid.drainFuel. lia.
  - simpl. apply length_replicate.
  - reflexivity.
  - apply List.Forall_forall. intros x Hx. apply in_seq in Hx. lia.
  - eexists. split; reflexivity.
Qed.

(** ** Signed volume and the uniform flip *)

Section ListBy3.
Context {A : Type} (P : list A -> Prop).
Hypothesis P0 : P [].
Hypothesis P1 : forall a, P [a].
Hypothesis P2 : forall a b, P [a; b].
Hypothesis P3 : forall a b c l, P l -> P (a :: b :: c :: l).

Lemma list_ind_by3 : forall l, P l.
Proof.
  fix IH 1. intros [|a [|b [|c l]]].
  - exact P0.
  - apply P1.
  - apply P2.
  - apply P3, IH.
Qed.
End ListBy3.

Local Open Scope Q_scope.





(** ** Authored meshes are well formed *)

Lemma keyGet_In p m i : Solid.keyGet p m = Some i -> exists q, In (q, i) m.
Proof.
  induction m as [|[q j] m IH]; simpl; [discriminate |].
  destruct (Solid.sameKey q p).
  - intros [= ->]. exists q. left. reflexivity.
  - intros H. destruct (IH H) as [q' Hq']. exists q'. right. exact Hq'.
Qed.

Lemma numVerts_grow (vp : list Q) (x y z : Q) :
  (length vp mod 3 = 0)%nat ->
  (length (vp ++ [x; y; z]) mod 3 = 0
   /\ length (vp ++ [x; y; z]) / 3 = S (length vp / 3))%nat.
Proof.
  intros Hmod. rewrite length_app. change (length [x; y; z]) with 3%nat.
  pose proof (Nat.div_mod_eq (length vp) 3) as Hdm. rewrite Hmod in Hdm.
  replace (length vp + 3)%nat with ((S (length vp / 3)) * 3)%nat by lia.
  split; [apply Nat.Div0.mod_mul | apply Nat.div_mul; lia].
Qed.

Lemma getPointIndex_invariant p a :
  Solid.authoringInvariant a ->
  let '(i, a') := Solid.getPointIndex p a in
  Solid.authoringInvariant a'
  /\ (i < Solid.numVerts (Solid.arrays a'))%nat
  /\ (Solid.numVerts (Solid.arrays a) <= Solid.numVerts (Solid.arrays a'))%nat
  /\ Solid.triVerts (Solid.arrays a') = Solid.triVerts (Solid.arrays a)
  /\ Solid.triIDs (Solid.arrays a') = Solid.triIDs (Solid.arrays a).
Proof.
  intros (Hmod & Htv & Hkeys). unfold Solid.getPointIndex.
  destruct (Solid.keyGet p (Solid.vertKeyToIndex a)) as [found|] eqn:Hget.
  - split; [repeat split; assumption |].
    split; [| repeat split; lia].
    destruct (keyGet_In _ _ _ Hget) as [q Hq].
    rewrite List.Forall_forall in Hkeys. apply (Hkeys _ Hq).
  - destruct p as [[x y] z].
    destruct (numVerts_grow (Solid.vertProperties (Solid.arrays a)) x y z Hmod)
      as [Hmod' Hnv].
    unfold Solid.authoringInvariant, Solid.numVerts in *.
    cbn [Solid.arrays Solid.vertProperties Solid.triVerts Solid.triIDs
         Solid.vertKeyToIndex].
    rewrite Hnv.
    repeat split; try lia; try assumption.
    + eapply List.Forall_impl; [| exact Htv]. cbn beta. lia.
    + apply List.Forall_app. split.
      * eapply List.Forall_impl; [| exact Hkeys]. cbn beta. lia.
      * constructor; [cbn [snd]; lia | constructor].
Qed.

Lemma addTriangle_invariant ready faceName p0 p1 p2 a a' :
  Solid.authoringInvariant a ->
  Solid.addTriangle ready faceName p0 p1 p2 a = Returned a' ->
  Solid.authoringInvariant a'.
Proof.
  intros Ha. unfold Solid.addTriangle. destruct (negb ready); [discriminate |].
  destruct (Solid.getOrCreateID faceName a) as [id a0] eqn:Hid.
  assert (Ha0 : Solid.authoringInvariant a0).
  { unfold Solid.getOrCreateID in Hid.
    destruct (Solid.nameGet faceName (Solid.faceNameToID a)); injection Hid as <- <-;
      exact Ha. }
  pose proof (getPointIndex_invariant p0 a0 Ha0) as H0.
  destruct (Solid.getPointIndex p0 a0) as [i0 a1].
  destruct H0 as (Ha1 & Hi0 & _ & _).
  pose proof (getPointIndex_invariant p1 a1 Ha1) as H1.
  destruct (Solid.getPointIndex p1 a1) as [i1 a2].
  destruct H1 as (Ha2 & Hi1 & Hle1 & _).
  pose proof (getPointIndex_invariant p2 a2 Ha2) as H2.
  destruct (Solid.getPointIndex p2 a2) as [i2 a3].
  destruct H2 as ((Hmod & Htv & Hkeys) & Hi2 & Hle2 & _).
  intros [= <-]. unfold Solid.authoringInvariant, Solid.numVerts in *.
  cbn [Solid.arrays Solid.vertProperties Solid.triVerts Solid.triIDs
       Solid.vertKeyToIndex].
  split; [exact Hmod |]. split; [| exact Hkeys].
  apply List.Forall_app. split; [exact Htv |].
  repeat constructor; lia.
Qed.

Lemma addTriangles_invariant faces : forall a,
  Solid.authoringInvariant a -> Solid.authoringInvariant (Solid.addTriangles faces a).
Proof.
  induction faces as [|[faceName [[p0 p1] p2]] rest IH]; intros a Ha; simpl;
    [exact Ha |].
  destruct (Solid.addTriangle true faceName p0 p1 p2 a) as [a'|e] eqn:Hadd;
    [| exact Ha].
  apply IH. eapply addTriangle_invariant; eassumption.
Qed.

Lemma authored_wellFormed faces :
  Solid.wellFormed (Solid.arrays (Solid.addTriangles faces Solid.empty)).
Proof.
  apply (addTriangles_invariant faces Solid.empty).
  repeat split; constructor.
Qed.

(** ** Winding normaliser: the stated properties *)







(** ** Edge polylines *)

Lemma absBelow_spec x y :
  CADEdge.absBelow x y = true <-> Qabs (x - y) < CADEdge.tolerance.
Proof.
  unfold CADEdge.absBelow.
  destruct (Qlt_le_dec (Qabs (x - y)) CADEdge.tolerance) as [H|H].
  - tauto.
  - split; [discriminate | intros H'; lra].
Qed.

Lemma coincide_spec p q :
  CADEdge.coincide p q = true <-> CADEdge.withinPerAxis p q.
Proof.
  destruct p as [[p0 p1] p2], q as [[q0 q1] q2]. simpl.
  rewrite !andb_true_iff, !absBelow_spec. tauto.
Qed.

Lemma Qabs_below x t : Qabs x < t <-> - t < x /\ x < t.
Proof. apply Qabs_Qlt_condition. Qed.

Lemma square_nonneg x : 0 <= x * x.
Proof. nra. Qed.

Lemma square_below x t : 0 < t -> x * x < t * t -> - t < x /\ x < t.
Proof.
  intros Ht H. split.
  - destruct (Qlt_le_dec (- t) x) as [|Hge]; [assumption | exfalso].
    assert (H1 : 0 <= (- x - t) * (- x + t)) by (apply Qmult_le_0_compat; lra).
    nra.
  - destruct (Qlt_le_dec x t) as [|Hge]; [assumption | exfalso].
    assert (H1 : 0 <= (x - t) * (x + t)) by (apply Qmult_le_0_compat; lra).
    nra.
Qed.

Lemma below_square x t : 0 < t -> - t < x -> x < t -> x * x < t * t.
Proof.
  intros Ht H1 H2.
  assert (H3 : 0 < (t - x) * (t + x)) by (apply Qmult_lt_0_compat; lra).
  nra.
Qed.

(** C8 (as amended).  For every polyline with at least two points the
    closed flag is true exactly when each of the three coordinate
    differences between the first and the last point is below 1e-9 in
    absolute value; ends closer than 1e-9 in Euclidean distance are
    therefore closed, and closed ends are closer than sqrt 3 times 1e-9. *)
Theorem closedLoop_iff_per_axis (positions : list CADEdge.Point)
    (name : string) (index : nat) (fA fB : string) :
  (2 <= length positions)%nat ->
  let first := nth 0 positions (0, 0, 0) in
  let last := nth (length positions - 1) positions (0, 0, 0) in
  let edge := CADEdge.new positions name index fA fB in
  (CADEdge.closedLoop edge = true <-> CADEdge.withinPerAxis first last)
  /\ (CADEdge.sqDist first last < CADEdge.tolerance * CADEdge.tolerance ->
      CADEdge.closedLoop edge = true)
  /\ (CADEdge.closedLoop edge = true ->
      CADEdge.sqDist first last < 3 * (CADEdge.tolerance * CADEdge.tolerance)).
Proof.
  intros Hlen first last edge.
  assert (Hc : CADEdge.closedLoop edge = CADEdge.coincide first last).
  { unfold edge, CADEdge.new. cbn [CADEdge.closedLoop].
    destruct (Nat.leb_spec 2 (length positions)); [reflexivity | lia]. }
  rewrite Hc, coincide_spec. clearbody first last. clear.
  destruct first as [[p0 p1] p2], last as [[q0 q1] q2].
  unfold CADEdge.withinPerAxis, CADEdge.sqDist.
  rewrite !Qabs_below.
  set (t := CADEdge.tolerance).
  assert (Ht : 0 < t) by reflexivity. clearbody t.
  split; [tauto |].
  set (d0 := p0 - q0). set (d1 := p1 - q1). set (d2 := p2 - q2).
  pose proof (square_nonneg d0). pose proof (square_nonneg d1).
  pose proof (square_nonneg d2).
  split.
  - intros Hd. repeat split; apply (square_below _ t Ht); lra.
  - intros ([? ?] & [? ?] & [? ?]).
    pose proof (below_square d0 t Ht). pose proof (below_square d1 t Ht).
    pose proof (below_square d2 t Ht). lra.
Qed.

Lemma closedLoop_iff_per_axis_witness :
  (2 <= length Samples.square)%nat
  /\ CADEdge.closedLoop (CADEdge.new Samples.square "top|side" 0 "top" "side") = true.
Proof.
  assert (Hlen : (2 <= length Samples.square)%nat) by (simpl; lia).
  split; [exact Hlen |].
  apply (closedLoop_iff_per_axis Samples.square "top|side" 0 "top" "side" Hlen).
  vm_compute. repeat split.
Defined.

(** C8, as stated, fails: ends that differ by 9e-10 along each axis are
    flagged closed although their distance, about 1.56e-9, exceeds 1e-9. *)
Lemma closedLoop_beyond_distance :
  let edge := CADEdge.new Samples.nearlyClosed "top|side" 0 "top" "side" in
  (2 <= length Samples.nearlyClosed)%nat
  /\ CADEdge.closedLoop edge = true
  /\ ~ CADEdge.withinDistance
         (nth 0 Samples.nearlyClosed (0, 0, 0))
         (nth (length Samples.nearlyClosed - 1) Samples.nearlyClosed (0, 0, 0)).
Proof.
  split; [simpl; lia |]. split; [vm_compute; reflexivity |].
  vm_compute. intros H. apply H. reflexivity.
Qed.

Local Close Scope Q_scope.

(** ** The geometry computer: every call is a well-behaved step *)

Lemma computing_add_delete (nodeId : string) (C : gset string) :
  nodeId ∉ C -> ({[nodeId]} ∪ C) ∖ {[nodeId]} = C.
Proof.
  intros Hnot. apply set_eq. intros x.
  rewrite elem_of_difference, elem_of_union, !elem_of_singleton. split.
  - intros [[->|Hx] Hne]; [contradiction | exact Hx].
  - intros Hx. split; [right; exact Hx | intros ->; contradiction].
Qed.

Section ComputerFacts.
Import CAD GeometryComputer.
Context (K : Kernel) (nodes : Nodes).

Local Abbreviation geometry := (ComputedGeometry K).
Local Abbreviation shaped g :=
  (dirty K g = false /\ (Shape.success K g \/ Shape.failure K g)).

Lemma createEmptyGeometry_failure msg :
  dirty K (createEmptyGeometry K msg) = false
  /\ Shape.failure K (createEmptyGeometry K msg)
  /\ error K (createEmptyGeometry K msg) = Some msg.
Proof. repeat split; eauto. Qed.

Lemma createEmptyGeometry_shaped msg : shaped (createEmptyGeometry K msg).
Proof. split; [reflexivity | right; apply createEmptyGeometry_failure]. Qed.

Lemma manifoldToGeometry_shaped m g :
  manifoldToGeometry K m = Returned g -> shaped g.
Proof.
  unfold manifoldToGeometry.
  destruct (ManifoldEngine.extractMesh K m) as [mesh|e].
  - destruct (newBufferGeometry K mesh) as [three|e]; [| discriminate].
    intros [= <-]. split; [reflexivity | left]. repeat split; eauto.
  - intros [= <-]. apply createEmptyGeometry_shaped.
Qed.

Lemma computePrimitive_shaped node params :
  shaped (computePrimitive K node params).
Proof.
  unfold computePrimitive.
  destruct (negb (isModuleReady K)); [apply createEmptyGeometry_shaped |].
  destruct (newSolid K node params) as [solid|e]; [| apply createEmptyGeometry_shaped].
  destruct (solidGetManifold K solid) as [m|e]; [| apply createEmptyGeometry_shaped].
  destruct (ManifoldEngine.extractMesh K m) as [mesh|e]; [| apply createEmptyGeometry_shaped].
  destruct (newBufferGeometry K mesh) as [three|e]; [| apply createEmptyGeometry_shaped].
  destruct (solidTopology K solid) as [topo|e]; [| apply createEmptyGeometry_shaped].
  split; [reflexivity | left]. repeat split; eauto.
Qed.

Lemma step_refl (s : State K) : Shape.step K s s.
Proof. split; auto. Qed.

Lemma step_trans (s1 s2 s3 : State K) :
  Shape.step K s1 s2 -> Shape.step K s2 s3 -> Shape.step K s1 s3.
Proof.
  intros [C1 H1 I1 B1] [C2 H2 I2 B2]. split.
  - congruence.
  - intros k g Hg. destruct (H2 k g Hg) as [Hg'|Hw]; [apply H1, Hg' | right; exact Hw].
  - auto.
  - lia.
Qed.

Lemma step_countBoolean (s : State K) : Shape.step K s (countBoolean K s).
Proof. split; simpl; auto. Qed.

Section Methods.
Context (rec : Compute K) (Hrec : Shape.sound K rec).

Lemma computeOperands_step operandIds : forall acc s x s',
  computeOperands K rec operandIds acc s = Some (x, s') ->
  Shape.step K s s' /\ (forall g, x = inl g -> shaped g).
Proof.
  induction operandIds as [|operandId rest IH]; intros acc s x s'; simpl.
  - intros [= <- <-]. split; [apply step_refl | discriminate].
  - destruct (rec operandId s) as [[r s1]|] eqn:Hr; [| discriminate].
    pose proof (Hrec _ _ _ _ Hr) as Hs1.
    assert (Hearly : Some (inl (createEmptyGeometry K
                       ("Failed to compute operand: " +:+ operandId)), s1)
                     = Some (x, s') ->
                     Shape.step K s s' /\ (forall g, x = inl g -> shaped g)).
    { intros [= <- <-]. split; [exact Hs1 |].
      intros g [= <-]. apply createEmptyGeometry_shaped. }
    destruct r as [[[m|] ? ? ? ? ? ?]|e]; try exact Hearly.
    intros H. destruct (IH _ _ _ _ H) as [Hs Hx].
    split; [eapply step_trans; eassumption | exact Hx].
Qed.

Lemma foldBoolean_step op rest : forall result s x s',
  foldBoolean K op result rest s = (x, s') ->
  Shape.step K s s' /\ (forall g, x = inl g -> shaped g).
Proof.
  induction rest as [|operand rest IH]; intros result s x s'; simpl.
  - intros [= <- <-]. split; [apply step_refl | discriminate].
  - destruct (ManifoldEngine.boolean K result operand op) as [v|e].
    + intros H. destruct (IH _ _ _ _ H) as [Hs Hx].
      split; [eapply step_trans; [apply step_countBoolean | exact Hs] | exact Hx].
    + intros [= <- <-]. split; [apply step_countBoolean |].
      intros g [= <-]. apply createEmptyGeometry_shaped.
Qed.

Lemma computeBoolean_step op operandIds s o s' :
  computeBoolean K rec op operandIds s = Some (o, s') ->
  Shape.step K s s' /\ (forall g, o = Returned g -> shaped g).
Proof.
  unfold computeBoolean. destruct (length operandIds <? 2).
  - intros [= <- <-]. split; [apply step_refl |].
    intros g [= <-]. apply createEmptyGeometry_shaped.
  - destruct (computeOperands K rec operandIds [] s) as [[x s1]|] eqn:Hops;
      [| discriminate].
    destruct (computeOperands_step _ _ _ _ _ Hops) as [Hs1 Hx].
    destruct x as [early|[|first rest]].
    + intros [= <- <-]. split; [exact Hs1 |]. intros g [= <-]. apply Hx. reflexivity.
    + intros [= <- <-]. split; [exact Hs1 | discriminate].
    + destruct (foldBoolean K op first rest s1) as [y s2] eqn:Hfold.
      destruct (foldBoolean_step _ _ _ _ _ _ Hfold) as [Hs2 Hy].
      destruct y as [early|result]; intros [= <- <-];
        (split; [eapply step_trans; eassumption |]).
      * intros g [= <-]. apply Hy. reflexivity.
      * intros g Hg. eapply manifoldToGeometry_shaped, Hg.
Qed.

Lemma computeExtrude_step p s o s' :
  computeExtrude K nodes rec p s = Some (o, s') ->
  Shape.step K s s' /\ (forall g, o = Returned g -> shaped g).
Proof.
  unfold computeExtrude.
  assert (Hempty : forall msg, Some (Returned (createEmptyGeometry K msg), s) = Some (o, s') ->
            Shape.step K s s' /\ (forall g, o = Returned g -> shaped g)).
  { intros msg [= <- <-]. split; [apply step_refl |].
    intros g [= <-]. apply createEmptyGeometry_shaped. }
  destruct (nodesGet (sketchId p) nodes) as [[? ? []]|]; try apply Hempty.
  destruct profiles as [|profile profiles]; [apply Hempty |].
  destruct (extrudeProfiles K _ _ _) as [|first rest]; [apply Hempty |].
  destruct (booleanTarget p) as [[op target]|].
  - destruct (rec target s) as [[r s1]|] eqn:Hr; [| discriminate].
    pose proof (Hrec _ _ _ _ Hr) as Hs1.
    destruct r as [[[tm|] ? ? ? ? ? ?]|e].
    + destruct (ManifoldEngine.boolean K tm _ op); intros [= <- <-];
        (split; [eapply step_trans; [exact Hs1 | apply step_countBoolean] |]);
        intros g Hg; eapply manifoldToGeometry_shaped, Hg.
    + intros [= <- <-]. split; [exact Hs1 |].
      intros g Hg; eapply manifoldToGeometry_shaped, Hg.
    + intros [= <- <-]. split; [exact Hs1 |].
      intros g Hg; eapply manifoldToGeometry_shaped, Hg.
  - intros [= <- <-]. split; [apply step_refl |].
    intros g Hg; eapply manifoldToGeometry_shaped, Hg.
Qed.

Lemma computeRevolve_step p s o s' :
  computeRevolve K nodes p s = Some (o, s') ->
  Shape.step K s s' /\ (forall g, o = Returned g -> shaped g).
Proof.
  unfold computeRevolve.
  assert (Hempty : forall msg, Some (Returned (createEmptyGeometry K msg), s) = Some (o, s') ->
            Shape.step K s s' /\ (forall g, o = Returned g -> shaped g)).
  { intros msg [= <- <-]. split; [apply step_refl |].
    intros g [= <-]. apply createEmptyGeometry_shaped. }
  destruct (nodesGet (rev_sketchId p) nodes) as [[? ? []]|]; try apply Hempty.
  destruct profiles as [|profile profiles]; [apply Hempty |].
  destruct (revolveProfiles K _ _) as [|first rest]; [apply Hempty |].
  intros [= <- <-]. split; [apply step_refl |].
  intros g Hg; eapply manifoldToGeometry_shaped, Hg.
Qed.

Lemma dispatch_step node s o s' :
  dispatch K nodes rec node s = Some (o, s') ->
  Shape.step K s s' /\ (forall g, o = Returned g -> shaped g).
Proof.
  unfold dispatch. destruct (body node).
  - intros [= <- <-]. split; [apply step_refl |].
    intros g [= <-]. apply computePrimitive_shaped.
  - apply computeBoolean_step.
  - intros [= <- <-]. split; [apply step_refl |].
    intros g [= <-]. apply createEmptyGeometry_shaped.
  - apply computeExtrude_step.
  - apply computeRevolve_step.
  - intros [= <- <-]. split; [apply step_refl |].
    intros g [= <-]. apply createEmptyGeometry_shaped.
Qed.

End Methods.

Lemma computeBody_sound (rec : Compute K) :
  Shape.sound K rec -> Shape.sound K (computeBody K nodes rec).
Proof.
  intros Hrec nodeId s0 r s'. unfold computeBody.
  set (afterInit := if initialized K s0 then Ok s0 else _).
  assert (Hinit : match afterInit with
                  | Ok s => Shape.step K s0 s
                  | Err _ => True
                  end).
  { unfold afterInit. destruct (initialized K s0); [apply step_refl |].
    destruct (engineInitialize K); [| exact I].
    split; simpl; auto. }
  destruct afterInit as [s|e]; [| intros [= <- <-]; apply step_refl].
  case_bool_decide as Hin; [intros [= <- <-]; exact Hinit |].
  destruct (nodesGet nodeId nodes) as [node|]; [| intros [= <- <-]; exact Hinit].
  destruct (cachedClean K nodeId s) as [cached|]; [intros [= <- <-]; exact Hinit |].
  destruct (dispatch K nodes rec node (computingAdd K nodeId s)) as [[o s1]|] eqn:Hd;
    [| discriminate].
  destruct (dispatch_step rec Hrec _ _ _ _ Hd) as [[C1 H1 I1 B1] Ho].
  intros Hres. eapply step_trans; [exact Hinit |].
  assert (Hfinal : forall g, shaped g ->
            Shape.step K s (computingDelete K nodeId (cacheSet K nodeId g s1))).
  { intros g Hg. split; simpl.
    - rewrite C1. simpl. apply computing_add_delete, Hin.
    - intros k g'. destruct (decide (nodeId = k)) as [->|Hne].
      + rewrite lookup_insert_eq. intros [= <-]. right. exact Hg.
      + rewrite lookup_insert_ne by exact Hne. intros Hk.
        destruct (H1 k g' Hk) as [Hk'|Hw]; [left; exact Hk' | right; exact Hw].
    - exact I1.
    - exact B1. }
  destruct o as [g|e]; injection Hres as <- <-; apply Hfinal.
  - apply Ho. reflexivity.
  - apply createEmptyGeometry_shaped.
Qed.

Lemma compute_sound fuel : Shape.sound K (compute K nodes fuel).
Proof.
  induction fuel as [|fuel IH]; [intros ? ? ? ? [=] |].
  simpl. apply computeBody_sound, IH.
Qed.

End ComputerFacts.

(** ** The geometry computer: the nesting of calls is bounded

    A nested call is only entered for a node of the document that is not
    being computed, and that node is being computed for as long as the
    nested call lasts. *)
Section ComputerTermination.
Import CAD GeometryComputer.
Context (K : Kernel) (nodes : Nodes).

Lemma nodesGet_In nodeId node :
  nodesGet nodeId nodes = Some node -> In (nodeId, node) nodes.
Proof.
  induction nodes as [|[k n] rest IH]; simpl; [discriminate |].
  destruct (String.eqb k nodeId) eqn:E.
  - apply String.eqb_eq in E. intros [= ->]. left. congruence.
  - intros H. right. apply IH, H.
Qed.

Lemma idle_same (s s' : State K) :
  computing K s' = computing K s -> Shape.idle K nodes s' = Shape.idle K nodes s.
Proof. unfold Shape.idle. intros ->. reflexivity. Qed.

Lemma idle_computingAdd nodeId node (s : State K) :
  In (nodeId, node) nodes -> nodeId ∉ computing K s ->
  Shape.idle K nodes (computingAdd K nodeId s) < Shape.idle K nodes s.
Proof.
  unfold Shape.idle. simpl. intros Hin Hnot.
  induction nodes as [|[k n] rest IH]; [destruct Hin |].
  assert (Hle : forall l : Nodes,
            length (List.filter (fun e => bool_decide (e.1 ∉ {[nodeId]} ∪ computing K s)) l)
            <= length (List.filter (fun e => bool_decide (e.1 ∉ computing K s)) l)).
  { induction l as [|[k' n'] l IHl]; simpl; [lia |].
    repeat case_bool_decide; simpl; try lia.
    exfalso. set_unfold. tauto. }
  simpl. destruct Hin as [Heq|Hin].
  - injection Heq as -> ->.
    rewrite (bool_decide_eq_true_2 (nodeId ∉ computing K s)) by exact Hnot.
    rewrite bool_decide_eq_false_2 by (set_unfold; tauto).
    simpl. specialize (Hle rest). lia.
  - specialize (IH Hin). repeat case_bool_decide; simpl; try lia.
    exfalso. set_unfold. tauto.
Qed.

Section Methods.
Context (rec : Compute K) (Hrec : Shape.sound K rec) (C : gset string).
Hypothesis Htotal : forall nodeId s, computing K s = C -> is_Some (rec nodeId s).

Lemma computeOperands_total operandIds : forall acc s,
  computing K s = C -> is_Some (computeOperands K rec operandIds acc s).
Proof.
  induction operandIds as [|operandId rest IH]; intros acc s HC; simpl; [eauto |].
  destruct (Htotal operandId s HC) as [[r s1] Hr]. rewrite Hr.
  assert (HC1 : computing K s1 = C).
  { rewrite (Shape.step_computing K _ _ (Hrec _ _ _ _ Hr)). exact HC. }
  destruct r as [[[m|] ? ? ? ? ? ?]|e]; eauto.
Qed.

Lemma dispatch_total node s :
  computing K s = C -> is_Some (dispatch K nodes rec node s).
Proof.
  intros HC. unfold dispatch. destruct (body node); eauto.
  - unfold computeBoolean. destruct (length operandIds <? 2); [eauto |].
    destruct (computeOperands_total operandIds [] s HC) as [[x s1] ->].
    destruct x as [early|[|first rest]]; eauto.
    destruct (foldBoolean K op first rest s1) as [[early|result] s2]; eauto.
  - unfold computeExtrude.
    destruct (nodesGet (sketchId params) nodes) as [[? ? []]|]; eauto.
    destruct profiles; eauto.
    destruct (extrudeProfiles K _ _ _); eauto.
    destruct (booleanTarget params) as [[op target]|]; eauto.
    destruct (Htotal target s HC) as [[r s1] ->].
    destruct r as [[[tm|] ? ? ? ? ? ?]|e]; eauto.
    destruct (ManifoldEngine.boolean K tm _ op); eauto.
  - unfold computeRevolve.
    destruct (nodesGet (rev_sketchId params) nodes) as [[? ? []]|]; eauto.
    destruct profiles; eauto.
    destruct (revolveProfiles K _ _); eauto.
Qed.

End Methods.

(** A budget above the number of idle nodes is never used up. *)
Lemma compute_total fuel : forall nodeId s,
  Shape.idle K nodes s < fuel -> is_Some (compute K nodes fuel nodeId s).
Proof.
  induction fuel as [|fuel IH]; intros nodeId s0 Hfuel; [lia |].
  simpl. unfold computeBody.
  set (afterInit := if initialized K s0 then Ok s0 else _).
  assert (Hinit : match afterInit with
                  | Ok s => computing K s = computing K s0
                  | Err _ => True
                  end).
  { unfold afterInit. destruct (initialized K s0); [reflexivity |].
    destruct (engineInitialize K); [reflexivity | exact I]. }
  destruct afterInit as [s|e]; [| eauto].
  case_bool_decide as Hin; [eauto |].
  destruct (nodesGet nodeId nodes) as [node|] eqn:Hnode; [| eauto].
  destruct (cachedClean K nodeId s) as [cached|]; [eauto |].
  destruct (dispatch_total (compute K nodes fuel) (compute_sound K nodes fuel)
              (computing K (computingAdd K nodeId s))) with (node := node)
              (s := computingAdd K nodeId s) as [[o s1] ->].
  - intros nodeId' s' HC. apply IH.
    rewrite (idle_same (computingAdd K nodeId s) s' HC).
    pose proof (idle_computingAdd nodeId node s (nodesGet_In _ _ Hnode) Hin) as Hlt.
    rewrite (idle_same s0 s Hinit) in Hlt. lia.
  - reflexivity.
  - destruct o; eauto.
Qed.

Lemma idle_le_length (s : State K) : Shape.idle K nodes s <= length nodes.
Proof. unfold Shape.idle. apply List.filter_length_le. Qed.

End ComputerTermination.

(** ** The geometry computer: the stated properties *)

(** C5.  A [compute] of a node that is being computed (the computer is
    then initialised) returns the error "Already computing this node" at
    once: one level of the model's budget is enough, no nested call is made,
    and the state, with the cache and the set of nodes in progress, is left
    exactly as it was. *)
Theorem reentrant_compute_fails_fast (K : Kernel) (nodes : CAD.Nodes)
    (fuel : nat) (nodeId : string) (s : GeometryComputer.State K) :
  GeometryComputer.initialized K s = true ->
  nodeId ∈ GeometryComputer.computing K s ->
  GeometryComputer.compute K nodes (S fuel) nodeId s
  = Some (Err "Already computing this node", s).
Proof.
  intros Hinit Hin. simpl. unfold GeometryComputer.computeBody.
  rewrite Hinit. rewrite bool_decide_eq_true_2 by exact Hin. reflexivity.
Qed.

Lemma reentrant_compute_fails_fast_witness :
  GeometryComputer.compute Fixtures.boxKernel Fixtures.document 1 "self"
    (States.busyWith Fixtures.boxKernel "self")
  = Some (Err "Already computing this node", States.busyWith Fixtures.boxKernel "self").
Proof.
  apply (reentrant_compute_fails_fast Fixtures.boxKernel Fixtures.document 0 "self").
  - reflexivity.
  - apply elem_of_singleton. reflexivity.
Defined.

(** The guard at work: a boolean that lists itself as an operand is cut
    short at the nested call, and nothing stays in progress. *)
Example self_reference_is_cut_short :
  exists s',
    GeometryComputer.compute Fixtures.boxKernel Fixtures.document 3 "self"
      (States.fresh Fixtures.boxKernel)
    = Some (Ok (GeometryComputer.createEmptyGeometry Fixtures.boxKernel
                  "Failed to compute operand: self"), s')
    /\ GeometryComputer.computing Fixtures.boxKernel s' = ∅.
Proof. eexists. split; vm_compute; reflexivity. Qed.

(** C10 (as amended).  Every [compute] that returns leaves the set of nodes
    in progress as it found it; so a call that got past the reentrancy
    guard (its node was not in progress) returns with its node out of the
    set, and the guard of a later call for that node does not fire.  And
    every [compute] does return: a budget above the number of idle nodes of
    the document is never used up. *)
Theorem compute_restores_computing (K : Kernel) (nodes : CAD.Nodes)
    (nodeId : string) (s : GeometryComputer.State K) :
  (forall fuel r s',
     GeometryComputer.compute K nodes fuel nodeId s = Some (r, s') ->
     GeometryComputer.computing K s' = GeometryComputer.computing K s
     /\ (nodeId ∉ GeometryComputer.computing K s ->
         (nodeId ∉ GeometryComputer.computing K s')
         /\ bool_decide (nodeId ∈ GeometryComputer.computing K s') = false))
  /\ (forall fuel, Shape.idle K nodes s < fuel ->
      exists r s', GeometryComputer.compute K nodes fuel nodeId s = Some (r, s'))
  /\ exists r s',
       GeometryComputer.compute K nodes (S (length nodes)) nodeId s = Some (r, s').
Proof.
  assert (Htotal : forall fuel, Shape.idle K nodes s < fuel ->
            exists r s', GeometryComputer.compute K nodes fuel nodeId s = Some (r, s')).
  { intros fuel Hfuel.
    destruct (compute_total K nodes fuel nodeId s Hfuel) as [[r s'] H]. eauto. }
  split; [| split; [exact Htotal |]].
  - intros fuel r s' H.
    pose proof (Shape.step_computing K _ _ (compute_sound K nodes fuel _ _ _ _ H)) as HC.
    split; [exact HC |]. intros Hnot. rewrite HC.
    split; [exact Hnot | apply bool_decide_eq_false_2, Hnot].
  - apply Htotal. pose proof (idle_le_length K nodes s). lia.
Qed.

Lemma compute_restores_computing_witness :
  exists r s',
    GeometryComputer.compute Fixtures.boxKernel Fixtures.document 13 "cut"
      (States.fresh Fixtures.boxKernel) = Some (r, s')
    /\ GeometryComputer.computing Fixtures.boxKernel s' = ∅.
Proof.
  destruct (compute_restores_computing Fixtures.boxKernel Fixtures.document
              "cut" (States.fresh Fixtures.boxKernel)) as (Hkeep & Hreturns & _).
  destruct (Hreturns 13) as (r & s' & Hrun); [vm_compute; lia |].
  exists r, s'. split; [exact Hrun |].
  apply (Hkeep 13 r s' Hrun).
Defined.

(** C10, as stated, fails for a call that the reentrancy guard rejects: it
    returns an error result and its node is still in the set. *)
Lemma rejected_compute_keeps_node_computing :
  exists r s',
    GeometryComputer.compute Fixtures.boxKernel Fixtures.document 1 "box1"
      (States.busyWith Fixtures.boxKernel "box1") = Some (r, s')
    /\ "box1" ∈ GeometryComputer.computing Fixtures.boxKernel s'.
Proof.
  eexists _, _. split; [reflexivity |].
  apply elem_of_singleton. reflexivity.
Qed.

(** C1 (as amended).  A [compute] that gets past the guards and finds no
    clean entry returns and overwrites the entry of its node; the stored
    entry has [dirty = false] whether the computation succeeded or failed.
    On success its error is null and it is the value returned; on failure
    all its geometry fields are null and its error holds the message.  The
    same holds of every entry a nested call stores. *)
Theorem compute_stores_clean_entry (K : Kernel) (nodes : CAD.Nodes)
    (nodeId : string) (node : CAD.CADNode) (s : GeometryComputer.State K)
    (fuel : nat) :
  GeometryComputer.initialized K s = true ->
  nodeId ∉ GeometryComputer.computing K s ->
  CAD.nodesGet nodeId nodes = Some node ->
  GeometryComputer.cachedClean K nodeId s = None ->
  Shape.idle K nodes s < fuel ->
  exists r s' g,
    GeometryComputer.compute K nodes fuel nodeId s = Some (r, s')
    /\ GeometryComputer.cache K s' !! nodeId = Some g
    /\ GeometryComputer.dirty K g = false
    /\ ((r = Ok g /\ Shape.success K g)
        \/ (Shape.failure K g
            /\ (r = Ok g
                \/ exists e, r = Err e
                     /\ GeometryComputer.error K g = Some ("Computation error: " +:+ e))))
    /\ (forall k g', GeometryComputer.cache K s' !! k = Some g' ->
          GeometryComputer.cache K s !! k = Some g'
          \/ (GeometryComputer.dirty K g' = false
              /\ (Shape.success K g' \/ Shape.failure K g'))).
Proof.
  intros Hinit Hnot Hnode Hclean Hfuel.
  destruct (compute_total K nodes fuel nodeId s Hfuel) as [[r s'] Hrun].
  exists r, s'.
  pose proof (Shape.step_cache K _ _ (compute_sound K nodes fuel _ _ _ _ Hrun)) as Hall.
  destruct fuel as [|fuel]; [discriminate |].
  pose proof Hrun as Hrun0.
  simpl in Hrun. unfold GeometryComputer.computeBody in Hrun.
  rewrite Hinit, Hnode, Hclean in Hrun.
  rewrite bool_decide_eq_false_2 in Hrun by exact Hnot.
  destruct (GeometryComputer.dispatch K nodes _ node _) as [[o s1]|] eqn:Hd;
    [| discriminate].
  destruct (dispatch_step K nodes _ (compute_sound K nodes fuel) _ _ _ _ Hd)
    as [_ Ho].
  destruct o as [g|e]; injection Hrun as <- <-.
  - exists g. split; [exact Hrun0 |]. simpl. rewrite lookup_insert_eq.
    destruct (Ho g eq_refl) as [Hd' Hshape].
    split; [reflexivity |]. split; [exact Hd' |]. split; [| exact Hall].
    destruct Hshape as [Hs|Hf]; [left | right]; auto.
  - eexists. split; [exact Hrun0 |]. simpl. rewrite lookup_insert_eq.
    split; [reflexivity |]. split; [reflexivity |].
    split; [| exact Hall]. right.
    split; [apply createEmptyGeometry_failure |]. right. eauto.
Qed.

Lemma compute_stores_clean_entry_witness :
  exists r s' g,
    GeometryComputer.compute Fixtures.boxKernel Fixtures.document 13 "outer"
      (States.fresh Fixtures.boxKernel) = Some (r, s')
    /\ GeometryComputer.cache Fixtures.boxKernel s' !! "outer" = Some g
    /\ GeometryComputer.dirty Fixtures.boxKernel g = false.
Proof.
  destruct (compute_stores_clean_entry Fixtures.boxKernel Fixtures.document
              "outer" (snd (Fixtures.node "outer"
                              (CAD.Boolean CAD.OpIntersection ["cut"; "box1"])))
              (States.fresh Fixtures.boxKernel) 13)
    as (r & s' & g & Hrun & Hg & Hd & _).
  - reflexivity.
  - apply not_elem_of_empty.
  - reflexivity.
  - reflexivity.
  - vm_compute. lia.
  - exists r, s', g. auto.
Defined.

(** C1, as stated, fails: recomputing a boolean with a single operand
    fails, and the entry stored over the stale one has [dirty = false]
    together with the error message. *)
Lemma failed_compute_clears_dirty :
  let K := Fixtures.boxKernel in
  exists g0 r s' g,
    GeometryComputer.cache K (States.staleAt K "lonely") !! "lonely" = Some g0
    /\ GeometryComputer.dirty K g0 = true
    /\ GeometryComputer.compute K Fixtures.document 2 "lonely"
         (States.staleAt K "lonely") = Some (r, s')
    /\ GeometryComputer.cache K s' !! "lonely" = Some g
    /\ GeometryComputer.manifold K g = None
    /\ GeometryComputer.error K g = Some "Boolean requires at least 2 operands"
    /\ GeometryComputer.dirty K g = false.
Proof.
  eexists _, _, _, _. repeat split; vm_compute; reflexivity.
Qed.

(** *** Boolean operands *)

Lemma computeOperands_first_failure (K : Kernel) (rec : GeometryComputer.Compute K)
    pre s ms s1 :
  Shape.operandsComputed K rec pre s ms s1 ->
  forall acc bad post r s2,
    rec bad s1 = Some (r, s2) -> Shape.operandFailed K r ->
    GeometryComputer.computeOperands K rec (pre ++ bad :: post) acc s
    = Some (inl (GeometryComputer.createEmptyGeometry K
                   ("Failed to compute operand: " +:+ bad)), s2).
Proof.
  induction 1 as [s|operandId rest s g m s1 ms s2 Hrun Hm _ IH];
    intros acc bad post r s3 Hbad Hfail; simpl.
  - rewrite Hbad. destruct r as [[[m|] ? ? ? ? ? ?]|e]; simpl in Hfail;
      [discriminate | reflexivity | reflexivity].
  - rewrite Hrun. destruct g as [gm ? ? ? ? ? ?]. simpl in Hm. subst gm.
    eapply IH; eassumption.
Qed.

(** C6 (as amended).  For every boolean node with at least two operands:
    when the operands before [bad] are computed in list order, each with a
    manifold, and the computation of [bad] then fails (an error result, or
    a geometry without manifold), [computeBoolean] returns the empty
    geometry with the error "Failed to compute operand: " followed by
    [bad], in the state the computation of [bad] left: the operands after
    [bad] are not computed and [manifoldEngine.boolean] is not called.  The
    enclosing [compute] stores and returns that geometry. *)
Theorem boolean_aborts_on_first_failing_operand (K : Kernel) (nodes : CAD.Nodes)
    (fuel : nat) (op : CAD.BooleanOperation) (pre : list string) (bad : string)
    (post : list string) (s s1 s2 : GeometryComputer.State K)
    (ms : list (Manifold K)) (r : Result (GeometryComputer.ComputedGeometry K)) :
  let rec := GeometryComputer.compute K nodes fuel in
  let failed := GeometryComputer.createEmptyGeometry K
                  ("Failed to compute operand: " +:+ bad) in
  2 <= length (pre ++ bad :: post) ->
  Shape.operandsComputed K rec pre s ms s1 ->
  rec bad s1 = Some (r, s2) ->
  Shape.operandFailed K r ->
  GeometryComputer.computeBoolean K rec op (pre ++ bad :: post) s
  = Some (Returned failed, s2)
  /\ (forall nodeId node s0,
        CAD.nodesGet nodeId nodes = Some node ->
        CAD.body node = CAD.Boolean op (pre ++ bad :: post) ->
        GeometryComputer.initialized K s0 = true ->
        nodeId ∉ GeometryComputer.computing K s0 ->
        GeometryComputer.cachedClean K nodeId s0 = None ->
        s = GeometryComputer.computingAdd K nodeId s0 ->
        GeometryComputer.compute K nodes (S fuel) nodeId s0
        = Some (Ok failed,
                GeometryComputer.computingDelete K nodeId
                  (GeometryComputer.cacheSet K nodeId failed s2))).
Proof.
  intros rec failed Hlen Hpre Hbad Hfail.
  assert (Hb : GeometryComputer.computeBoolean K rec op (pre ++ bad :: post) s
               = Some (Returned failed, s2)).
  { unfold GeometryComputer.computeBoolean.
    destruct (Nat.ltb_spec (length (pre ++ bad :: post)) 2) as [Hlt|_]; [lia |].
    rewrite (computeOperands_first_failure K rec pre s ms s1 Hpre [] bad post r s2 Hbad Hfail).
    reflexivity. }
  split; [exact Hb |].
  intros nodeId node s0 Hnode Hbody Hinit Hnot Hclean ->.
  simpl. unfold GeometryComputer.computeBody.
  rewrite Hinit, Hnode, Hclean.
  rewrite bool_decide_eq_false_2 by exact Hnot.
  unfold GeometryComputer.dispatch. rewrite Hbody.
  fold rec. rewrite Hb. reflexivity.
Qed.

Lemma boolean_aborts_on_first_failing_operand_witness :
  let K := Fixtures.boxKernel in
  exists s2,
    GeometryComputer.computeBoolean K
      (GeometryComputer.compute K Fixtures.document 3)
      CAD.OpDifference (["box1"] ++ "missing" :: ["symmetric10"])
      (States.fresh K)
    = Some (Returned (GeometryComputer.createEmptyGeometry K
                        "Failed to compute operand: missing"), s2)
    /\ GeometryComputer.booleanCalls K s2 = 0.
Proof.
  intros K. eexists. split.
  - eapply (boolean_aborts_on_first_failing_operand K Fixtures.document 3
              CAD.OpDifference ["box1"] "missing" ["symmetric10"]).
    + simpl. lia.
    + eapply Shape.computed_cons; [vm_compute; reflexivity | reflexivity |].
      apply Shape.computed_nil.
    + vm_compute. reflexivity.
    + exact I.
  - reflexivity.
Defined.

(** C6, as stated, fails for a boolean with fewer than two operands: the
    only operand of the node would fail, yet it is not computed and the
    error of the node does not name it. *)
Lemma single_operand_boolean_is_rejected_unnamed :
  (exists r s',
     GeometryComputer.compute Fixtures.boxKernel Fixtures.document 3 "missing"
       (States.fresh Fixtures.boxKernel) = Some (r, s')
     /\ Shape.operandFailed Fixtures.boxKernel r)
  /\ GeometryComputer.computeBoolean Fixtures.boxKernel
       (GeometryComputer.compute Fixtures.boxKernel Fixtures.document 3)
       CAD.OpUnion ["missing"] (States.fresh Fixtures.boxKernel)
     = Some (Returned (GeometryComputer.createEmptyGeometry Fixtures.boxKernel
                         "Boolean requires at least 2 operands"),
             States.fresh Fixtures.boxKernel)
  /\ GeometryComputer.createEmptyGeometry Fixtures.boxKernel
       "Boolean requires at least 2 operands"
     <> GeometryComputer.createEmptyGeometry Fixtures.boxKernel
          "Failed to compute operand: missing".
Proof.
  split; [| split].
  - exists (Err "Node not found: missing"), (States.fresh Fixtures.boxKernel).
    split; [reflexivity | exact I].
  - reflexivity.
  - discriminate.
Qed.

(** *** Profiles that the kernel rejects *)
Section Profiles.
Import CAD GeometryComputer.
Context (K : Kernel).

Lemma manifoldToGeometry_error m g msg :
  manifoldToGeometry K m = Returned g -> error K g = Some msg ->
  msg = ManifoldEngine.notInitialized
  \/ exists e, msg = "Mesh extraction failed: " +:+ e.
Proof.
  unfold manifoldToGeometry, ManifoldEngine.extractMesh.
  destruct (negb (isReady K)).
  - intros [= <-] [= <-]. left. reflexivity.
  - destruct (k_getMesh K m) as [mesh|e]; simpl.
    + destruct (newBufferGeometry K mesh); [| discriminate].
      intros [= <-]. discriminate.
    + intros [= <-] [= <-]. right. eauto.
Qed.

Lemma manifoldToGeometry_not_failed m msg :
  msg = "Extrusion failed" \/ msg = "Revolution failed" ->
  manifoldToGeometry K m <> Returned (createEmptyGeometry K msg).
Proof.
  intros Hmsg H.
  destruct (manifoldToGeometry_error m _ msg H eq_refl) as [->|[e ->]];
    destruct Hmsg as [Hm|Hm]; discriminate Hm.
Qed.

Lemma extrudeProfile_None direction distance profile :
  extrudeProfile K direction distance profile = None
  <-> isOk (ManifoldEngine.extrude K profile (fst (extrudeDims direction distance))) = false.
Proof.
  unfold extrudeProfile. destruct (extrudeDims direction distance) as [height offsetZ].
  simpl. destruct (ManifoldEngine.extrude K profile height) as [solid|e]; simpl.
  - destruct (negb (Qeq_bool offsetZ 0)).
    + destruct (ManifoldEngine.translate K solid _); split; discriminate.
    + split; discriminate.
  - tauto.
Qed.

Lemma extrudeProfiles_nil direction distance profiles :
  extrudeProfiles K direction distance profiles = []
  <-> List.Forall (fun profile =>
        isOk (ManifoldEngine.extrude K profile (fst (extrudeDims direction distance)))
        = false) profiles.
Proof.
  induction profiles as [|profile rest IH]; simpl.
  - split; [constructor | reflexivity].
  - pose proof (extrudeProfile_None direction distance profile) as Hp.
    destruct (extrudeProfile K direction distance profile) as [solid|].
    + split; [discriminate |]. intros H. inversion H as [|? ? H1 _]; subst.
      apply Hp in H1. discriminate.
    + rewrite IH. split.
      * intros H. constructor; [apply Hp; reflexivity | exact H].
      * intros H. inversion H; assumption.
Qed.

Lemma revolveProfiles_nil angle profiles :
  revolveProfiles K angle profiles = []
  <-> List.Forall (fun profile =>
        isOk (ManifoldEngine.revolve K profile angle) = false) profiles.
Proof.
  induction profiles as [|profile rest IH]; simpl.
  - split; [constructor | reflexivity].
  - destruct (ManifoldEngine.revolve K profile angle) as [solid|e] eqn:Hr.
    + split; [discriminate |]. intros H. inversion H as [|? ? H1 _]; subst.
      rewrite Hr in H1. discriminate.
    + rewrite IH. split.
      * intros H. constructor; [rewrite Hr; reflexivity | exact H].
      * intros H. inversion H; assumption.
Qed.

Lemma unionAll_all_fail first rest :
  List.Forall (fun next => forall acc, isOk (ManifoldEngine.union K acc next) = false) rest ->
  unionAll K first rest = first.
Proof.
  induction 1 as [|next rest Hnext _ IH]; simpl; [reflexivity |].
  specialize (Hnext first).
  destruct (ManifoldEngine.union K first next); [discriminate | exact IH].
Qed.

End Profiles.

(** C9.  In [computeExtrude] and [computeRevolve] a profile whose kernel
    call fails is skipped: no solid is collected exactly when every profile
    fails, and the node answers "Extrusion failed" / "Revolution failed"
    exactly then.  A failed translation keeps the untranslated prism, and a
    failed union keeps the accumulator it had before that profile; if all
    unions fail the result is the first collected solid. *)
Theorem failing_profiles_are_skipped (K : Kernel) (nodes : CAD.Nodes)
    (rec : GeometryComputer.Compute K) :
  let extrudeFails direction distance profile :=
    isOk (ManifoldEngine.extrude K profile
            (fst (GeometryComputer.extrudeDims direction distance))) = false in
  let revolveFails angle profile :=
    isOk (ManifoldEngine.revolve K profile angle) = false in
  (forall p s node profile profiles,
     CAD.nodesGet (CAD.sketchId p) nodes = Some node ->
     CAD.body node = CAD.Sketch (profile :: profiles) ->
     (GeometryComputer.extrudeProfiles K (CAD.direction p) (CAD.distance p)
        (profile :: profiles) = []
      <-> List.Forall (extrudeFails (CAD.direction p) (CAD.distance p))
            (profile :: profiles))
     /\ ((exists s', GeometryComputer.computeExtrude K nodes rec p s
                     = Some (Returned (GeometryComputer.createEmptyGeometry K
                                         "Extrusion failed"), s'))
         <-> List.Forall (extrudeFails (CAD.direction p) (CAD.distance p))
               (profile :: profiles)))
  /\ (forall p s node profile profiles,
        CAD.nodesGet (CAD.rev_sketchId p) nodes = Some node ->
        CAD.body node = CAD.Sketch (profile :: profiles) ->
        (GeometryComputer.revolveProfiles K (CAD.angle p) (profile :: profiles) = []
         <-> List.Forall (revolveFails (CAD.angle p)) (profile :: profiles))
        /\ ((exists s', GeometryComputer.computeRevolve K nodes p s
                        = Some (Returned (GeometryComputer.createEmptyGeometry K
                                            "Revolution failed"), s'))
            <-> List.Forall (revolveFails (CAD.angle p)) (profile :: profiles)))
  /\ (forall direction distance profile solid e,
        ManifoldEngine.extrude K profile
          (fst (GeometryComputer.extrudeDims direction distance)) = Ok solid ->
        ManifoldEngine.translate K solid
          (CAD.mkPoint3D 0 0 (snd (GeometryComputer.extrudeDims direction distance)))
        = Err e ->
        GeometryComputer.extrudeProfile K direction distance profile = Some solid)
  /\ (forall result next rest e,
        ManifoldEngine.union K result next = Err e ->
        GeometryComputer.unionAll K result (next :: rest)
        = GeometryComputer.unionAll K result rest)
  /\ (forall first rest,
        List.Forall (fun next => forall acc,
                       isOk (ManifoldEngine.union K acc next) = false) rest ->
        GeometryComputer.unionAll K first rest = first).
Proof.
  intros extrudeFails revolveFails.
  split; [| split; [| split; [| split]]].
  - intros p s node profile profiles Hnode Hbody.
    pose proof (extrudeProfiles_nil K (CAD.direction p) (CAD.distance p)
                  (profile :: profiles)) as Hnil.
    split; [exact Hnil |].
    unfold GeometryComputer.computeExtrude. rewrite Hnode.
    destruct node as [? ? b]. simpl in Hbody. subst b.
    destruct (GeometryComputer.extrudeProfiles K _ _ (profile :: profiles))
      as [|first rest].
    + split; [intros _; apply Hnil; reflexivity | eauto].
    + split; [| intros H; apply Hnil in H; discriminate].
      intros [s' H]. exfalso.
      assert (Hno : forall m st,
                Some (GeometryComputer.manifoldToGeometry K m, st)
                <> Some (Returned (GeometryComputer.createEmptyGeometry K
                                     "Extrusion failed"), s')).
      { intros m st [= Hm _]. revert Hm. apply manifoldToGeometry_not_failed. auto. }
      destruct (GeometryComputer.booleanTarget p) as [[op target]|];
        [| exact (Hno _ _ H)].
      destruct (rec target s) as [[r s1]|]; [| discriminate].
      destruct r as [[[tm|] ? ? ? ? ? ?]|e]; try exact (Hno _ _ H).
      destruct (ManifoldEngine.boolean K tm _ op); exact (Hno _ _ H).
  - intros p s node profile profiles Hnode Hbody.
    pose proof (revolveProfiles_nil K (CAD.angle p) (profile :: profiles)) as Hnil.
    split; [exact Hnil |].
    unfold GeometryComputer.computeRevolve. rewrite Hnode.
    destruct node as [? ? b]. simpl in Hbody. subst b.
    destruct (GeometryComputer.revolveProfiles K _ (profile :: profiles))
      as [|first rest].
    + split; [intros _; apply Hnil; reflexivity | eauto].
    + split; [| intros H; apply Hnil in H; discriminate].
      intros [s' [= Hm _]]. exfalso. revert Hm.
      apply manifoldToGeometry_not_failed. auto.
  - intros direction distance profile solid e Hext Htr.
    unfold GeometryComputer.extrudeProfile.
    destruct (GeometryComputer.extrudeDims direction distance) as [height offsetZ].
    simpl in *. rewrite Hext, Htr. destruct (negb (Qeq_bool offsetZ 0)); reflexivity.
  - intros result next rest e Hu. simpl. rewrite Hu. reflexivity.
  - apply unionAll_all_fail.
Qed.

Lemma failing_profiles_are_skipped_witness :
  exists s',
    GeometryComputer.computeExtrude Fixtures.boxKernel Fixtures.document
      (GeometryComputer.compute Fixtures.boxKernel Fixtures.document 0)
      (CAD.mkExtrudeParams "sketch3" 4 CAD.DirBoth 0 CAD.OpNew None)
      (States.fresh Fixtures.boxKernel)
    = Some (Returned (GeometryComputer.createEmptyGeometry Fixtures.boxKernel
                        "Extrusion failed"), s').
Proof.
  destruct (failing_profiles_are_skipped Fixtures.boxKernel Fixtures.document
              (GeometryComputer.compute Fixtures.boxKernel Fixtures.document 0))
    as (Hextrude & _).
  destruct (Hextrude (CAD.mkExtrudeParams "sketch3" 4 CAD.DirBoth 0 CAD.OpNew None)
              (States.fresh Fixtures.boxKernel)
              (snd (Fixtures.node "sketch3" (CAD.Sketch [Fixtures.brokenProfile])))
              Fixtures.brokenProfile [] eq_refl eq_refl) as [_ [_ Hall]].
  apply Hall. constructor; [reflexivity | constructor].
Defined.

(** *** Extrusion direction *)

Lemma extrudeDims_spec (distance : Q) :
  GeometryComputer.extrudeDims CAD.DirNormal distance = (distance, 0%Q)
  /\ (fst (GeometryComputer.extrudeDims CAD.DirBoth distance) == 2 * distance)%Q
  /\ (snd (GeometryComputer.extrudeDims CAD.DirBoth distance) == - distance)%Q
  /\ fst (GeometryComputer.extrudeDims CAD.DirSymmetric distance) = distance
  /\ (snd (GeometryComputer.extrudeDims CAD.DirSymmetric distance) == - (distance / 2))%Q.
Proof.
  simpl. repeat split; try reflexivity.
  - ring.
  - field.
Qed.

(** C3.  The prism height and the offset along the axis are
    [(distance, 0)] for 'normal', [(2 * distance, - distance)] for 'both'
    and [(distance, - distance / 2)] for 'symmetric'.  With a kernel whose
    prisms stand on the sketch plane and whose translations move the
    bounding box along, an extrude of a one-profile sketch whose kernel
    calls succeed yields bounds that span [- distance / 2, distance / 2]
    for 'symmetric' and [- distance, distance] for 'both' along the axis:
    [-5, 5] and [-10, 10] for a distance of 10. *)
Theorem extrude_direction_dims_and_span (K : Kernel) (nodes : CAD.Nodes)
    (rec : GeometryComputer.Compute K) (p : CAD.ExtrudeParams)
    (s : GeometryComputer.State K) (sketch : CAD.CADNode) (profile : CAD.Profile)
    (m m' : Manifold K) (mesh : MeshData K) (three : BufferGeometry K) :
  let dims := GeometryComputer.extrudeDims (CAD.direction p) (CAD.distance p) in
  Shape.PrismLaws K ->
  isReady K = true -> hasCrossSection K = true ->
  (0 < CAD.distance p)%Q ->
  CAD.direction p <> CAD.DirNormal ->
  CAD.booleanOp p = CAD.OpNew ->
  CAD.nodesGet (CAD.sketchId p) nodes = Some sketch ->
  CAD.body sketch = CAD.Sketch [profile] ->
  k_extrude K profile (fst dims) = Returned m ->
  k_translate K m (CAD.mkPoint3D 0 0 (snd dims)) = Returned m' ->
  k_getMesh K m' = Returned mesh ->
  newBufferGeometry K mesh = Returned three ->
  (forall distance,
     GeometryComputer.extrudeDims CAD.DirNormal distance = (distance, 0%Q)
     /\ (fst (GeometryComputer.extrudeDims CAD.DirBoth distance) == 2 * distance)%Q
     /\ (snd (GeometryComputer.extrudeDims CAD.DirBoth distance) == - distance)%Q
     /\ fst (GeometryComputer.extrudeDims CAD.DirSymmetric distance) = distance
     /\ (snd (GeometryComputer.extrudeDims CAD.DirSymmetric distance)
         == - (distance / 2))%Q)
  /\ exists g b,
       GeometryComputer.computeExtrude K nodes rec p s = Some (Returned g, s)
       /\ GeometryComputer.manifold K g = Some m'
       /\ GeometryComputer.bounds K g = Some b
       /\ match CAD.direction p with
          | CAD.DirSymmetric =>
              (CAD.pz (CAD.bmin b) == - (CAD.distance p / 2)
               /\ CAD.pz (CAD.bmax b) == CAD.distance p / 2)%Q
              /\ (CAD.distance p == 10 ->
                  CAD.pz (CAD.bmin b) == - 5 /\ CAD.pz (CAD.bmax b) == 5)%Q
          | CAD.DirBoth =>
              (CAD.pz (CAD.bmin b) == - CAD.distance p
               /\ CAD.pz (CAD.bmax b) == CAD.distance p)%Q
              /\ (CAD.distance p == 10 ->
                  CAD.pz (CAD.bmin b) == - 10 /\ CAD.pz (CAD.bmax b) == 10)%Q
          | CAD.DirNormal => False
          end.
Proof.
  intros dims Hlaws Hready Hcs Hpos Hdir Hnew Hsketch Hbody Hext Htr Hmesh Hthree.
  split; [apply extrudeDims_spec |].
  assert (Hdims : (0 < fst dims /\ ~ snd dims == 0)%Q).
  { unfold dims, GeometryComputer.extrudeDims. clear - Hpos Hdir.
    destruct (CAD.direction p); cbn [fst snd]; [contradiction | |].
    - split; [lra | intros H; lra].
    - split; [exact Hpos | intros H].
      assert (H2 : (- CAD.distance p / 2 == - (CAD.distance p * (1 # 2)))%Q) by field.
      rewrite H2 in H. lra. }
  destruct Hdims as [Hh Hoff].
  (* the bounding box of the translated prism *)
  pose proof (Shape.translate_span K Hlaws _ _ _ _ _ Htr
                (Shape.extrude_span K Hlaws _ _ _ Hh Hext)) as (b & Hb & Hlo & Hhi).
  simpl in Hlo, Hhi.
  assert (Hrun : GeometryComputer.computeExtrude K nodes rec p s
                 = Some (Returned
                     (GeometryComputer.mkGeometry K (Some m') (Some three) (Some mesh)
                        (Some (emptyTopology K)) (Some b) false None), s)).
  { unfold GeometryComputer.computeExtrude. rewrite Hsketch.
    destruct sketch as [? ? sb]. simpl in Hbody. subst sb.
    assert (Hone : GeometryComputer.extrudeProfile K (CAD.direction p)
                     (CAD.distance p) profile = Some m').
    { unfold GeometryComputer.extrudeProfile. fold dims.
      destruct dims as [height offsetZ]. simpl in *.
      unfold ManifoldEngine.extrude, ManifoldEngine.translate.
      rewrite Hready, Hcs, Hext. simpl.
      destruct (Qeq_bool offsetZ 0) eqn:E;
        [apply Qeq_bool_iff in E; contradiction |].
      simpl. rewrite Htr. reflexivity. }
    simpl. rewrite Hone. simpl.
    unfold GeometryComputer.booleanTarget. rewrite Hnew.
    unfold GeometryComputer.manifoldToGeometry, ManifoldEngine.extractMesh,
      ManifoldEngine.extractTopology, ManifoldEngine.getBoundingBox.
    rewrite Hready, Hmesh. simpl. rewrite Hthree, Hb. reflexivity. }
  eexists _, b. split; [exact Hrun |]. split; [reflexivity |].
  split; [reflexivity |].
  unfold dims in Hlo, Hhi.
  destruct (CAD.direction p); simpl in Hlo, Hhi; [contradiction | |].
  - split; [split; [rewrite Hlo | rewrite Hhi]; ring |].
    intros Hd. split; [rewrite Hlo | rewrite Hhi]; rewrite Hd; reflexivity.
  - split; [split; [rewrite Hlo | rewrite Hhi]; field |].
    intros Hd. split; [rewrite Hlo | rewrite Hhi]; rewrite Hd; reflexivity.
Qed.

Lemma boxKernel_laws : Shape.PrismLaws Fixtures.boxKernel.
Proof.
  split.
  - intros profile h m _. simpl. unfold Fixtures.extrudeBox.
    destruct (length profile <? 3); [discriminate |].
    intros [= <-]. exists (Fixtures.boxOf 0 h). simpl.
    repeat split; reflexivity.
  - intros m v m' lo hi. simpl. intros [= <-] (b & [= <-] & Hlo & Hhi).
    eexists. split; [reflexivity |]. simpl. rewrite Hlo, Hhi.
    split; reflexivity.
Qed.

Lemma extrude_direction_dims_and_span_witness :
  let K := Fixtures.boxKernel in
  exists g b,
    GeometryComputer.computeExtrude K Fixtures.document
      (GeometryComputer.compute K Fixtures.document 0)
      (CAD.mkExtrudeParams "sketch1" 10 CAD.DirSymmetric 0 CAD.OpNew None)
      (States.fresh K) = Some (Returned g, States.fresh K)
    /\ GeometryComputer.bounds K g = Some b
    /\ (CAD.pz (CAD.bmin b) == - 5 /\ CAD.pz (CAD.bmax b) == 5)%Q.
Proof.
  intros K.
  destruct (extrude_direction_dims_and_span K Fixtures.document
              (GeometryComputer.compute K Fixtures.document 0)
              (CAD.mkExtrudeParams "sketch1" 10 CAD.DirSymmetric 0 CAD.OpNew None)
              (States.fresh K)
              (snd (Fixtures.node "sketch1" (CAD.Sketch [Fixtures.centeredSquare])))
              Fixtures.centeredSquare
              (Fixtures.boxOf 0 10)
              (Fixtures.shift (Fixtures.boxOf 0 10) (CAD.mkPoint3D 0 0 (- (10) / 2)))
              tt tt)
    as (_ & g & b & Hrun & _ & Hb & _ & Hten).
  - exact boxKernel_laws.
  - reflexivity.
  - reflexivity.
  - reflexivity.
  - discriminate.
  - reflexivity.
  - reflexivity.
  - reflexivity.
  - reflexivity.
  - reflexivity.
  - reflexivity.
  - reflexivity.
  - exists g, b. split; [exact Hrun |]. split; [exact Hb |].
    apply Hten. reflexivity.
Defined.

(** *** Invalidation *)
Section Invalidation.
Import CAD GeometryComputer.
Context (K : Kernel) (nodes : Nodes).

Local Abbreviation Cache := (gmap string (ComputedGeometry K)).
Local Abbreviation marks := (Shape.marks K).
Local Abbreviation dirtied := (Shape.dirtied K).
Local Abbreviation reaches := (Shape.reaches K nodes).

Lemma setDirty_idem (o : option (ComputedGeometry K)) :
  setDirty K <$> (setDirty K <$> o) = setDirty K <$> o.
Proof. destruct o; reflexivity. Qed.

Lemma marks_refl c : marks c c.
Proof. intros k. left. reflexivity. Qed.

Lemma marks_trans c1 c2 c3 : marks c1 c2 -> marks c2 c3 -> marks c1 c3.
Proof.
  intros H12 H23 k. destruct (H23 k) as [->| ->], (H12 k) as [->| ->]; auto.
  right. apply setDirty_idem.
Qed.

Lemma dirtied_after c c0 c' y : dirtied c c0 y -> marks c0 c' -> dirtied c c' y.
Proof.
  unfold dirtied. intros Hy Hm. destruct (Hm y) as [->| ->]; rewrite Hy; [reflexivity |].
  apply setDirty_idem.
Qed.

Lemma dirtied_before c c0 c' y : marks c c0 -> dirtied c0 c' y -> dirtied c c' y.
Proof.
  unfold dirtied. intros Hm ->. destruct (Hm y) as [->| ->]; [reflexivity |].
  apply setDirty_idem.
Qed.

Lemma markDirty_marks x c : marks c (markDirty K x c) /\ dirtied c (markDirty K x c) x.
Proof.
  unfold markDirty, dirtied. destruct (c !! x) as [g|] eqn:Hx.
  - split.
    + intros k. destruct (decide (x = k)) as [<-|Hne].
      * right. rewrite lookup_insert_eq, Hx. reflexivity.
      * left. apply lookup_insert_ne, Hne.
    + rewrite lookup_insert_eq. reflexivity.
  - split; [apply marks_refl | rewrite Hx; reflexivity].
Qed.

Lemma refersTo_tests node x :
  (isBooleanOver node x = true -> Shape.refersTo node x = true)
  /\ (isExtrudeOf node x = true -> Shape.refersTo node x = true)
  /\ (isRevolveOf node x = true -> Shape.refersTo node x = true)
  /\ (Shape.refersTo node x = true ->
      isBooleanOver node x = true \/ isExtrudeOf node x = true
      \/ isRevolveOf node x = true).
Proof.
  unfold isBooleanOver, isExtrudeOf, isRevolveOf, Shape.refersTo.
  destruct (body node); repeat split; auto; discriminate.
Qed.

Lemma when_reaches recur id (b : bool) c :
  (b = true -> reaches recur id) ->
  exists c', when K b (recur id) c = Some c' /\ marks c c'
    /\ (b = true -> forall y, Shape.dependsOn nodes y id -> dirtied c c' y).
Proof.
  intros Hb. destruct b; simpl.
  - destruct (Hb eq_refl c) as (c' & Hc' & Hm & Hy). eauto.
  - exists c. split; [reflexivity |]. split; [apply marks_refl | discriminate].
Qed.

Lemma scanNodes_reaches recur x entries :
  (forall id node, In (id, node) entries -> Shape.refersTo node x = true ->
     reaches recur id) ->
  forall c, exists c', scanNodes K recur x entries c = Some c' /\ marks c c'
    /\ forall id node y, In (id, node) entries -> Shape.refersTo node x = true ->
         Shape.dependsOn nodes y id -> dirtied c c' y.
Proof.
  induction entries as [|[id node] rest IH]; intros Hrec c; simpl.
  - exists c. split; [reflexivity |]. split; [apply marks_refl |].
    intros ? ? ? [].
  - destruct (refersTo_tests node x) as (T1 & T2 & T3 & T4).
    assert (Hhere : Shape.refersTo node x = true -> reaches recur id)
      by (apply Hrec; left; reflexivity).
    destruct (when_reaches recur id (isBooleanOver node x) c) as (c1 & -> & M1 & D1);
      [auto |].
    destruct (when_reaches recur id (isExtrudeOf node x) c1) as (c2 & E2 & M2 & D2);
      [auto |].
    destruct (when_reaches recur id (isRevolveOf node x) c2) as (c3 & E3 & M3 & D3);
      [auto |].
    destruct (IH (fun id' node' Hin => Hrec id' node' (or_intror Hin)) c3)
      as (c' & E' & M' & D').
    simpl. rewrite E2. simpl. rewrite E3. simpl.
    exists c'. split; [exact E' |].
    assert (M13 : marks c c3) by (eapply marks_trans; [| exact M3];
                                  eapply marks_trans; eassumption).
    split; [eapply marks_trans; eassumption |].
    intros id' node' y [Heq|Hin] Href Hdep.
    + injection Heq as <- <-.
      destruct (T4 Href) as [Hb|[Hb|Hb]].
      * apply (dirtied_after c c1 c' y); [apply D1; assumption |].
        exact (marks_trans _ _ _ M2 (marks_trans _ _ _ M3 M')).
      * apply (dirtied_before c c1 c' y M1).
        apply (dirtied_after c1 c2 c' y); [apply D2; assumption |].
        exact (marks_trans _ _ _ M3 M').
      * apply (dirtied_before c c2 c' y (marks_trans _ _ _ M1 M2)).
        apply (dirtied_after c2 c3 c' y); [apply D3; assumption | exact M'].
    + eapply dirtied_before; [exact M13 |]. eapply D'; eassumption.
Qed.

Lemma markDirtyWithDependents_reaches (rank : string -> nat) :
  Shape.acyclic nodes rank ->
  forall fuel x, rank x < fuel ->
    reaches (markDirtyWithDependents K nodes fuel) x.
Proof.
  intros Hacyclic. induction fuel as [|fuel IH]; intros x Hfuel c; [lia |].
  simpl.
  destruct (markDirty_marks x c) as [M0 D0].
  destruct (scanNodes_reaches (markDirtyWithDependents K nodes fuel) x nodes)
    with (c := markDirty K x c) as (c' & E & M & D).
  { intros id node Hin Href. apply IH.
    pose proof (Hacyclic id node x Hin Href). lia. }
  exists c'. split; [exact E |]. split; [eapply marks_trans; eassumption |].
  intros y Hdep. apply Operators_Properties.clos_rt_rtn1 in Hdep.
  destruct Hdep as [|z x' [node [Hin Href]] Hyz].
  - eapply dirtied_after; eassumption.
  - eapply dirtied_before; [exact M0 |].
    eapply D; [exact Hin | exact Href |].
    apply Operators_Properties.clos_rtn1_rt, Hyz.
Qed.

End Invalidation.

(** C4.  On a document without reference cycles [markDirtyWithDependents]
    returns, and afterwards the cache entry of the changed node and of every
    node that refers to it through any chain of boolean operands and
    extrude or revolve sketch references is the old entry with
    [dirty = true]; every other entry is left as it was or marked dirty. *)
Theorem invalidation_reaches_transitive_referrers (K : Kernel) (nodes : CAD.Nodes)
    (rank : string -> nat) (x : string)
    (c : gmap string (GeometryComputer.ComputedGeometry K)) (fuel : nat) :
  Shape.acyclic nodes rank ->
  rank x < fuel ->
  exists c',
    GeometryComputer.markDirtyWithDependents K nodes fuel x c = Some c'
    /\ (forall y g, Shape.dependsOn nodes y x -> c !! y = Some g ->
          c' !! y = Some (GeometryComputer.setDirty K g)
          /\ GeometryComputer.dirty K (GeometryComputer.setDirty K g) = true)
    /\ (forall k, c' !! k = c !! k
                  \/ c' !! k = GeometryComputer.setDirty K <$> (c !! k)).
Proof.
  intros Hacyclic Hfuel.
  destruct (markDirtyWithDependents_reaches K nodes rank Hacyclic fuel x Hfuel c)
    as (c' & E & M & D).
  exists c'. split; [exact E |]. split; [| exact M].
  intros y g Hdep Hg. specialize (D y Hdep). unfold Shape.dirtied in D.
  rewrite Hg in D. split; [exact D | reflexivity].
Qed.

Lemma refersTo_In (node : CAD.CADNode) (x : string) :
  Shape.refersTo node x = true ->
  In x match CAD.body node with
       | CAD.Boolean _ operandIds => operandIds
       | CAD.Extrude p => [CAD.sketchId p]
       | CAD.Revolve p => [CAD.rev_sketchId p]
       | _ => []
       end.
Proof.
  unfold Shape.refersTo. destruct (CAD.body node); try discriminate.
  - unfold GeometryComputer.includes. intros H.
    apply existsb_exists in H as (z & Hz & Heq).
    apply String.eqb_eq in Heq. subst. exact Hz.
  - intros H. apply String.eqb_eq in H. left. exact H.
  - intros H. apply String.eqb_eq in H. left. exact H.
Qed.

Lemma acyclicDocument_ranked :
  Shape.acyclic Fixtures.acyclicDocument Fixtures.documentRank.
Proof.
  intros y node x Hin Href. apply refersTo_In in Href.
  unfold Fixtures.acyclicDocument, Fixtures.document in Hin. simpl in Hin.
  repeat (destruct Hin as [Heq|Hin];
    [ injection Heq as <- <-; simpl in Href;
      repeat (destruct Href as [<-|Href]; [vm_compute; lia |]);
      destruct Href
    | ]).
  destruct Hin.
Qed.

Lemma invalidation_reaches_transitive_referrers_witness :
  let K := Fixtures.boxKernel in
  exists c',
    GeometryComputer.markDirtyWithDependents K Fixtures.acyclicDocument 4
      "sketch1" (Caches.built K) = Some c'
    /\ GeometryComputer.dirty K <$> (c' !! "outer") = Some true.
Proof.
  intros K.
  destruct (invalidation_reaches_transitive_referrers K Fixtures.acyclicDocument
              Fixtures.documentRank "sketch1" (Caches.built K) 4
              acyclicDocument_ranked ltac:(vm_compute; lia))
    as (c' & Hrun & Hdep & _).
  exists c'. split; [exact Hrun |].
  destruct (Hdep "outer" (GeometryComputer.mkGeometry K None None None None None false None))
    as [-> _]; [| reflexivity | reflexivity].
  (* outer -> cut -> symmetric10 -> sketch1 *)
  apply (Relation_Operators.rt_trans _ _ "outer" "cut" "sketch1");
    [apply Relation_Operators.rt_step |].
  { eexists. split; [do 10 right; left; reflexivity | reflexivity]. }
  apply (Relation_Operators.rt_trans _ _ "cut" "symmetric10" "sketch1");
    apply Relation_Operators.rt_step.
  - eexists. split; [do 9 right; left; reflexivity | reflexivity].
  - eexists. split; [do 4 right; left; reflexivity | reflexivity].
Defined.

(** * Further properties of the code *)

(** ** What [compute] does to the cache *)
Section CacheGrowth.
Import CAD GeometryComputer.
Context (K : Kernel) (nodes : Nodes).

Local Abbreviation grows := (Recompute.grows K).

Lemma grows_refl c : grows c c.
Proof. intros k g Hg. exists g. auto. Qed.

Lemma grows_trans c1 c2 c3 : grows c1 c2 -> grows c2 c3 -> grows c1 c3.
Proof.
  intros H12 H23 k g Hg.
  destruct (H12 k g Hg) as (g2 & Hg2 & Hrel2).
  destruct (H23 k g2 Hg2) as (g3 & Hg3 & Hrel3).
  exists g3. split; [exact Hg3 |].
  destruct Hrel3 as [->|Hclean]; [exact Hrel2 | right; exact Hclean].
Qed.

Lemma grows_insert c nodeId g :
  dirty K g = false /\ (Shape.success K g \/ Shape.failure K g) ->
  grows c (<[nodeId := g]> c).
Proof.
  intros Hg k g0 Hk. destruct (decide (nodeId = k)) as [<-|Hne].
  - exists g. rewrite lookup_insert_eq. auto.
  - exists g0. rewrite lookup_insert_ne by exact Hne. auto.
Qed.

Local Abbreviation growing := (Recompute.growing K).

Section Methods.
Context (rec : Compute K) (Hsound : Shape.sound K rec) (Hrec : growing rec).

Lemma computeOperands_grows operandIds : forall acc s x s',
  computeOperands K rec operandIds acc s = Some (x, s') ->
  grows (cache K s) (cache K s').
Proof.
  induction operandIds as [|operandId rest IH]; intros acc s x s'; simpl.
  - intros [= <- <-]. apply grows_refl.
  - destruct (rec operandId s) as [[r s1]|] eqn:Hr; [| discriminate].
    pose proof (Hrec _ _ _ _ Hr) as Hs1.
    destruct r as [[[m|] ? ? ? ? ? ?]|e]; try (intros [= <- <-]; exact Hs1).
    intros H. eapply grows_trans; [exact Hs1 | eapply IH, H].
Qed.

Lemma foldBoolean_cache op rest : forall result s x s',
  foldBoolean K op result rest s = (x, s') -> cache K s' = cache K s.
Proof.
  induction rest as [|operand rest IH]; intros result s x s'; simpl.
  - intros [= <- <-]. reflexivity.
  - destruct (ManifoldEngine.boolean K result operand op) as [v|e].
    + intros H. rewrite (IH _ _ _ _ H). reflexivity.
    + intros [= <- <-]. reflexivity.
Qed.

Lemma dispatch_grows node s o s' :
  dispatch K nodes rec node s = Some (o, s') -> grows (cache K s) (cache K s').
Proof.
  unfold dispatch. destruct (body node).
  - intros [= <- <-]. apply grows_refl.
  - unfold computeBoolean. destruct (length operandIds <? 2).
    + intros [= <- <-]. apply grows_refl.
    + destruct (computeOperands K rec operandIds [] s) as [[x s1]|] eqn:Hops;
        [| discriminate].
      pose proof (computeOperands_grows _ _ _ _ _ Hops) as Hs1.
      destruct x as [early|[|first rest]]; try (intros [= <- <-]; exact Hs1).
      destruct (foldBoolean K op first rest s1) as [y s2] eqn:Hfold.
      pose proof (foldBoolean_cache _ _ _ _ _ _ Hfold) as Hc.
      destruct y; intros [= <- <-]; rewrite Hc; exact Hs1.
  - intros [= <- <-]. apply grows_refl.
  - unfold computeExtrude.
    destruct (nodesGet (sketchId params) nodes) as [[? ? []]|];
      try (intros [= <- <-]; apply grows_refl).
    destruct profiles; [intros [= <- <-]; apply grows_refl |].
    destruct (extrudeProfiles K _ _ _); [intros [= <- <-]; apply grows_refl |].
    destruct (booleanTarget params) as [[op target]|];
      [| intros [= <- <-]; apply grows_refl].
    destruct (rec target s) as [[r s1]|] eqn:Hr; [| discriminate].
    pose proof (Hrec _ _ _ _ Hr) as Hs1.
    destruct r as [[[tm|] ? ? ? ? ? ?]|e]; try (intros [= <- <-]; exact Hs1).
    destruct (ManifoldEngine.boolean K tm _ op); intros [= <- <-]; exact Hs1.
  - unfold computeRevolve.
    destruct (nodesGet (rev_sketchId params) nodes) as [[? ? []]|];
      try (intros [= <- <-]; apply grows_refl).
    destruct profiles; [intros [= <- <-]; apply grows_refl |].
    destruct (revolveProfiles K _ _); intros [= <- <-]; apply grows_refl.
  - intros [= <- <-]. apply grows_refl.
Qed.

Lemma computeBody_growing : growing (computeBody K nodes rec).
Proof.
  intros nodeId s0 r s'. unfold computeBody.
  set (afterInit := if initialized K s0 then Ok s0 else _).
  assert (Hinit : match afterInit with
                  | Ok s => cache K s = cache K s0
                  | Err _ => True
                  end).
  { unfold afterInit. destruct (initialized K s0); [reflexivity |].
    destruct (engineInitialize K); [reflexivity | exact I]. }
  destruct afterInit as [s|e]; [| intros [= <- <-]; apply grows_refl].
  rewrite <- Hinit.
  case_bool_decide as Hin; [intros [= <- <-]; apply grows_refl |].
  destruct (nodesGet nodeId nodes) as [node|]; [| intros [= <- <-]; apply grows_refl].
  destruct (cachedClean K nodeId s) as [cached|]; [intros [= <- <-]; apply grows_refl |].
  destruct (dispatch K nodes rec node (computingAdd K nodeId s)) as [[o s1]|] eqn:Hd;
    [| discriminate].
  pose proof (dispatch_grows _ _ _ _ Hd) as Hgrow. simpl in Hgrow.
  destruct (dispatch_step K nodes rec Hsound _ _ _ _ Hd) as [_ Ho].
  destruct o as [g|e]; intros [= <- <-]; simpl;
    (eapply grows_trans; [exact Hgrow | apply grows_insert]).
  - apply Ho. reflexivity.
  - apply createEmptyGeometry_shaped.
Qed.

End Methods.

Lemma compute_growing fuel : growing (compute K nodes fuel).
Proof.
  induction fuel as [|fuel IH]; [intros ? ? ? ? [=] |].
  simpl. apply computeBody_growing; [apply compute_sound | exact IH].
Qed.

End CacheGrowth.

(** X1.  [compute] never removes a cache entry: after a call that returns,
    every entry that was there is still there, either untouched or replaced
    by an entry stored with [dirty = false].  So an entry that was clean is
    clean afterwards, and only invalidation makes entries dirty. *)
Theorem compute_keeps_entries (K : Kernel) (nodes : CAD.Nodes) (fuel : nat)
    (nodeId : string) (s s' : GeometryComputer.State K)
    (r : Result (GeometryComputer.ComputedGeometry K)) :
  GeometryComputer.compute K nodes fuel nodeId s = Some (r, s') ->
  forall k g, GeometryComputer.cache K s !! k = Some g ->
    exists g', GeometryComputer.cache K s' !! k = Some g'
      /\ (g' = g \/ GeometryComputer.dirty K g' = false)
      /\ (GeometryComputer.dirty K g = false -> GeometryComputer.dirty K g' = false).
Proof.
  intros Hrun k g Hg.
  destruct (compute_growing K nodes fuel _ _ _ _ Hrun k g Hg) as (g' & Hg' & Hrel).
  exists g'. split; [exact Hg' |].
  destruct Hrel as [->|[Hd _]]; auto.
Qed.

Lemma compute_keeps_entries_witness :
  let K := Fixtures.boxKernel in
  let stale := GeometryComputer.setDirty K
                 (GeometryComputer.createEmptyGeometry K "stale") in
  let out := default (Err "none", States.fresh K)
               (GeometryComputer.compute K Fixtures.document 13 "outer"
                  (States.staleAt K "box1")) in
  exists g', GeometryComputer.cache K (snd out) !! "box1" = Some g'
    /\ (g' = stale \/ GeometryComputer.dirty K g' = false)
    /\ (GeometryComputer.dirty K stale = false
        -> GeometryComputer.dirty K g' = false).
Proof.
  intros K stale out.
  apply (compute_keeps_entries K Fixtures.document 13 "outer"
           (States.staleAt K "box1") (snd out) (fst out)).
  - vm_compute. reflexivity.
  - vm_compute. reflexivity.
Defined.

(** X2.  What [compute] returns agrees with the cache.  A success result is
    the entry the cache holds for the node afterwards, and that entry is
    clean.  An error result comes either from a call that left cache and
    nodes in progress alone (initialisation failed, reentrancy, unknown
    node) or from a caught exception, and then the entry of the node is the
    empty geometry with "Computation error: " and the message. *)
Theorem compute_result_agrees_with_cache (K : Kernel) (nodes : CAD.Nodes)
    (fuel : nat) (nodeId : string) (s s' : GeometryComputer.State K)
    (r : Result (GeometryComputer.ComputedGeometry K)) :
  GeometryComputer.compute K nodes fuel nodeId s = Some (r, s') ->
  match r with
  | Ok g =>
      GeometryComputer.cache K s' !! nodeId = Some g
      /\ GeometryComputer.dirty K g = false
  | Err e =>
      (GeometryComputer.cache K s' = GeometryComputer.cache K s
       /\ GeometryComputer.computing K s' = GeometryComputer.computing K s)
      \/ GeometryComputer.cache K s' !! nodeId
         = Some (GeometryComputer.createEmptyGeometry K ("Computation error: " +:+ e))
  end.
Proof.
  destruct fuel as [|fuel]; [discriminate |].
  simpl. unfold GeometryComputer.computeBody.
  set (afterInit := if GeometryComputer.initialized K s then Ok s else _).
  assert (Hinit : match afterInit with
                  | Ok s1 => GeometryComputer.cache K s1 = GeometryComputer.cache K s
                             /\ GeometryComputer.computing K s1
                                = GeometryComputer.computing K s
                  | Err _ => True
                  end).
  { unfold afterInit. destruct (GeometryComputer.initialized K s); [auto |].
    destruct (engineInitialize K); [split; reflexivity | exact I]. }
  destruct afterInit as [s1|e]; [| intros [= <- <-]; left; auto].
  case_bool_decide as Hin; [intros [= <- <-]; left; exact Hinit |].
  destruct (CAD.nodesGet nodeId nodes) as [node|];
    [| intros [= <- <-]; left; exact Hinit].
  destruct (GeometryComputer.cachedClean K nodeId s1) as [cached|] eqn:Hclean.
  - intros [= <- <-]. unfold GeometryComputer.cachedClean in Hclean.
    destruct (GeometryComputer.cache K s1 !! nodeId) as [c|]; [| discriminate].
    destruct (GeometryComputer.dirty K c) eqn:Hd; [discriminate |].
    injection Hclean as <-. auto.
  - destruct (GeometryComputer.dispatch K nodes _ node _) as [[o s2]|] eqn:Hd;
      [| discriminate].
    destruct (dispatch_step K nodes _ (compute_sound K nodes fuel) _ _ _ _ Hd)
      as [_ Ho].
    destruct o as [g|e]; intros [= <- <-]; simpl.
    + rewrite lookup_insert_eq. split; [reflexivity | apply Ho; reflexivity].
    + right. apply lookup_insert_eq.
Qed.

Lemma compute_result_agrees_with_cache_witness :
  let K := Fixtures.boxKernel in
  let g := GeometryComputer.createEmptyGeometry K
             "Boolean requires at least 2 operands" in
  let s' := GeometryComputer.mkState K true ∅ {["lonely" := g]} 0 in
  GeometryComputer.cache K s' !! "lonely" = Some g
  /\ GeometryComputer.dirty K g = false.
Proof.
  intros K g s'.
  apply (compute_result_agrees_with_cache K Fixtures.document 13 "lonely"
           (States.fresh K) s' (Ok g)).
  vm_compute. reflexivity.
Defined.

(** A clean entry is returned as it is. *)
Lemma compute_hit (K : Kernel) (nodes : CAD.Nodes) (fuel : nat) (nodeId : string)
    (node : CAD.CADNode) (s : GeometryComputer.State K)
    (g : GeometryComputer.ComputedGeometry K) :
  GeometryComputer.initialized K s = true ->
  nodeId ∉ GeometryComputer.computing K s ->
  CAD.nodesGet nodeId nodes = Some node ->
  GeometryComputer.cache K s !! nodeId = Some g ->
  GeometryComputer.dirty K g = false ->
  GeometryComputer.compute K nodes (S fuel) nodeId s = Some (Ok g, s).
Proof.
  intros Hi Hn Hnode Hg Hd.
  simpl. unfold GeometryComputer.computeBody, GeometryComputer.cachedClean.
  rewrite Hi, (bool_decide_eq_false_2 _ Hn), Hnode, Hg, Hd. reflexivity.
Qed.

(** X3.  A [compute] that returned a success result is answered from the
    cache the next time: the same geometry comes back as a success and the
    state does not change, also when that geometry is the empty geometry of
    a failed computation.  After a caught exception the next call returns
    the stored "Computation error" geometry, as a success. *)
Theorem compute_again_returns_cached (K : Kernel) (nodes : CAD.Nodes)
    (fuel fuel' : nat) (nodeId : string) (s s' : GeometryComputer.State K)
    (r : Result (GeometryComputer.ComputedGeometry K)) :
  GeometryComputer.compute K nodes fuel nodeId s = Some (r, s') ->
  match r with
  | Ok g =>
      GeometryComputer.compute K nodes (S fuel') nodeId s' = Some (Ok g, s')
  | Err e =>
      GeometryComputer.cache K s' <> GeometryComputer.cache K s ->
      GeometryComputer.compute K nodes (S fuel') nodeId s'
      = Some (Ok (GeometryComputer.createEmptyGeometry K
                    ("Computation error: " +:+ e)), s')
  end.
Proof.
  intros Hrun.
  assert (Hhit : forall s2 g,
            GeometryComputer.initialized K s2 = true ->
            nodeId ∉ GeometryComputer.computing K s2 ->
            (exists node, CAD.nodesGet nodeId nodes = Some node) ->
            GeometryComputer.cache K s2 !! nodeId = Some g ->
            GeometryComputer.dirty K g = false ->
            GeometryComputer.compute K nodes (S fuel') nodeId s2 = Some (Ok g, s2)).
  { intros s2 g Hi Hn [node Hnode] Hg Hd. eapply compute_hit; eassumption. }
  destruct fuel as [|fuel]; [discriminate |].
  simpl in Hrun. unfold GeometryComputer.computeBody in Hrun.
  set (afterInit := if GeometryComputer.initialized K s then Ok s else _) in Hrun.
  assert (Hinit : match afterInit with
                  | Ok s1 => GeometryComputer.initialized K s1 = true
                             /\ GeometryComputer.cache K s1 = GeometryComputer.cache K s
                  | Err _ => True
                  end).
  { unfold afterInit. destruct (GeometryComputer.initialized K s) eqn:Hi; [auto |].
    destruct (engineInitialize K); [split; reflexivity | exact I]. }
  destruct afterInit as [s1|e];
    [| injection Hrun as <- <-; intros Hne; congruence].
  destruct Hinit as [Hinit Hcache].
  case_bool_decide as Hin; [injection Hrun as <- <-; intros Hne; congruence |].
  destruct (CAD.nodesGet nodeId nodes) as [node|] eqn:Hnode;
    [| injection Hrun as <- <-; intros Hne; congruence].
  destruct (GeometryComputer.cachedClean K nodeId s1) as [cached|] eqn:Hclean.
  - injection Hrun as <- <-. unfold GeometryComputer.cachedClean in Hclean.
    destruct (GeometryComputer.cache K s1 !! nodeId) as [c|] eqn:Hc; [| discriminate].
    destruct (GeometryComputer.dirty K c) eqn:Hd; [discriminate |].
    injection Hclean as <-. apply Hhit; eauto.
  - destruct (GeometryComputer.dispatch K nodes _ node _) as [[o s2]|] eqn:Hd;
      [| discriminate].
    destruct (dispatch_step K nodes _ (compute_sound K nodes fuel) _ _ _ _ Hd)
      as [[C2 _ I2 _] Ho].
    assert (Hfinal : forall g, GeometryComputer.dirty K g = false ->
              GeometryComputer.compute K nodes (S fuel') nodeId
                (GeometryComputer.computingDelete K nodeId
                   (GeometryComputer.cacheSet K nodeId g s2))
              = Some (Ok g, GeometryComputer.computingDelete K nodeId
                              (GeometryComputer.cacheSet K nodeId g s2))).
    { intros g Hg. apply Hhit.
      - simpl. apply I2. exact Hinit.
      - simpl. rewrite C2. simpl. rewrite computing_add_delete by exact Hin. exact Hin.
      - eauto.
      - simpl. apply lookup_insert_eq.
      - exact Hg. }
    destruct o as [g|e]; injection Hrun as <- <-.
    + apply Hfinal. apply (Ho g eq_refl).
    + intros _. apply Hfinal. reflexivity.
Qed.

Lemma compute_again_returns_cached_witness :
  let K := Fixtures.boxKernel in
  let g := GeometryComputer.createEmptyGeometry K
             "Boolean requires at least 2 operands" in
  let s' := GeometryComputer.mkState K true ∅ {["lonely" := g]} 0 in
  GeometryComputer.compute K Fixtures.document 2 "lonely" s' = Some (Ok g, s').
Proof.
  intros K g s'.
  apply (compute_again_returns_cached K Fixtures.document 13 1 "lonely"
           (States.fresh K) s' (Ok g)).
  vm_compute. reflexivity.
Defined.

(** ** [recomputeAll] *)
Section RecomputeAll.
Import CAD GeometryComputer.
Context (K : Kernel) (nodes : Nodes).

Local Abbreviation canStart := (Recompute.canStart K).
Local Abbreviation cleanAt := (Recompute.cleanAt K).

Lemma In_nodesGet nodeId node (l : Nodes) :
  In (nodeId, node) l -> is_Some (nodesGet nodeId l).
Proof.
  induction l as [|[k n] rest IH]; simpl; [intros [] |].
  intros [[= -> ->]|Hin].
  - rewrite String.eqb_refl. eauto.
  - destruct (String.eqb k nodeId); [eauto | apply IH, Hin].
Qed.

Lemma compute_canStart fuel nodeId (s s' : State K) r :
  canStart s -> compute K nodes fuel nodeId s = Some (r, s') -> canStart s'.
Proof.
  intros [Hi|He] Hrun; [left | right; exact He].
  apply (Shape.step_initialized K _ _ (compute_sound K nodes fuel _ _ _ _ Hrun) Hi).
Qed.

(** Past the guards, [compute] leaves a clean entry for its node. *)
Lemma compute_cleanAt fuel nodeId (s s' : State K) r :
  canStart s -> nodeId ∉ computing K s -> is_Some (nodesGet nodeId nodes) ->
  compute K nodes fuel nodeId s = Some (r, s') -> cleanAt s' nodeId.
Proof.
  intros Hstart Hnot [node Hnode] Hrun. unfold Recompute.cleanAt.
  destruct fuel as [|fuel]; [discriminate |].
  simpl in Hrun. unfold computeBody in Hrun.
  set (afterInit := if initialized K s then Ok s else _) in Hrun.
  assert (Hinit : exists s1, afterInit = Ok s1 /\ computing K s1 = computing K s).
  { unfold afterInit. destruct Hstart as [->| ->]; [eauto |].
    destruct (initialized K s); eauto. }
  destruct Hinit as (s1 & -> & HC).
  rewrite bool_decide_eq_false_2, Hnode in Hrun by (rewrite HC; exact Hnot).
  destruct (cachedClean K nodeId s1) as [cached|] eqn:Hclean.
  - injection Hrun as <- <-. unfold cachedClean in Hclean.
    destruct (cache K s1 !! nodeId) as [c|]; [| discriminate].
    destruct (dirty K c) eqn:Hd; [discriminate |]. eauto.
  - destruct (dispatch K nodes _ node _) as [[o s2]|] eqn:Hd; [| discriminate].
    destruct (dispatch_step K nodes _ (compute_sound K nodes fuel) _ _ _ _ Hd)
      as [_ Ho].
    destruct o as [g|e]; injection Hrun as <- <-; simpl;
      rewrite lookup_insert_eq; eexists; split; try reflexivity.
    apply (Ho g eq_refl).
Qed.

Lemma grows_cleanAt (s s' : State K) nodeId :
  Recompute.grows K (cache K s) (cache K s') -> cleanAt s nodeId -> cleanAt s' nodeId.
Proof.
  intros Hgrow (g & Hg & Hd). unfold Recompute.cleanAt.
  destruct (Hgrow nodeId g Hg) as (g' & Hg' & [->|[Hd' _]]); eauto.
Qed.

Lemma cachedClean_cleanAt (s : State K) nodeId cached :
  cachedClean K nodeId s = Some cached -> cleanAt s nodeId.
Proof.
  unfold cachedClean, Recompute.cleanAt.
  destruct (cache K s !! nodeId) as [c|]; [| discriminate].
  destruct (dirty K c) eqn:Hd; [discriminate |]. eauto.
Qed.

Lemma recomputeLoop_cleans fuel (entries : Nodes) : forall s,
  canStart s ->
  (forall nodeId node, In (nodeId, node) entries ->
     (nodeId ∉ computing K s) /\ is_Some (nodesGet nodeId nodes)) ->
  Shape.idle K nodes s < fuel ->
  exists s', Recompute.recomputeLoop K nodes fuel entries s = Some s'
    /\ computing K s' = computing K s
    /\ Recompute.grows K (cache K s) (cache K s')
    /\ forall nodeId node, In (nodeId, node) entries -> cleanAt s' nodeId.
Proof.
  induction entries as [|[nodeId node] rest IH]; intros s Hstart Hall Hfuel; simpl.
  - exists s. split; [reflexivity |]. split; [reflexivity |].
    split; [apply grows_refl | intros ? ? []].
  - destruct (cachedClean K nodeId s) as [cached|] eqn:Hclean.
    + destruct (IH s Hstart) as (s' & Hrun & HC & Hgrow & Hrest);
        [intros k n Hin; apply (Hall k n); right; exact Hin | exact Hfuel |].
      exists s'. split; [exact Hrun |]. split; [exact HC |]. split; [exact Hgrow |].
      intros k n [[= <- <-]|Hin]; [| eauto].
      eapply grows_cleanAt; [exact Hgrow |].
      eapply cachedClean_cleanAt, Hclean.
    + destruct (compute_total K nodes fuel nodeId s Hfuel) as [[r s1] Hrun].
      rewrite Hrun.
      pose proof (Shape.step_computing K _ _
                    (compute_sound K nodes fuel _ _ _ _ Hrun)) as HC1.
      destruct (Hall nodeId node (or_introl eq_refl)) as [Hnot Hnode].
      destruct (IH s1) as (s' & Hloop & HC & Hgrow & Hrest).
      * eapply compute_canStart; eassumption.
      * intros k n Hin. rewrite HC1. apply (Hall k n). right. exact Hin.
      * rewrite (idle_same K nodes s s1 HC1). exact Hfuel.
      * exists s'. split; [exact Hloop |]. split; [congruence |].
        split; [eapply grows_trans;
                [apply (compute_growing K nodes fuel _ _ _ _ Hrun) | exact Hgrow] |].
        intros k n [[= <- <-]|Hin]; [| eauto].
        eapply grows_cleanAt; [exact Hgrow |].
        eapply compute_cleanAt; eassumption.
Qed.

End RecomputeAll.

(** X4.  [recomputeAll()], started while no node of the document is being
    computed and with an engine that is or can be initialised, returns, and
    afterwards every node of the document has a cache entry with
    [dirty = false]; the set of nodes in progress is as before, and no
    entry has been removed. *)
Theorem recomputeAll_leaves_every_node_clean (K : Kernel) (nodes : CAD.Nodes)
    (fuel : nat) (s : GeometryComputer.State K) :
  GeometryComputer.initialized K s = true \/ engineInitialize K = Ok tt ->
  (forall nodeId node, In (nodeId, node) nodes ->
     nodeId ∉ GeometryComputer.computing K s) ->
  length nodes < fuel ->
  exists s', Recompute.recomputeAll K nodes fuel s = Some s'
    /\ GeometryComputer.computing K s' = GeometryComputer.computing K s
    /\ (forall nodeId node, In (nodeId, node) nodes ->
          exists g, GeometryComputer.cache K s' !! nodeId = Some g
            /\ GeometryComputer.dirty K g = false)
    /\ (forall k, is_Some (GeometryComputer.cache K s !! k) ->
          is_Some (GeometryComputer.cache K s' !! k)).
Proof.
  intros Hstart Hidle Hfuel.
  destruct (recomputeLoop_cleans K nodes fuel nodes s Hstart)
    as (s' & Hrun & HC & Hgrow & Hall).
  - intros nodeId node Hin. split; [eauto |]. eapply In_nodesGet, Hin.
  - pose proof (idle_le_length K nodes s). lia.
  - exists s'. split; [exact Hrun |]. split; [exact HC |]. split; [exact Hall |].
    intros k [g Hg]. destruct (Hgrow k g Hg) as (g' & Hg' & _). eauto.
Qed.

Lemma recomputeAll_leaves_every_node_clean_witness :
  let K := Fixtures.boxKernel in
  exists s', Recompute.recomputeAll K Fixtures.document 13
               (States.staleAt K "box1") = Some s'
    /\ GeometryComputer.computing K s'
       = GeometryComputer.computing K (States.staleAt K "box1")
    /\ (forall nodeId node, In (nodeId, node) Fixtures.document ->
          exists g, GeometryComputer.cache K s' !! nodeId = Some g
            /\ GeometryComputer.dirty K g = false)
    /\ (forall k, is_Some (GeometryComputer.cache K (States.staleAt K "box1") !! k) ->
          is_Some (GeometryComputer.cache K s' !! k)).
Proof.
  intros K.
  apply (recomputeAll_leaves_every_node_clean K Fixtures.document 13
           (States.staleAt K "box1")).
  - left. reflexivity.
  - intros nodeId node _. apply not_elem_of_empty.
  - simpl. lia.
Defined.

(** ** What invalidation leaves alone, and when it does not return *)
Section InvalidationBounds.
Import CAD GeometryComputer.
Context (K : Kernel) (nodes : Nodes).

Local Abbreviation Cache := (gmap string (ComputedGeometry K)).

Lemma markDirty_other x k (c : Cache) : x <> k -> markDirty K x c !! k = c !! k.
Proof.
  intros Hne. unfold markDirty. destruct (c !! x); [| reflexivity].
  apply lookup_insert_ne, Hne.
Qed.

Lemma dependsOn_step y z x :
  Shape.dependsOn nodes y z -> Shape.references nodes z x ->
  Shape.dependsOn nodes y x.
Proof.
  intros Hyz Hzx.
  eapply Relation_Operators.rt_trans; [exact Hyz |].
  apply Relation_Operators.rt_step, Hzx.
Qed.

Lemma scanNodes_spares (recur : string -> Marker K) x k (entries : Nodes) :
  (forall id node, In (id, node) entries -> In (id, node) nodes) ->
  (forall id c c', recur id c = Some c' ->
     ~ Shape.dependsOn nodes k id -> c' !! k = c !! k) ->
  ~ Shape.dependsOn nodes k x ->
  forall c c', scanNodes K recur x entries c = Some c' -> c' !! k = c !! k.
Proof.
  intros Hsub Hrec Hk.
  induction entries as [|[id node] rest IH]; intros c c'; simpl.
  - intros [= <-]. reflexivity.
  - destruct (refersTo_tests node x) as (T1 & T2 & T3 & _).
    assert (Hid : Shape.refersTo node x = true -> ~ Shape.dependsOn nodes k id).
    { intros Href Hdep. apply Hk. eapply dependsOn_step; [exact Hdep |].
      exists node. split; [apply Hsub; left; reflexivity | exact Href]. }
    assert (Hwhen : forall b c0 c1, (b = true -> Shape.refersTo node x = true) ->
              when K b (recur id) c0 = Some c1 -> c1 !! k = c0 !! k).
    { intros [|] c0 c1 Hb; simpl; [| intros [= <-]; reflexivity].
      intros Hrun. eapply Hrec; [exact Hrun | auto]. }
    destruct (when K (isBooleanOver node x) (recur id) c) as [c1|] eqn:E1;
      [| discriminate].
    simpl.
    destruct (when K (isExtrudeOf node x) (recur id) c1) as [c2|] eqn:E2;
      [| discriminate].
    simpl.
    destruct (when K (isRevolveOf node x) (recur id) c2) as [c3|] eqn:E3;
      [| discriminate].
    simpl. intros Hrest.
    rewrite (IH (fun id' node' Hin => Hsub id' node' (or_intror Hin)) c3 c' Hrest).
    rewrite (Hwhen _ _ _ T3 E3), (Hwhen _ _ _ T2 E2), (Hwhen _ _ _ T1 E1).
    reflexivity.
Qed.

Lemma markDirtyWithDependents_spares k fuel : forall x (c c' : Cache),
  markDirtyWithDependents K nodes fuel x c = Some c' ->
  ~ Shape.dependsOn nodes k x -> c' !! k = c !! k.
Proof.
  induction fuel as [|fuel IH]; intros x c c'; [discriminate |].
  simpl. intros Hrun Hk.
  rewrite (scanNodes_spares _ x k nodes (fun _ _ H => H) IH Hk _ _ Hrun).
  apply markDirty_other. intros ->. apply Hk, Relation_Operators.rt_refl.
Qed.

(** [x] has a dependent that lies on a reference cycle. *)
Local Abbreviation cycleAbove x :=
  (exists y, Shape.dependsOn nodes y x
     /\ Relation_Operators.clos_trans string (Shape.references nodes) y y).

Lemma last_reference a b :
  Relation_Operators.clos_trans string (Shape.references nodes) a b ->
  exists w, Shape.references nodes w b /\ Shape.dependsOn nodes a w.
Proof.
  intros Hab. apply Operators_Properties.clos_trans_tn1 in Hab.
  destruct Hab as [b Hab|w b Hwb Haw].
  - exists a. split; [exact Hab | apply Relation_Operators.rt_refl].
  - exists w. split; [exact Hwb |].
    apply Operators_Properties.clos_t_clos_rt,
      Operators_Properties.clos_tn1_trans, Haw.
Qed.

Lemma cycleAbove_referrer x :
  cycleAbove x -> exists w, Shape.references nodes w x /\ cycleAbove w.
Proof.
  intros (y & Hdep & Hcyc).
  apply Operators_Properties.clos_rt_rtn1 in Hdep.
  destruct Hdep as [|z x Hzx Hyz].
  - destruct (last_reference y y Hcyc) as (w & Hwy & Hyw).
    exists w. split; [exact Hwy |]. exists y. split; assumption.
  - exists z. split; [exact Hzx |]. exists y. split; [| exact Hcyc].
    apply Operators_Properties.clos_rtn1_rt, Hyz.
Qed.

Lemma scanNodes_stuck (recur : string -> Marker K) x w node (entries : Nodes) :
  In (w, node) entries -> Shape.refersTo node x = true ->
  (forall c, recur w c = None) ->
  forall c, scanNodes K recur x entries c = None.
Proof.
  intros Hin Href Hstuck.
  induction entries as [|[id n] rest IH]; intros c; [destruct Hin |].
  simpl.
  destruct (when K (isBooleanOver n x) (recur id) c) as [c1|] eqn:E1;
    [| reflexivity].
  simpl.
  destruct (when K (isExtrudeOf n x) (recur id) c1) as [c2|] eqn:E2;
    [| reflexivity].
  simpl.
  destruct (when K (isRevolveOf n x) (recur id) c2) as [c3|] eqn:E3;
    [| reflexivity].
  simpl.
  destruct Hin as [[= -> ->]|Hin]; [| apply IH, Hin].
  exfalso.
  destruct (refersTo_tests node x) as (_ & _ & _ & T4).
  destruct (T4 Href) as [Hb|[Hb|Hb]].
  - rewrite Hb in E1. simpl in E1. rewrite Hstuck in E1. discriminate.
  - rewrite Hb in E2. simpl in E2. rewrite Hstuck in E2. discriminate.
  - rewrite Hb in E3. simpl in E3. rewrite Hstuck in E3. discriminate.
Qed.

Lemma markDirtyWithDependents_stuck fuel : forall x (c : Cache),
  cycleAbove x -> markDirtyWithDependents K nodes fuel x c = None.
Proof.
  induction fuel as [|fuel IH]; intros x c Hx; [reflexivity |].
  simpl.
  destruct (cycleAbove_referrer x Hx) as (w & (node & Hin & Href) & Hw).
  apply (scanNodes_stuck _ x w node nodes Hin Href).
  intros c0. apply IH, Hw.
Qed.

End InvalidationBounds.

(** X5.  Invalidation is exact: [markDirtyWithDependents(x)] leaves the
    entry of every node that does not depend on [x] as it was, where
    depending means a chain of boolean operands and extrude or revolve
    sketch references.  The target body of an extrude is not such a
    reference: an extrude that names [x] only as its target body keeps its
    entry as it was. *)
Theorem invalidation_spares_unrelated_entries (K : Kernel) (nodes : CAD.Nodes)
    (fuel : nat) (x k : string)
    (c c' : gmap string (GeometryComputer.ComputedGeometry K)) :
  GeometryComputer.markDirtyWithDependents K nodes fuel x c = Some c' ->
  ~ Shape.dependsOn nodes k x ->
  c' !! k = c !! k.
Proof. intros Hrun Hk. eapply markDirtyWithDependents_spares; eassumption. Qed.

Lemma pocket_independent_of_box1 :
  ~ Shape.dependsOn Fixtures2.withTarget "pocket" "box1".
Proof.
  assert (Hall : forall y, Shape.dependsOn Fixtures2.withTarget y "box1" ->
                   y = "box1" \/ y = "both").
  { intros y Hdep. apply Operators_Properties.clos_rt_rt1n in Hdep.
    remember "box1" as x eqn:Hx.
    induction Hdep as [|y z x (node & Hin & Href) _ IH]; [left; reflexivity |].
    specialize (IH Hx). subst x. right.
    unfold Fixtures2.withTarget in Hin. simpl in Hin.
    repeat (destruct Hin as [Heq|Hin];
      [ injection Heq as <- <-;
        destruct IH as [->| ->]; vm_compute in Href;
        first [discriminate Href | reflexivity]
      | ]).
    destruct Hin. }
  intros Hdep. destruct (Hall _ Hdep); discriminate.
Qed.

Lemma invalidation_spares_unrelated_entries_witness :
  let K := Fixtures.boxKernel in
  let clean := GeometryComputer.mkGeometry K None None None None None false None in
  let c : gmap string (GeometryComputer.ComputedGeometry K) :=
    <["pocket" := clean]> (<["box1" := clean]> ∅) in
  let c' : gmap string (GeometryComputer.ComputedGeometry K) :=
    <["pocket" := clean]> (<["box1" := GeometryComputer.setDirty K clean]> ∅) in
  c' !! "pocket" = c !! "pocket".
Proof.
  intros K clean c c'.
  apply (invalidation_spares_unrelated_entries K Fixtures2.withTarget 3 "box1"
           "pocket" c c').
  - vm_compute. reflexivity.
  - exact pocket_independent_of_box1.
Defined.

(** X6.  Invalidation has no guard against reference cycles.  When a node
    that depends on [x] lies on a cycle of references (a boolean listing
    itself is enough), [markDirtyWithDependents(x)] recurses without end:
    no recursion budget lets it return. *)
Theorem invalidation_never_returns_below_a_cycle (K : Kernel) (nodes : CAD.Nodes)
    (x y : string) :
  Shape.dependsOn nodes y x ->
  Relation_Operators.clos_trans string (Shape.references nodes) y y ->
  forall fuel c, GeometryComputer.markDirtyWithDependents K nodes fuel x c = None.
Proof.
  intros Hdep Hcyc fuel c.
  apply markDirtyWithDependents_stuck. exists y. split; assumption.
Qed.

Lemma invalidation_never_returns_below_a_cycle_witness :
  GeometryComputer.markDirtyWithDependents Fixtures.boxKernel Fixtures.document
    1000 "box1" (Caches.built Fixtures.boxKernel) = None.
Proof.
  assert (Hself : Shape.references Fixtures.document "self" "self").
  { eexists. split; [do 10 right; left; reflexivity | reflexivity]. }
  assert (Hbox : Shape.references Fixtures.document "self" "box1").
  { eexists. split; [do 10 right; left; reflexivity | reflexivity]. }
  apply (invalidation_never_returns_below_a_cycle Fixtures.boxKernel
           Fixtures.document "box1" "self").
  - apply Relation_Operators.rt_step, Hbox.
  - apply Relation_Operators.t_step, Hself.
Defined.

(** ** The operator of a boolean node, and the target of an extrude *)
Section BooleanFold.
Import CAD GeometryComputer.
Context (K : Kernel).

Lemma computeOperands_all (rec : Compute K) ids s ms s1 :
  Shape.operandsComputed K rec ids s ms s1 ->
  forall acc, computeOperands K rec ids acc s = Some (inr (acc ++ ms), s1).
Proof.
  induction 1 as [s|operandId rest s g m s1 ms s2 Hrun Hm _ IH]; intros acc; simpl.
  - rewrite app_nil_r. reflexivity.
  - rewrite Hrun. destruct g as [gm ? ? ? ? ? ?]. simpl in Hm. subst gm.
    rewrite IH, <- app_assoc. reflexivity.
Qed.

Lemma operandsComputed_length (rec : Compute K) ids s ms s1 :
  Shape.operandsComputed K rec ids s ms s1 -> length ms = length ids.
Proof. induction 1; simpl; congruence. Qed.

Lemma foldBoolean_leftFold op rest : forall acc n (s : State K),
  foldBoolean K op acc rest (Recompute.countBooleans K n s)
  = (match Recompute.leftFold K op acc rest with
     | Ok m => inr m
     | Err e => inl (createEmptyGeometry K e)
     end,
     Recompute.countBooleans K (Recompute.foldCalls K op acc rest + n) s).
Proof.
  induction rest as [|operand rest IH]; intros acc n s; simpl; [reflexivity |].
  destruct (ManifoldEngine.boolean K acc operand op) as [v|e].
  - change (countBoolean K (Recompute.countBooleans K n s))
      with (Recompute.countBooleans K (S n) s).
    rewrite IH. simpl. rewrite Nat.add_succ_r. reflexivity.
  - reflexivity.
Qed.

End BooleanFold.

(** X7.  A boolean node whose operands all compute with a manifold applies
    its operator from left to right over them in list order:
    [op(... op(op(m0, m1), m2) ..., mn)], one call of
    [manifoldEngine.boolean] per further operand.  The first call that fails
    ends the loop, and the error of the node is the engine's message as it
    is. *)
Theorem boolean_folds_operands_in_order (K : Kernel)
    (rec : GeometryComputer.Compute K) (op : CAD.BooleanOperation)
    (ids : list string) (m0 : Manifold K) (ms : list (Manifold K))
    (s s1 : GeometryComputer.State K) :
  Shape.operandsComputed K rec ids s (m0 :: ms) s1 ->
  2 <= length ids ->
  GeometryComputer.computeBoolean K rec op ids s
  = Some (match Recompute.leftFold K op m0 ms with
          | Ok m => GeometryComputer.manifoldToGeometry K m
          | Err e => Returned (GeometryComputer.createEmptyGeometry K e)
          end,
          Recompute.countBooleans K (Recompute.foldCalls K op m0 ms) s1)
  /\ Recompute.foldCalls K op m0 ms <= length ids - 1.
Proof.
  intros Hops Hlen. split.
  - unfold GeometryComputer.computeBoolean.
    destruct (Nat.ltb_spec (length ids) 2) as [Hlt|_]; [lia |].
    rewrite (computeOperands_all K rec ids s (m0 :: ms) s1 Hops []). simpl.
    pose proof (operandsComputed_length K rec _ _ _ _ Hops) as Hl. simpl in Hl.
    destruct ms as [|m1 ms]; [simpl in Hl; lia |].
    simpl. destruct (ManifoldEngine.boolean K m0 m1 op) as [v|e]; [| reflexivity].
    change (GeometryComputer.countBoolean K s1)
      with (Recompute.countBooleans K 1 s1).
    rewrite foldBoolean_leftFold. rewrite Nat.add_1_r.
    destruct (Recompute.leftFold K op v ms); reflexivity.
  - pose proof (operandsComputed_length K rec _ _ _ _ Hops) as Hl. simpl in Hl.
    assert (Hcalls : forall rest acc,
              Recompute.foldCalls K op acc rest <= length rest).
    { induction rest as [|x rest IH]; intros acc; simpl; [lia |].
      destruct (ManifoldEngine.boolean K acc x op) as [v|e]; [| lia].
      specialize (IH v). lia. }
    specialize (Hcalls ms m0). lia.
Qed.

Lemma boolean_folds_operands_in_order_witness :
  let K := Fixtures.boxKernel in
  let box := Fixtures.boxOf (-1) 1 in
  let boxGeometry :=
    GeometryComputer.mkGeometry K (Some box) (Some tt) (Some tt) (Some tt)
      (Some box) false None in
  let s1 := GeometryComputer.mkState K true ∅ {["box1" := boxGeometry]} 0 in
  GeometryComputer.computeBoolean K
    (GeometryComputer.compute K Fixtures.document 2)
    CAD.OpDifference ["box1"; "box1"] (States.fresh K)
  = Some (Returned boxGeometry, Recompute.countBooleans K 1 s1).
Proof.
  intros K box boxGeometry s1.
  refine (proj1 (boolean_folds_operands_in_order K
                   (GeometryComputer.compute K Fixtures.document 2)
                   CAD.OpDifference ["box1"; "box1"] box [box]
                   (States.fresh K) s1 _ _)).
  - apply (Shape.computed_cons K _ "box1" ["box1"] (States.fresh K)
             boxGeometry box s1 [box] s1);
      [vm_compute; reflexivity | reflexivity |].
    apply (Shape.computed_cons K _ "box1" [] s1 boxGeometry box s1 [] s1);
      [vm_compute; reflexivity | reflexivity |].
    apply Shape.computed_nil.
  - simpl. lia.
Defined.

(** X8.  The boolean of an extrude with its target body fails silently.
    When the target cannot be computed, has no manifold, or the engine
    refuses the operation, [computeExtrude] returns exactly what it returns
    for the same parameters with [booleanOp: 'new']: the standalone
    extrusion, with no error recorded about the target. *)
Theorem extrude_ignores_unusable_target (K : Kernel) (nodes : CAD.Nodes)
    (rec : GeometryComputer.Compute K) (p : CAD.ExtrudeParams)
    (op : CAD.BooleanOperation) (target : string)
    (s s1 : GeometryComputer.State K)
    (r : Result (GeometryComputer.ComputedGeometry K)) :
  GeometryComputer.booleanTarget p = Some (op, target) ->
  rec target s = Some (r, s1) ->
  Shape.operandFailed K r
  \/ (exists g tm, r = Ok g /\ GeometryComputer.manifold K g = Some tm
        /\ forall result, isOk (ManifoldEngine.boolean K tm result op) = false) ->
  exists o s2,
    GeometryComputer.computeExtrude K nodes rec p s = Some (o, s2)
    /\ GeometryComputer.computeExtrude K nodes rec (Recompute.asNew p) s
       = Some (o, s).
Proof.
  intros Htarget Hrun Hbad.
  unfold GeometryComputer.computeExtrude.
  change (CAD.sketchId (Recompute.asNew p)) with (CAD.sketchId p).
  change (CAD.direction (Recompute.asNew p)) with (CAD.direction p).
  change (CAD.distance (Recompute.asNew p)) with (CAD.distance p).
  change (GeometryComputer.booleanTarget (Recompute.asNew p))
    with (@None (CAD.BooleanOperation * string)).
  rewrite Htarget, Hrun.
  destruct (CAD.nodesGet (CAD.sketchId p) nodes) as [[? ? [| | | | |]]|]; eauto.
  destruct profiles as [|profile profiles]; [eauto |].
  destruct (GeometryComputer.extrudeProfiles K _ _ _) as [|first rest]; [eauto |].
  destruct Hbad as [Hfail|(g & tm & -> & Hm & Hop)].
  - destruct r as [[[m|] ? ? ? ? ? ?]|e]; simpl in Hfail; [discriminate | eauto | eauto].
  - destruct g as [gm ? ? ? ? ? ?]. simpl in Hm. subst gm.
    specialize (Hop (GeometryComputer.unionAll K first rest)).
    destruct (ManifoldEngine.boolean K tm _ op); [discriminate | eauto].
Qed.

Lemma extrude_ignores_unusable_target_witness :
  let K := Fixtures.boxKernel in
  let p := CAD.mkExtrudeParams "sketch1" 5 CAD.DirNormal 0
             (CAD.OpBoolean CAD.OpUnion) (Some "box1") in
  exists o s2,
    GeometryComputer.computeExtrude K Fixtures.document
      (GeometryComputer.compute K Fixtures.document 2) p (States.fresh K)
    = Some (o, s2)
    /\ GeometryComputer.computeExtrude K Fixtures.document
         (GeometryComputer.compute K Fixtures.document 2) (Recompute.asNew p)
         (States.fresh K)
       = Some (o, States.fresh K).
Proof.
  intros K p.
  pose (box := Fixtures.boxOf (-1) 1).
  pose (boxGeometry :=
    GeometryComputer.mkGeometry K (Some box) (Some tt) (Some tt) (Some tt)
      (Some box) false None).
  apply (extrude_ignores_unusable_target K Fixtures.document
           (GeometryComputer.compute K Fixtures.document 2) p CAD.OpUnion "box1"
           (States.fresh K)
           (GeometryComputer.mkState K true ∅ {["box1" := boxGeometry]} 0)
           (Ok boxGeometry)).
  - reflexivity.
  - vm_compute. reflexivity.
  - right. exists boxGeometry, box. split; [reflexivity |].
    split; [reflexivity |]. intros result. reflexivity.
Defined.

(** ** Authoring: the mesh reads back as the triangles given *)
Section Authoring.
Import Solid Mesh.

Lemma sameKey_refl p : sameKey p p = true.
Proof.
  destruct p as [[x y] z]. simpl. rewrite !Qeq_bool_refl. reflexivity.
Qed.

Lemma sameKey_sym p q : sameKey p q = true -> sameKey q p = true.
Proof.
  destruct p as [[x y] z], q as [[x' y'] z']. simpl.
  rewrite !andb_true_iff. intros [[H1 H2] H3].
  repeat split; apply Qeq_bool_sym; assumption.
Qed.

Lemma whole_vertices (vp : list Q) j :
  length vp mod 3 = 0 -> j < length vp / 3 -> j * 3 + 2 < length vp.
Proof.
  intros Hmod Hj. pose proof (Nat.div_mod_eq (length vp) 3) as Hdm. lia.
Qed.

Lemma vertexAt_old vp x y z tv ids d m tv' ids' d' m' j :
  length vp mod 3 = 0 -> j < length vp / 3 ->
  vertexAt (mk (vp ++ [x; y; z]) tv ids d m) j = vertexAt (mk vp tv' ids' d' m') j.
Proof.
  intros Hmod Hj. pose proof (whole_vertices vp j Hmod Hj).
  unfold vertexAt, coord. cbn [vertProperties].
  rewrite !app_nth1 by lia. reflexivity.
Qed.

Lemma vertexAt_new vp x y z tv ids d m :
  length vp mod 3 = 0 ->
  vertexAt (mk (vp ++ [x; y; z]) tv ids d m) (length vp / 3) = (x, y, z).
Proof.
  intros Hmod. pose proof (Nat.div_mod_eq (length vp) 3) as Hdm.
  assert (Hlen : length vp / 3 * 3 = length vp) by lia.
  unfold vertexAt, coord. cbn [vertProperties]. rewrite Hlen.
  rewrite (app_nth2 vp _ _ (Nat.le_refl _)), Nat.sub_diag.
  rewrite !app_nth2_plus. reflexivity.
Qed.

Lemma keyGet_stored (s : Solid.t) p n : forall b,
  match keyGet p (map (fun i => (vertexAt s i, i)) (seq b n)) with
  | Some i => b <= i < b + n /\ sameKey (vertexAt s i) p = true
  | None => forall i, b <= i < b + n -> sameKey (vertexAt s i) p = false
  end.
Proof.
  induction n as [|n IH]; intros b; cbn [keyGet map seq]; [intros i Hi; lia |].
  destruct (sameKey (vertexAt s b) p) eqn:E; cbv iota;
    [split; [lia | exact E] |].
  specialize (IH (S b)).
  destruct (keyGet p _) as [i|].
  - destruct IH as [Hi Hk]. split; [lia | exact Hk].
  - intros i Hi. destruct (Nat.eq_dec i b) as [->|Hne]; [exact E |].
    apply IH. lia.
Qed.

(** What one call may do to the solid: vertices are appended only. *)
Local Abbreviation extends a a' :=
  (numVerts (arrays a) <= numVerts (arrays a')
   /\ (forall j, j < numVerts (arrays a) ->
         vertexAt (arrays a') j = vertexAt (arrays a) j)
   /\ triVerts (arrays a') = triVerts (arrays a)
   /\ triIDs (arrays a') = triIDs (arrays a)
   /\ faceNameToID a' = faceNameToID a).

Lemma getPointIndex_welded p a :
  welded a ->
  let '(i, a') := getPointIndex p a in
  welded a' /\ extends a a'
  /\ i < numVerts (arrays a') /\ sameKey (vertexAt (arrays a') i) p = true
  /\ (forall j, j < numVerts (arrays a') -> j < numVerts (arrays a) \/ j = i).
Proof.
  intros (Hmod & Hkeys & Huniq). unfold getPointIndex.
  pose proof (keyGet_stored (arrays a) p (numVerts (arrays a)) 0) as Hget.
  rewrite <- Hkeys in Hget.
  destruct (keyGet p (vertKeyToIndex a)) as [found|].
  - destruct Hget as [Hfound Hsame].
    split; [repeat split; assumption |].
    split; [repeat split; auto |].
    split; [lia |]. split; [exact Hsame |]. intros j Hj. left. exact Hj.
  - destruct a as [[vp tv ids d m] keys faces next]. destruct p as [[x y] z].
    cbn [arrays vertProperties triVerts triIDs dirty hasManifold vertKeyToIndex
         faceNameToID nextID] in *.
    unfold numVerts in *. cbn [vertProperties] in *.
    destruct (numVerts_grow vp x y z Hmod) as [Hmod' Hnum'].
    assert (Hold : forall j, j < length vp / 3 ->
              vertexAt (mk (vp ++ [x; y; z]) tv ids d m) j
              = vertexAt (mk vp tv ids d m) j).
    { intros j Hj. apply vertexAt_old; assumption. }
    pose proof (vertexAt_new vp x y z tv ids d m Hmod) as Hnew.
    split; [unfold welded, numVerts; cbn [arrays vertProperties vertKeyToIndex];
            split; [exact Hmod' | split] |].
    + rewrite Hnum', seq_S, map_app, Hkeys.
      change (0 + length vp / 3) with (length vp / 3). cbn [map].
      rewrite Hnew. f_equal.
      apply map_ext_in. intros j Hj. apply in_seq in Hj.
      rewrite Hold by lia. reflexivity.
    + rewrite Hnum'. intros i j Hi Hj.
      destruct (Nat.eq_dec i (length vp / 3)) as [->|Hi'],
               (Nat.eq_dec j (length vp / 3)) as [->|Hj']; [reflexivity | | |].
      * rewrite Hnew, Hold by lia. intros Hk. apply sameKey_sym in Hk.
        rewrite Hget in Hk by lia. discriminate.
      * rewrite Hnew, Hold by lia. intros Hk.
        rewrite Hget in Hk by lia. discriminate.
      * rewrite !Hold by lia. apply Huniq; lia.
    + split; [repeat split; [lia | exact Hold] |].
      rewrite Hnum'. split; [lia |]. split; [rewrite Hnew; apply sameKey_refl |].
      intros j Hj. lia.
Qed.

Lemma readsBack_extends a a' pts :
  extends a a' -> readsBack (arrays a) pts -> readsBack (arrays a') pts.
Proof.
  intros (Hle & Hold & Htv & _) Hread. unfold readsBack in *. rewrite Htv.
  eapply Forall2_impl; [exact Hread |].
  intros i p [Hi Hk]. split; [lia |]. rewrite Hold by exact Hi. exact Hk.
Qed.

Lemma nameGet_app n m n' id' id :
  nameGet n m = Some id -> nameGet n (m ++ [(n', id')]) = Some id.
Proof.
  induction m as [|[k v] m IH]; simpl; [discriminate |].
  destruct (String.eqb k n); [auto | exact IH].
Qed.

Lemma nameGet_new n m id :
  nameGet n m = None -> nameGet n (m ++ [(n, id)]) = Some id.
Proof.
  induction m as [|[k v] m IH]; simpl.
  - rewrite String.eqb_refl. reflexivity.
  - destruct (String.eqb k n); [discriminate | exact IH].
Qed.

Lemma getOrCreateID_ids faceName a ns :
  idsOf a ns ->
  let '(id, a') := getOrCreateID faceName a in
  arrays a' = arrays a /\ vertKeyToIndex a' = vertKeyToIndex a
  /\ idsOf a' ns /\ nameGet faceName (faceNameToID a') = Some id.
Proof.
  intros Hids. unfold getOrCreateID.
  destruct (nameGet faceName (faceNameToID a)) as [id|] eqn:Hget.
  - repeat split; assumption.
  - split; [reflexivity |]. split; [reflexivity |]. split.
    + unfold idsOf in *. cbn [arrays faceNameToID].
      eapply Forall2_impl; [exact Hids |].
      intros id n Hn. apply nameGet_app, Hn.
    + cbn [faceNameToID]. apply nameGet_new, Hget.
Qed.

Lemma addTriangle_reads_back faceName p0 p1 p2 a a' pts ns :
  welded a -> noOrphans (arrays a) -> readsBack (arrays a) pts -> idsOf a ns ->
  addTriangle true faceName p0 p1 p2 a = Returned a' ->
  welded a' /\ noOrphans (arrays a')
  /\ readsBack (arrays a') (pts ++ [p0; p1; p2]) /\ idsOf a' (ns ++ [faceName]).
Proof.
  intros Hw Hused Hread Hids. unfold addTriangle. simpl negb. cbv iota.
  pose proof (getOrCreateID_ids faceName a ns Hids) as H.
  destruct (getOrCreateID faceName a) as [id a0].
  destruct H as (Harr & Hkeys & Hids0 & Hid).
  assert (Hw0 : welded a0) by (unfold welded in *; rewrite Harr, Hkeys; exact Hw).
  pose proof (getPointIndex_welded p0 a0 Hw0) as H0.
  destruct (getPointIndex p0 a0) as [i0 a1].
  destruct H0 as (Hw1 & E1 & Hi0 & Hk0 & Hn0).
  pose proof (getPointIndex_welded p1 a1 Hw1) as H1.
  destruct (getPointIndex p1 a1) as [i1 a2].
  destruct H1 as (Hw2 & E2 & Hi1 & Hk1 & Hn1).
  pose proof (getPointIndex_welded p2 a2 Hw2) as H2.
  destruct (getPointIndex p2 a2) as [i2 a3].
  destruct H2 as (Hw3 & E3 & Hi2 & Hk2 & Hn2).
  intros [= <-].
  destruct E1 as (L1 & O1 & T1 & I1 & F1), E2 as (L2 & O2 & T2 & I2 & F2),
           E3 as (L3 & O3 & T3 & I3 & F3).
  assert (Hv : forall tv ids d, vertexAt (mk (vertProperties (arrays a3)) tv ids d
                                            (hasManifold (arrays a3)))
                                = vertexAt (arrays a3)) by reflexivity.
  split; [exact Hw3 |]. split; [| split].
  - intros j Hj. cbn [arrays triVerts]. apply in_or_app.
    change (j < numVerts (arrays a3)) in Hj.
    destruct (Hn2 j Hj) as [Hj2| ->]; [| right; simpl; auto].
    destruct (Hn1 j Hj2) as [Hj1| ->]; [| right; simpl; auto].
    destruct (Hn0 j Hj1) as [Hj0| ->]; [| right; simpl; auto].
    left. rewrite T3, T2, T1, Harr. apply Hused. rewrite <- Harr. exact Hj0.
  - unfold readsBack. cbn [arrays triVerts].
    apply Forall2_app.
    + assert (Hread3 : readsBack (arrays a3) pts).
      { apply (readsBack_extends a2 a3); [repeat split; assumption |].
        apply (readsBack_extends a1 a2); [repeat split; assumption |].
        apply (readsBack_extends a0 a1); [repeat split; assumption |].
        rewrite Harr. exact Hread. }
      exact Hread3.
    + change (numVerts (mk (vertProperties (arrays a3)) _ _ _ _))
        with (numVerts (arrays a3)).
      repeat constructor.
      * lia.
      * change (sameKey (vertexAt (arrays a3) i0) p0 = true).
        rewrite O3, O2 by lia. exact Hk0.
      * lia.
      * change (sameKey (vertexAt (arrays a3) i1) p1 = true).
        rewrite O3 by lia. exact Hk1.
      * exact Hi2.
      * exact Hk2.
  - unfold idsOf. cbn [arrays triIDs faceNameToID].
    rewrite I3, I2, I1, F3, F2, F1. apply Forall2_app; [exact Hids0 |].
    repeat constructor. exact Hid.
Qed.

Lemma addTriangle_ready faceName p0 p1 p2 a :
  exists a', addTriangle true faceName p0 p1 p2 a = Returned a'.
Proof.
  unfold addTriangle. simpl negb. cbv iota.
  destruct (getOrCreateID faceName a) as [id a0].
  destruct (getPointIndex p0 a0) as [i0 a1].
  destruct (getPointIndex p1 a1) as [i1 a2].
  destruct (getPointIndex p2 a2) as [i2 a3].
  eexists. reflexivity.
Qed.

Lemma addTriangles_reads_back faces : forall a pts ns,
  welded a -> noOrphans (arrays a) -> readsBack (arrays a) pts -> idsOf a ns ->
  let a' := addTriangles faces a in
  welded a' /\ noOrphans (arrays a')
  /\ readsBack (arrays a') (pts ++ given faces) /\ idsOf a' (ns ++ names faces).
Proof.
  induction faces as [|[faceName [[p0 p1] p2]] rest IH]; intros a pts ns Hw Hu Hr Hi.
  - simpl. rewrite !app_nil_r. auto.
  - simpl.
    destruct (addTriangle_ready faceName p0 p1 p2 a) as [a' Hadd]. rewrite Hadd.
    destruct (addTriangle_reads_back _ _ _ _ _ _ _ _ Hw Hu Hr Hi Hadd)
      as (Hw' & Hu' & Hr' & Hi').
    specialize (IH a' _ _ Hw' Hu' Hr' Hi'). simpl in IH.
    rewrite <- !app_assoc in IH. exact IH.
Qed.

Lemma empty_welded : welded empty /\ noOrphans (arrays empty).
Proof.
  split; [split; [reflexivity | split; [reflexivity |]] |].
  - intros i j Hi. unfold numVerts in Hi. simpl in Hi. lia.
  - intros i Hi. unfold numVerts in Hi. simpl in Hi. lia.
Qed.

Lemma readsBack_corners s pts :
  readsBack s pts ->
  Forall2 (fun corner p => sameKey corner p = true) (corners s) pts.
Proof.
  unfold readsBack, corners. generalize (triVerts s). intros tv Hread.
  induction Hread as [|i p tv' pts' [_ Hk] _ IH]; simpl; constructor; assumption.
Qed.

Lemma readsBack_bound s pts i :
  readsBack s pts -> In i (triVerts s) -> i < numVerts s.
Proof.
  unfold readsBack. generalize (triVerts s). intros tv Hread Hi.
  induction Hread as [|k p tv' pts' [Hk _] _ IH]; [destruct Hi |].
  destruct Hi as [<-|Hi]; [exact Hk | apply IH, Hi].
Qed.

Lemma length_given faces : length (given faces) = 3 * length faces.
Proof.
  induction faces as [|[n [[p0 p1] p2]] rest IH]; simpl; [reflexivity |].
  rewrite IH. lia.
Qed.

End Authoring.

(** X9.  A solid built by [addTriangle] calls reads back as the triangles
    it was given: the three indices stored for each call point, in order,
    at vertices with the coordinates of the three points of that call; and
    one face id is stored per triangle, the id registered under the face
    name of its call. *)
Theorem authored_mesh_reads_back
    (faces : list (string * (Solid.Point * Solid.Point * Solid.Point))) :
  let a := Solid.addTriangles faces Solid.empty in
  Forall2 (fun corner p => Solid.sameKey corner p = true)
    (Mesh.corners (Solid.arrays a)) (Mesh.given faces)
  /\ Forall2 (fun id n => Solid.nameGet n (Solid.faceNameToID a) = Some id)
       (Solid.triIDs (Solid.arrays a)) (Mesh.names faces)
  /\ length (Solid.triVerts (Solid.arrays a)) = 3 * length faces
  /\ length (Solid.triIDs (Solid.arrays a)) = length faces.
Proof.
  intros a.
  destruct empty_welded as [Hw Hu].
  destruct (addTriangles_reads_back faces Solid.empty [] [] Hw Hu)
    as (_ & _ & Hread & Hids); [constructor | constructor |].
  fold a in Hread, Hids. simpl in Hread, Hids.
  pose proof (length_given faces) as Hgiven.
  split; [| split; [exact Hids | split]].
  - apply readsBack_corners, Hread.
  - rewrite <- Hgiven. eapply Forall2_length, Hread.
  - unfold Mesh.idsOf in Hids. rewrite (Forall2_length _ _ _ Hids).
    apply length_map.
Qed.

(** X10.  [_getPointIndex] welds: in a solid built by [addTriangle] calls
    no two stored vertices have the same coordinates, every stored vertex
    is a corner of some triangle, and every index of [triVerts] names a
    stored vertex. *)
Theorem authored_vertices_are_welded
    (faces : list (string * (Solid.Point * Solid.Point * Solid.Point))) :
  let s := Solid.arrays (Solid.addTriangles faces Solid.empty) in
  (forall i j, i < Solid.numVerts s -> j < Solid.numVerts s ->
     Solid.sameKey (Mesh.vertexAt s i) (Mesh.vertexAt s j) = true -> i = j)
  /\ (forall i, i < Solid.numVerts s -> In i (Solid.triVerts s))
  /\ (forall i, In i (Solid.triVerts s) -> i < Solid.numVerts s)
  /\ length (Solid.vertProperties s) = 3 * Solid.numVerts s.
Proof.
  intros s.
  destruct empty_welded as [Hw Hu].
  destruct (addTriangles_reads_back faces Solid.empty [] [] Hw Hu)
    as ((Hmod & _ & Huniq) & Hused & Hread & _); [constructor | constructor |].
  fold s in Hmod, Huniq, Hused, Hread.
  split; [exact Huniq |]. split; [exact Hused |]. split.
  - intros i Hi. eapply readsBack_bound; eassumption.
  - unfold Solid.numVerts.
    pose proof (Nat.div_mod_eq (length (Solid.vertProperties s)) 3). lia.
Qed.

(** ** Building a solid only rewinds its triangles *)
Section Rewinding.
Import Solid Mesh.

Lemma triAt_skip i0 i1 i2 tv k : triAt (i0 :: i1 :: i2 :: tv) (S k) = triAt tv k.
Proof. reflexivity. Qed.

Lemma trisOf_chunks s : trisOf s = chunks (triVerts s).
Proof.
  unfold trisOf, triCount. generalize (triVerts s). intros tv.
  induction tv as [| | |i0 i1 i2 tv IH] using list_ind_by3; try reflexivity.
  change (length (i0 :: i1 :: i2 :: tv)) with (1 * 3 + length tv).
  rewrite Nat.div_add_l by lia.
  change (1 + length tv / 3) with (S (length tv / 3)).
  cbn [seq map chunks]. f_equal.
  rewrite <- seq_shift, map_map, <- IH. apply map_ext. intros k. apply triAt_skip.
Qed.

Lemma chunks_flipAll tv : chunks (flipAll tv) = map flip (chunks tv).
Proof.
  induction tv as [| | |i0 i1 i2 tv IH] using list_ind_by3; try reflexivity.
  simpl. rewrite IH. reflexivity.
Qed.

Lemma length_flipAll tv : length (flipAll tv) = length tv.
Proof.
  induction tv as [| | |i0 i1 i2 tv IH] using list_ind_by3; try reflexivity.
  simpl. rewrite IH. reflexivity.
Qed.

Lemma chunks_writeBack ts : chunks (writeBack ts) = ts.
Proof.
  induction ts as [|[[i0 i1] i2] ts IH]; [reflexivity |].
  simpl. rewrite IH. reflexivity.
Qed.

Lemma length_writeBack ts : length (writeBack ts) = 3 * length ts.
Proof.
  induction ts as [|[[i0 i1] i2] ts IH]; [reflexivity |].
  simpl. rewrite IH. lia.
Qed.

Lemma flip_flip tri : flip (flip tri) = tri.
Proof. destruct tri as [[i0 i1] i2]. reflexivity. Qed.

Lemma sameOrFlipped_refl tri : sameOrFlipped tri tri.
Proof. left. reflexivity. Qed.

Lemma sameOrFlipped_flip tri tri' :
  sameOrFlipped tri tri' -> sameOrFlipped tri (flip tri').
Proof. intros [->| ->]; [right; reflexivity | left; apply flip_flip]. Qed.

Lemma sameOrFlipped_trans t1 t2 t3 :
  sameOrFlipped t1 t2 -> sameOrFlipped t2 t3 -> sameOrFlipped t1 t3.
Proof.
  intros H12 [->| ->]; [exact H12 | apply sameOrFlipped_flip, H12].
Qed.

Local Abbreviation rewound := (Forall2 sameOrFlipped).

Lemma rewound_refl ts : rewound ts ts.
Proof. induction ts; constructor; [apply sameOrFlipped_refl | assumption]. Qed.

Lemma rewound_flip ts : rewound ts (map flip ts).
Proof. induction ts; simpl; constructor; [right; reflexivity | assumption]. Qed.

Lemma flipAt_rewound ts0 ts n : rewound ts0 ts -> rewound ts0 (flipAt n ts).
Proof.
  intros H. unfold flipAt.
  destruct (ts !! n) as [[[i0 i1] i2]|] eqn:E; [| exact H].
  apply Forall2_same_length_lookup in H as [Hlen H].
  apply Forall2_same_length_lookup. split; [rewrite length_insert; exact Hlen |].
  intros i x y Hx Hy. destruct (decide (n = i)) as [->|Hne].
  - rewrite list_lookup_insert_eq in Hy by (eapply lookup_lt_Some, E).
    injection Hy as <-.
    apply (sameOrFlipped_flip x (i0, i1, i2)), (H i); assumption.
  - rewrite list_lookup_insert_ne in Hy by exact Hne. eapply H; eassumption.
Qed.

Lemma visitAdj_rewound ts0 t a b adj : forall st,
  rewound ts0 (tris st) -> rewound ts0 (tris (visitAdj t a b adj st)).
Proof.
  induction adj as [|entry rest IH]; intros st H; simpl; [exact H |].
  destruct ((use_tri entry =? t) || isVisited (visited st) (use_tri entry));
    [apply IH, H |].
  apply IH. simpl.
  destruct ((use_a entry =? a) && (use_b entry =? b));
    [apply flipAt_rewound, H | exact H].
Qed.

Lemma visitEdge_rewound ts0 und nv t tri e st :
  rewound ts0 (tris st) -> rewound ts0 (tris (visitEdge und nv t tri e st)).
Proof.
  intros H. unfold visitEdge.
  destruct (EdgeMap.get _ und) as [adj|]; [| exact H].
  destruct (length adj <? 2); [exact H | apply visitAdj_rewound, H].
Qed.

Lemma processTri_rewound ts0 und nv t st :
  rewound ts0 (tris st) -> rewound ts0 (tris (processTri und nv t st)).
Proof.
  intros H. unfold processTri. simpl.
  repeat apply visitEdge_rewound. exact H.
Qed.

Lemma drain_rewound ts0 und nv fuel : forall st st',
  drain und nv fuel st = Some st' ->
  rewound ts0 (tris st) -> rewound ts0 (tris st').
Proof.
  induction fuel as [|fuel IH]; intros st st'; simpl;
    destruct (stack st) as [|t rest]; try discriminate;
    try (intros [= <-]; auto; fail).
  intros Hrun H. apply (IH _ _ Hrun). apply processTri_rewound. exact H.
Qed.

Lemma seedLoop_rewound ts0 und nv fuel seeds : forall st st',
  seedLoop und nv fuel seeds st = Some st' ->
  rewound ts0 (tris st) -> rewound ts0 (tris st').
Proof.
  induction seeds as [|seed seeds IH]; intros st st'; simpl;
    [intros [= <-]; auto |].
  destruct (isVisited (visited st) seed); [apply IH |].
  destruct (drain und nv fuel _) as [st1|] eqn:Hdrain; [| discriminate].
  intros Hrun H. apply (IH _ _ Hrun).
  apply (drain_rewound ts0 _ _ _ _ _ Hdrain). exact H.
Qed.

(** The parts of a solid that no step of building touches, and the
    triangles up to their winding. *)
Local Abbreviation rewinds s s' :=
  (vertProperties s' = vertProperties s /\ triIDs s' = triIDs s
   /\ rewound (trisOf s) (trisOf s')
   /\ (length (triVerts s) mod 3 = 0 ->
       length (triVerts s') = length (triVerts s))).

Lemma rewinds_refl s : rewinds s s.
Proof. repeat split; auto. apply rewound_refl. Qed.

Lemma fixTriangleWindingsByAdjacency_rewinds s r :
  fixTriangleWindingsByAdjacency s = Some r ->
  rewinds s r /\ hasManifold r = hasManifold s.
Proof.
  unfold fixTriangleWindingsByAdjacency.
  destruct (isCoherentlyOrientedManifold s);
    [intros [= <-]; split; [apply rewinds_refl | reflexivity] |].
  destruct (triCount s =? 0);
    [intros [= <-]; split; [apply rewinds_refl | reflexivity] |].
  destruct (seedLoop _ _ _ _ _) as [st|] eqn:Hloop; [| discriminate].
  intros [= <-]. split; [| reflexivity].
  pose proof (seedLoop_rewound (trisOf s) _ _ _ _ _ _ Hloop (rewound_refl _)) as H.
  split; [reflexivity |]. split; [reflexivity |]. split.
  - rewrite (trisOf_chunks (mk _ _ _ _ _)). cbn [triVerts].
    rewrite chunks_writeBack. exact H.
  - intros Hmod. cbn [triVerts]. rewrite length_writeBack.
    rewrite <- (Forall2_length _ _ _ H), length_trisOf. unfold triCount.
    pose proof (Nat.div_mod_eq (length (triVerts s)) 3). lia.
Qed.

Lemma orientOutward_rewinds s :
  rewinds s (orientOutward s)
  /\ hasManifold (orientOutward s) = hasManifold s
  /\ dirty (orientOutward s) = dirty s.
Proof.
  unfold orientOutward. destruct (Qlt_le_dec (computeSignedVolume s) 0);
    [| split; [apply rewinds_refl | split; reflexivity]].
  split; [| split; reflexivity].
  split; [reflexivity |]. split; [reflexivity |]. split.
  - rewrite (trisOf_chunks (mk _ _ _ _ _)), trisOf_chunks. cbn [triVerts].
    rewrite chunks_flipAll. apply rewound_flip.
  - intros _. cbn [triVerts]. apply length_flipAll.
Qed.

Lemma rewinds_trans s1 s2 s3 : rewinds s1 s2 -> rewinds s2 s3 -> rewinds s1 s3.
Proof.
  intros (V12 & I12 & R12 & L12) (V23 & I23 & R23 & L23).
  split; [congruence |]. split; [congruence |]. split.
  - eapply Forall2_trans; [| exact R12 | exact R23].
    intros x y z. apply sameOrFlipped_trans.
  - intros Hmod. rewrite L23, L12; auto. rewrite L12; auto.
Qed.

End Rewinding.

(** X11.  Building a solid ([_manifoldize]) returns or throws, and all it
    does to the mesh is rewind triangles: the vertices and the face ids are
    as before, there are as many triangles, and every triangle is the one
    it was or that one with its second and third index swapped.  Once the
    manifold has been built, further calls return it without rebuilding. *)
Theorem manifoldize_only_rewinds (moduleReady : bool)
    (newManifold : Solid.t -> Outcome unit) (s : Solid.t) :
  length (Solid.triVerts s) mod 3 = 0 ->
  exists s' o,
    Solid.manifoldize moduleReady newManifold s = Some (s', o)
    /\ Solid.vertProperties s' = Solid.vertProperties s
    /\ Solid.triIDs s' = Solid.triIDs s
    /\ length (Solid.triVerts s') = length (Solid.triVerts s)
    /\ Forall2 Mesh.sameOrFlipped (Solid.trisOf s) (Solid.trisOf s')
    /\ (o = Returned tt ->
        forall moduleReady' newManifold',
          Solid.manifoldize moduleReady' newManifold' s' = Some (s', Returned tt)).
Proof.
  intros Hmod. unfold Solid.manifoldize.
  destruct (negb (Solid.dirty s) && Solid.hasManifold s) eqn:Hbuilt.
  { exists s, (Returned tt). split; [reflexivity |].
    destruct (rewinds_refl s) as (V & I & R & L).
    repeat split; auto. intros _ r' nm'. rewrite Hbuilt. reflexivity. }
  destruct (negb moduleReady).
  { eexists s, _. split; [reflexivity |].
    destruct (rewinds_refl s) as (V & I & R & L).
    repeat split; auto. discriminate. }
  destruct (Solid.triCount s =? 0).
  { eexists s, _. split; [reflexivity |].
    destruct (rewinds_refl s) as (V & I & R & L).
    repeat split; auto. discriminate. }
  destruct (fixTriangleWindingsByAdjacency_total s) as (r & Hr & _).
  rewrite Hr.
  destruct (fixTriangleWindingsByAdjacency_rewinds s r Hr) as [Hsr _].
  destruct (orientOutward_rewinds r) as (Hro & _ & _).
  destruct (rewinds_trans _ _ _ Hsr Hro) as (V & I & R & L).
  destruct (newManifold (Solid.orientOutward r)) as [u|e].
  - eexists _, _. split; [reflexivity |]. cbn [Solid.vertProperties Solid.triIDs Solid.triVerts].
    split; [exact V |]. split; [exact I |]. split; [exact (L Hmod) |]. split.
    + rewrite (trisOf_chunks (Solid.mk _ _ _ _ _)). cbn [Solid.triVerts].
      rewrite <- trisOf_chunks. exact R.
    + intros _ r' nm'. reflexivity.
  - eexists _, _. split; [reflexivity |].
    split; [exact V |]. split; [exact I |]. split; [exact (L Hmod) |].
    split; [exact R | discriminate].
Qed.

Lemma manifoldize_only_rewinds_witness :
  let s := Samples.twoShells in
  exists s' o,
    Solid.manifoldize true Samples.accept s = Some (s', o)
    /\ Solid.vertProperties s' = Solid.vertProperties s
    /\ Solid.triIDs s' = Solid.triIDs s
    /\ length (Solid.triVerts s') = length (Solid.triVerts s)
    /\ Forall2 Mesh.sameOrFlipped (Solid.trisOf s) (Solid.trisOf s')
    /\ (o = Returned tt ->
        forall moduleReady' newManifold',
          Solid.manifoldize moduleReady' newManifold' s' = Some (s', Returned tt)).
Proof.
  intros s. apply (manifoldize_only_rewinds true Samples.accept s). reflexivity.
Defined.

(** ** The outward flip keeps a coherent mesh coherent *)
Section FlipCoherence.
Import Solid Mesh.

Local Abbreviation swap := (fun e : nat * nat => (snd e, fst e)).

Lemma sameUndirected_swap e v :
  sameUndirected (swap e) (swap v) = sameUndirected e v.
Proof.
  unfold sameUndirected. simpl.
  rewrite (andb_comm (snd e =? snd v)), (andb_comm (snd e =? fst v)).
  reflexivity.
Qed.

Lemma filter_Permutation' {A} (f : A -> bool) l l' :
  Permutation l l' -> Permutation (List.filter f l) (List.filter f l').
Proof.
  induction 1 as [|x l l' _ IH|x y l|l l' l'' _ IH1 _ IH2]; simpl.
  - constructor.
  - destruct (f x); [constructor |]; exact IH.
  - destruct (f x), (f y); try reflexivity. constructor.
  - etransitivity; eassumption.
Qed.

Lemma triEdges_flip tri :
  Permutation (triEdges (flip tri)) (map swap (triEdges tri)).
Proof.
  destruct tri as [[i0 i1] i2]. simpl.
  apply (Permutation_sym (Permutation_rev [(i1, i0); (i2, i1); (i0, i2)])).
Qed.

Lemma directedEdges_flipAll s :
  Permutation (directedEdges (withTriVerts (flipAll (triVerts s)) s))
    (map swap (directedEdges s)).
Proof.
  unfold directedEdges. rewrite !trisOf_chunks. cbn [withTriVerts triVerts].
  rewrite chunks_flipAll.
  induction (chunks (triVerts s)) as [|tri ts IH]; simpl; [constructor |].
  rewrite map_app. apply Permutation_app; [apply triEdges_flip | exact IH].
Qed.

Lemma coherentSpec_swapped s s' :
  Permutation (directedEdges s') (map swap (directedEdges s)) ->
  coherentSpec s -> coherentSpec s'.
Proof.
  intros Hperm Hs e' He'.
  apply (Permutation_in _ Hperm) in He'.
  apply in_map_iff in He' as (e & <- & He).
  destruct (Hs e He) as (a & b & Huses).
  assert (Hp : Permutation [(b, a); (a, b)] (usesOf s' (swap e))).
  { unfold usesOf. symmetry.
    etransitivity; [apply filter_Permutation', Hperm |].
    rewrite filter_map_swap.
    rewrite (List.filter_ext _ (sameUndirected e))
      by (intros v; apply sameUndirected_swap).
    unfold usesOf in Huses. rewrite Huses. reflexivity. }
  apply Permutation_length_2_inv in Hp as [-> | ->]; eauto.
Qed.

Lemma map_swap_swap (l : list (nat * nat)) : map swap (map swap l) = l.
Proof.
  rewrite map_map. rewrite <- (map_id l) at 2. apply map_ext.
  intros [a b]. reflexivity.
Qed.

Lemma wellFormed_flipAll s :
  wellFormed s -> wellFormed (withTriVerts (flipAll (triVerts s)) s).
Proof.
  unfold wellFormed, numVerts. cbn [withTriVerts vertProperties triVerts].
  generalize (length (vertProperties s) / 3). intros n.
  induction (triVerts s) as [| | |i0 i1 i2 tv IH] using list_ind_by3; auto.
  intros H. inversion_clear H as [|? ? H0 H']. inversion_clear H' as [|? ? H1 H''].
  inversion_clear H'' as [|? ? H2 H3]. simpl. auto.
Qed.

Lemma isCoherent_flipAll s :
  wellFormed s ->
  isCoherentlyOrientedManifold (withTriVerts (flipAll (triVerts s)) s)
  = isCoherentlyOrientedManifold s.
Proof.
  intros Hwf. set (s' := withTriVerts (flipAll (triVerts s)) s).
  assert (Hcount : triCount s' = triCount s).
  { unfold triCount, s'. cbn [withTriVerts triVerts]. rewrite length_flipAll.
    reflexivity. }
  destruct (Nat.eq_dec (triCount s) 0) as [Hz|Hnz].
  { unfold isCoherentlyOrientedManifold. rewrite Hcount, Hz. reflexivity. }
  pose proof (wellFormed_flipAll s Hwf) as Hwf'. fold s' in Hwf'.
  pose proof (directedEdges_flipAll s) as Hperm. fold s' in Hperm.
  assert (Hiff : coherentSpec s' <-> coherentSpec s).
  { split; [| apply coherentSpec_swapped, Hperm].
    apply coherentSpec_swapped.
    rewrite <- (map_swap_swap (directedEdges s)).
    apply Permutation_map. symmetry. exact Hperm. }
  pose proof (isCoherent_spec s Hwf ltac:(lia)) as Hs.
  pose proof (isCoherent_spec s' Hwf' ltac:(lia)) as Hs'.
  destruct (isCoherentlyOrientedManifold s), (isCoherentlyOrientedManifold s');
    try reflexivity.
  - assert (Habs : false = true) by (apply Hs', Hiff, Hs; reflexivity).
    discriminate Habs.
  - assert (Habs : false = true) by (apply Hs, Hiff, Hs'; reflexivity).
    discriminate Habs.
Qed.

End FlipCoherence.

(** X12.  The flip of all triangles that makes the signed volume positive
    does not change the answer of the coherence check: on a mesh whose
    indices name stored vertices, [_isCoherentlyOrientedManifold] answers
    after the flip what it answered before.  So a mesh the repair left
    coherent is handed to the kernel coherent. *)
Theorem outward_flip_keeps_coherence (s : Solid.t) :
  Solid.wellFormed s ->
  length (Solid.triVerts s) mod 3 = 0 ->
  Solid.isCoherentlyOrientedManifold (Solid.orientOutward s)
  = Solid.isCoherentlyOrientedManifold s
  /\ Solid.wellFormed (Solid.orientOutward s)
  /\ length (Solid.triVerts (Solid.orientOutward s)) = length (Solid.triVerts s).
Proof.
  intros Hwf Hmod. unfold Solid.orientOutward.
  destruct (Qlt_le_dec (Solid.computeSignedVolume s) 0); [| auto].
  split; [apply (isCoherent_flipAll s Hwf) |].
  split; [apply (wellFormed_flipAll s Hwf) | apply length_flipAll].
Qed.

Lemma outward_flip_keeps_coherence_witness :
  Solid.isCoherentlyOrientedManifold (Solid.orientOutward Samples2.inwardTetra)
  = Solid.isCoherentlyOrientedManifold Samples2.inwardTetra
  /\ Solid.wellFormed (Solid.orientOutward Samples2.inwardTetra)
  /\ length (Solid.triVerts (Solid.orientOutward Samples2.inwardTetra))
     = length (Solid.triVerts Samples2.inwardTetra).
Proof.
  apply (outward_flip_keeps_coherence Samples2.inwardTetra).
  - unfold Solid.wellFormed. simpl. repeat constructor; vm_compute; lia.
  - reflexivity.
Defined.

(** ** What a [compute] leaves alone *)
Section Frame.
Import CAD GeometryComputer.
Context (K : Kernel) (nodes : Nodes) (k : string).

Local Abbreviation keeps s s' := (cache K s' !! k = cache K s !! k).

Section Methods.
Context (rec : Compute K) (allowed : string -> Prop).
Context (Hrec : forall x s r s', allowed x -> rec x s = Some (r, s') -> keeps s s').

Lemma computeOperands_keeps operandIds :
  (forall x, In x operandIds -> allowed x) ->
  forall acc s x s',
    computeOperands K rec operandIds acc s = Some (x, s') -> keeps s s'.
Proof.
  induction operandIds as [|operandId rest IH]; intros Hall acc s x s'; simpl.
  - intros [= <- <-]. reflexivity.
  - destruct (rec operandId s) as [[r s1]|] eqn:Hr; [| discriminate].
    pose proof (Hrec _ _ _ _ (Hall _ (or_introl eq_refl)) Hr) as Hs1.
    destruct r as [[[m|] ? ? ? ? ? ?]|e]; try (intros [= <- <-]; exact Hs1).
    intros H. rewrite <- Hs1.
    eapply IH; [| exact H]. intros y Hy. apply Hall. right. exact Hy.
Qed.

Lemma dispatch_keeps node s o s' :
  (forall x, In x (Recompute.callsOf node) -> allowed x) ->
  dispatch K nodes rec node s = Some (o, s') -> keeps s s'.
Proof.
  unfold dispatch, Recompute.callsOf. destruct (body node); intros Hall.
  - intros [= <- <-]. reflexivity.
  - unfold computeBoolean. destruct (length operandIds <? 2).
    + intros [= <- <-]. reflexivity.
    + destruct (computeOperands K rec operandIds [] s) as [[x s1]|] eqn:Hops;
        [| discriminate].
      pose proof (computeOperands_keeps _ Hall _ _ _ _ Hops) as Hs1.
      destruct x as [early|[|first rest]]; try (intros [= <- <-]; exact Hs1).
      destruct (foldBoolean K op first rest s1) as [y s2] eqn:Hfold.
      pose proof (foldBoolean_cache K _ _ _ _ _ _ Hfold) as Hc.
      destruct y; intros [= <- <-]; rewrite Hc; exact Hs1.
  - intros [= <- <-]. reflexivity.
  - unfold computeExtrude.
    destruct (nodesGet (sketchId params) nodes) as [[? ? []]|];
      try (intros [= <- <-]; reflexivity).
    destruct profiles; [intros [= <- <-]; reflexivity |].
    destruct (extrudeProfiles K _ _ _); [intros [= <- <-]; reflexivity |].
    destruct (booleanTarget params) as [[op target]|];
      [| intros [= <- <-]; reflexivity].
    destruct (rec target s) as [[r s1]|] eqn:Hr; [| discriminate].
    pose proof (Hrec _ _ _ _ (Hall _ (or_introl eq_refl)) Hr) as Hs1.
    destruct r as [[[tm|] ? ? ? ? ? ?]|e]; try (intros [= <- <-]; exact Hs1).
    destruct (ManifoldEngine.boolean K tm _ op); intros [= <- <-]; exact Hs1.
  - unfold computeRevolve.
    destruct (nodesGet (rev_sketchId params) nodes) as [[? ? []]|];
      try (intros [= <- <-]; reflexivity).
    destruct profiles; [intros [= <- <-]; reflexivity |].
    destruct (revolveProfiles K _ _); intros [= <- <-]; reflexivity.
  - intros [= <- <-]. reflexivity.
Qed.

End Methods.

Lemma compute_keeps fuel : forall y s r s',
  compute K nodes fuel y s = Some (r, s') ->
  ~ Recompute.reachable nodes y k -> keeps s s'.
Proof.
  induction fuel as [|fuel IH]; intros y s0 r s'; [discriminate |].
  simpl. unfold computeBody.
  set (afterInit := if initialized K s0 then Ok s0 else _).
  assert (Hinit : match afterInit with
                  | Ok s => cache K s = cache K s0
                  | Err _ => True
                  end).
  { unfold afterInit. destruct (initialized K s0); [reflexivity |].
    destruct (engineInitialize K); [reflexivity | exact I]. }
  destruct afterInit as [s|e]; [| intros [= <- <-]; reflexivity].
  rewrite <- Hinit.
  case_bool_decide as Hin; [intros [= <- <-]; reflexivity |].
  destruct (nodesGet y nodes) as [node|] eqn:Hnode; [| intros [= <- <-]; reflexivity].
  destruct (cachedClean K y s) as [cached|]; [intros [= <- <-]; reflexivity |].
  destruct (dispatch K nodes _ node (computingAdd K y s)) as [[o s1]|] eqn:Hd;
    [| discriminate].
  intros Hrun Hk.
  assert (Hs1 : cache K s1 !! k = cache K s !! k).
  { apply (dispatch_keeps (compute K nodes fuel)
             (fun x => ~ Recompute.reachable nodes x k)
             (fun x s r s' Hx Hr => IH x s r s' Hr Hx) node _ _ _) in Hd;
      [exact Hd |].
    intros x Hx Hxk. apply Hk.
    eapply Relation_Operators.rt_trans; [| exact Hxk].
    apply Relation_Operators.rt_step. exists node. split; assumption. }
  assert (Hne : y <> k).
  { intros ->. apply Hk, Relation_Operators.rt_refl. }
  destruct o as [g|e]; injection Hrun as <- <-; simpl;
    rewrite lookup_insert_ne by exact Hne; exact Hs1.
Qed.

End Frame.

(** X13.  A [compute] leaves the cache entries of unrelated nodes alone:
    it can only write the entry of its own node and of the nodes reached
    from it through nested calls, which are the operands of booleans and
    the target bodies of extrudes.  (The sketch of an extrude or revolve
    is read, not computed.) *)
Theorem compute_leaves_unrelated_entries (K : Kernel) (nodes : CAD.Nodes)
    (fuel : nat) (nodeId k : string) (s s' : GeometryComputer.State K)
    (r : Result (GeometryComputer.ComputedGeometry K)) :
  GeometryComputer.compute K nodes fuel nodeId s = Some (r, s') ->
  ~ Recompute.reachable nodes nodeId k ->
  GeometryComputer.cache K s' !! k = GeometryComputer.cache K s !! k.
Proof. intros Hrun Hk. eapply compute_keeps; eassumption. Qed.

Lemma sketch1_not_computed_by_symmetric10 :
  ~ Recompute.reachable Fixtures.document "symmetric10" "sketch1".
Proof.
  assert (Hall : forall x, Recompute.reachable Fixtures.document "symmetric10" x ->
                   x = "symmetric10").
  { intros x Hx. apply Operators_Properties.clos_rt_rtn1 in Hx.
    induction Hx as [|y z (node & Hnode & Hin) _ IH]; [reflexivity |].
    subst y. vm_compute in Hnode. injection Hnode as <-.
    destruct Hin. }
  intros Hx. apply Hall in Hx. discriminate Hx.
Qed.

Lemma compute_leaves_unrelated_entries_witness :
  let K := Fixtures.boxKernel in
  let s := States.staleAt K "sketch1" in
  let out := default (Err "none", States.fresh K)
               (GeometryComputer.compute K Fixtures.document 13 "symmetric10" s) in
  GeometryComputer.cache K (snd out) !! "sketch1"
  = GeometryComputer.cache K s !! "sketch1".
Proof.
  intros K s out.
  apply (compute_leaves_unrelated_entries K Fixtures.document 13 "symmetric10"
           "sketch1" s (snd out) (fst out)).
  - vm_compute. reflexivity.
  - exact sketch1_not_computed_by_symmetric10.
Defined.

(** X14.  After [markDirtyWithDependents(x)], a [compute] of a node outside
    the dependents of [x] is answered from the cache with the geometry it
    had.  An extrude whose target body is [x] is such a node: it keeps the
    geometry cut from the old target until something else invalidates it. *)
Theorem unrelated_nodes_are_served_stale (K : Kernel) (nodes : CAD.Nodes)
    (fuel fuel' : nat) (x y : string) (node : CAD.CADNode)
    (s : GeometryComputer.State K)
    (c' : gmap string (GeometryComputer.ComputedGeometry K))
    (g : GeometryComputer.ComputedGeometry K) :
  GeometryComputer.markDirtyWithDependents K nodes fuel x
    (GeometryComputer.cache K s) = Some c' ->
  ~ Shape.dependsOn nodes y x ->
  GeometryComputer.initialized K s = true ->
  y ∉ GeometryComputer.computing K s ->
  CAD.nodesGet y nodes = Some node ->
  GeometryComputer.cache K s !! y = Some g ->
  GeometryComputer.dirty K g = false ->
  let s1 := GeometryComputer.mkState K (GeometryComputer.initialized K s)
              (GeometryComputer.computing K s) c'
              (GeometryComputer.booleanCalls K s) in
  GeometryComputer.compute K nodes (S fuel') y s1 = Some (Ok g, s1).
Proof.
  intros Hmark Hdep Hinit Hnot Hnode Hg Hd s1.
  apply (compute_hit K nodes fuel' y node s1 g); try assumption.
  unfold s1. simpl.
  rewrite (markDirtyWithDependents_spares K nodes y fuel x _ c' Hmark Hdep).
  exact Hg.
Qed.

Lemma unrelated_nodes_are_served_stale_witness :
  let K := Fixtures.boxKernel in
  let clean := GeometryComputer.mkGeometry K None None None None None false None in
  let c' : gmap string (GeometryComputer.ComputedGeometry K) :=
    <["pocket" := clean]> (<["box1" := GeometryComputer.setDirty K clean]> ∅) in
  let s1 := GeometryComputer.mkState K true ∅ c' 0 in
  GeometryComputer.compute K Fixtures2.withTarget 1 "pocket" s1
  = Some (Ok clean, s1).
Proof.
  intros K clean c' s1.
  pose (node := CAD.mkNode "pocket" "pocket"
                  (CAD.Extrude (CAD.mkExtrudeParams "sketch1" 5 CAD.DirNormal 0
                                  (CAD.OpBoolean CAD.OpDifference) (Some "box1")))).
  apply (unrelated_nodes_are_served_stale K Fixtures2.withTarget 3 0 "box1"
           "pocket" node
           (GeometryComputer.mkState K true ∅
              (<["pocket" := clean]> (<["box1" := clean]> ∅)) 0)
           c' clean).
  - vm_compute. reflexivity.
  - exact pocket_independent_of_box1.
  - reflexivity.
  - apply not_elem_of_empty.
  - reflexivity.
  - reflexivity.
  - reflexivity.
Defined.

(** ** The repair keeps the winding of the first triangle *)
Section Reference.
Import Solid Mesh.

(** Triangle 0 has been visited and is as it was. *)
Local Abbreviation anchored ts0 st :=
  (isVisited (visited st) 0 = true /\ tris st !! 0 = ts0 !! 0).

Lemma isVisited_insert_ne v n m :
  n <> m -> isVisited (<[n := true]> v) m = isVisited v m.
Proof.
  intros Hne. unfold isVisited. rewrite list_lookup_insert_ne by exact Hne.
  reflexivity.
Qed.

Lemma flipAt_other n m ts : n <> m -> flipAt n ts !! m = ts !! m.
Proof.
  intros Hne. unfold flipAt. destruct (ts !! n) as [[[i0 i1] i2]|]; [| reflexivity].
  apply list_lookup_insert_ne, Hne.
Qed.

Lemma visitAdj_anchored (ts0 : list Tri) t a b adj : forall st,
  anchored ts0 st -> anchored ts0 (visitAdj t a b adj st).
Proof.
  induction adj as [|entry rest IH]; intros st [Hv Ht]; simpl; [auto |].
  destruct (use_tri entry =? t); simpl; [apply IH; auto |].
  destruct (isVisited (visited st) (use_tri entry)) eqn:Hn; [apply IH; auto |].
  assert (Hne : use_tri entry <> 0) by (intros Hz; rewrite Hz in Hn; congruence).
  apply IH. simpl. split.
  - rewrite isVisited_insert_ne by exact Hne. exact Hv.
  - destruct ((use_a entry =? a) && (use_b entry =? b)); [| exact Ht].
    rewrite flipAt_other by exact Hne. exact Ht.
Qed.

Lemma visitEdge_anchored (ts0 : list Tri) und nv t tri e st :
  anchored ts0 st -> anchored ts0 (visitEdge und nv t tri e st).
Proof.
  intros H. unfold visitEdge.
  destruct (EdgeMap.get _ und) as [adj|]; [| exact H].
  destruct (length adj <? 2); [exact H | apply visitAdj_anchored, H].
Qed.

Lemma processTri_anchored (ts0 : list Tri) und nv t st :
  anchored ts0 st -> anchored ts0 (processTri und nv t st).
Proof.
  intros H. unfold processTri. simpl.
  repeat apply visitEdge_anchored. exact H.
Qed.

Lemma drain_anchored (ts0 : list Tri) und nv fuel : forall st st',
  drain und nv fuel st = Some st' -> anchored ts0 st -> anchored ts0 st'.
Proof.
  induction fuel as [|fuel IH]; intros st st'; simpl;
    destruct (stack st) as [|t rest]; try discriminate;
    try (intros [= <-]; auto; fail).
  intros Hrun H. apply (IH _ _ Hrun). apply processTri_anchored. exact H.
Qed.

Lemma seedLoop_anchored (ts0 : list Tri) und nv fuel seeds : forall st st',
  seedLoop und nv fuel seeds st = Some st' -> anchored ts0 st -> anchored ts0 st'.
Proof.
  induction seeds as [|seed seeds IH]; intros st st'; simpl;
    [intros [= <-]; auto |].
  destruct (isVisited (visited st) seed) eqn:Hseed; [apply IH |].
  destruct (drain und nv fuel _) as [st1|] eqn:Hdrain; [| discriminate].
  intros Hrun [Hv Ht]. apply (IH _ _ Hrun).
  apply (drain_anchored ts0 _ _ _ _ _ Hdrain). simpl.
  assert (Hne : seed <> 0) by (intros Hz; rewrite Hz in Hseed; congruence).
  split; [rewrite isVisited_insert_ne by exact Hne; exact Hv | exact Ht].
Qed.

Lemma seedLoop_first (ts0 : list Tri) und nv fuel n st' :
  seedLoop und nv fuel (seq 0 (S n)) (mkBfs ts0 (replicate (S n) false) [])
  = Some st' ->
  tris st' !! 0 = ts0 !! 0.
Proof.
  cbn [seq seedLoop visited tris stack].
  change (isVisited (replicate (S n) false) 0) with false. cbv iota.
  destruct (drain und nv fuel _) as [st1|] eqn:Hdrain; [| discriminate].
  intros Hrun.
  apply (seedLoop_anchored ts0 _ _ _ _ _ _ Hrun).
  apply (drain_anchored ts0 _ _ _ _ _ Hdrain).
  split; reflexivity.
Qed.

End Reference.

(** X15.  The adjacency repair takes the first triangle as its reference:
    it always returns, the repaired list has as many triangles, and
    triangle 0 has the winding it had before. *)
Theorem repair_keeps_first_triangle (s : Solid.t) :
  exists r, Solid.fixTriangleWindingsByAdjacency s = Some r
    /\ Solid.trisOf r !! 0 = Solid.trisOf s !! 0
    /\ Solid.triCount r = Solid.triCount s.
Proof.
  destruct (fixTriangleWindingsByAdjacency_total s) as (r & Hr & _).
  exists r. split; [exact Hr |].
  destruct (fixTriangleWindingsByAdjacency_rewinds s r Hr) as [(_ & _ & Hrew & _) _].
  split; [| rewrite <- !length_trisOf; symmetry; eapply Forall2_length, Hrew].
  clear Hrew. unfold Solid.fixTriangleWindingsByAdjacency in Hr.
  destruct (Solid.isCoherentlyOrientedManifold s); [injection Hr as <-; reflexivity |].
  destruct (Solid.triCount s) as [|n] eqn:Hn; [injection Hr as <-; reflexivity |].
  cbn [Nat.eqb] in Hr.
  destruct (Solid.seedLoop _ _ _ _ _) as [st|] eqn:Hloop; [| discriminate].
  injection Hr as <-.
  rewrite (trisOf_chunks (Solid.mk _ _ _ _ _)). cbn [Solid.triVerts].
  rewrite chunks_writeBack.
  apply (seedLoop_first _ _ _ _ _ _ Hloop).
Qed.

(** X16.  The edge key does not collide on a mesh whose indices name stored
    vertices: two directed edges of the mesh get the same [ukey] exactly
    when they join the same two vertices, in either direction.  The edge
    maps of the coherence check and of the repair therefore group the uses
    of each undirected edge and nothing else. *)
Theorem edge_keys_identify_undirected_edges (s : Solid.t) (e f : nat * nat) :
  Solid.wellFormed s ->
  In e (Solid.directedEdges s) -> In f (Solid.directedEdges s) ->
  (Solid.ukey (Solid.NV s) (fst e) (snd e) = Solid.ukey (Solid.NV s) (fst f) (snd f)
   <-> Solid.sameUndirected e f = true).
Proof.
  intros Hwf He Hf.
  destruct (directedEdges_bound s Hwf e He) as [He1 He2].
  destruct (directedEdges_bound s Hwf f Hf) as [Hf1 Hf2].
  destruct e as [a b], f as [c d]. simpl in *. split.
  - apply ukey_inj; assumption.
  - apply ukey_sameUndirected.
Qed.

Lemma edge_keys_identify_undirected_edges_witness :
  Solid.ukey (Solid.NV Samples.authoredTetra) 2 0
  = Solid.ukey (Solid.NV Samples.authoredTetra) 0 2
  <-> Solid.sameUndirected (2, 0) (0, 2) = true.
Proof.
  apply (edge_keys_identify_undirected_edges Samples.authoredTetra (2, 0) (0, 2)).
  - apply authored_wellFormed.
  - vm_compute. auto.
  - vm_compute. auto.
Defined.

(** ** The box primitive *)
Section Box.
Import Solid Mesh BoxSolid.
Local Open Scope Q_scope.

Lemma eqb_append (name a b : string) :
  String.eqb (name +:+ a) (name +:+ b) = String.eqb a b.
Proof.
  induction name as [|c name IH]; simpl; [reflexivity |].
  rewrite Ascii.eqb_refl. exact IH.
Qed.

Lemma Qeq_bool_false_l (q : Q) : ~ q == 0 -> Qeq_bool 0 q = false.
Proof.
  intros Hq. destruct (Qeq_bool 0 q) eqn:E; [| reflexivity].
  exfalso. apply Hq. symmetry. apply Qeq_bool_eq, E.
Qed.

Lemma Qeq_bool_false_r (q : Q) : ~ q == 0 -> Qeq_bool q 0 = false.
Proof.
  intros Hq. destruct (Qeq_bool q 0) eqn:E; [| reflexivity].
  exfalso. apply Hq. apply Qeq_bool_eq, E.
Qed.

(** The twelve calls, run on a box without a flat side. *)
Lemma box_authored (x y z : Q) (name : string) :
  ~ x == 0 -> ~ y == 0 -> ~ z == 0 ->
  arrays (addTriangles (faces x y z name) empty)
  = mk (boxCorners x y z) boxTriVerts [1; 1; 2; 2; 3; 3; 4; 4; 5; 5; 6; 6]%nat
       true false.
Proof.
  intros Hx Hy Hz.
  pose proof (Qeq_bool_false_l x Hx) as X0. pose proof (Qeq_bool_false_r x Hx) as X1.
  pose proof (Qeq_bool_false_l y Hy) as Y0. pose proof (Qeq_bool_false_r y Hy) as Y1.
  pose proof (Qeq_bool_false_l z Hz) as Z0. pose proof (Qeq_bool_false_r z Hz) as Z1.
  assert (O : Qeq_bool 0 0 = true) by reflexivity.
  unfold faces, empty.
  repeat (cbv beta iota zeta delta
            [addTriangles addTriangle negb getOrCreateID getPointIndex nameGet
             keyGet sameKey arrays vertKeyToIndex faceNameToID nextID
             vertProperties triVerts triIDs dirty hasManifold app length
             Nat.div Nat.divmod fst snd andb String.eqb Ascii.eqb Bool.eqb];
          rewrite ?eqb_append, ?X0, ?X1, ?Y0, ?Y1, ?Z0, ?Z1, ?O, ?Qeq_bool_refl).
  reflexivity.
Qed.

(** The corners of the box as the solid stores them. *)
Local Abbreviation stored x y z center :=
  (if center : bool
   then translateAll (- x / 2) (- y / 2) (- z / 2) (boxCorners x y z)
   else boxCorners x y z).

Lemma box_generated (x y z : Q) (center : bool) (name : string) :
  ~ x == 0 -> ~ y == 0 -> ~ z == 0 ->
  arrays (generateBox x y z center name)
  = mk (stored x y z center) boxTriVerts [1; 1; 2; 2; 3; 3; 4; 4; 5; 5; 6; 6]%nat
       true false.
Proof.
  intros Hx Hy Hz. unfold generateBox.
  destruct center; cbn [arrays]; rewrite (box_authored x y z name Hx Hy Hz);
    reflexivity.
Qed.

Lemma box_volume (x y z : Q) (center : bool) ids d m :
  computeSignedVolume (mk (stored x y z center) boxTriVerts ids d m) == x * y * z.
Proof.
  unfold computeSignedVolume.
  destruct center;
    cbv beta iota zeta delta
      [vertProperties triVerts boxTriVerts boxCorners translateAll vol6Loop
       tripleProduct coord nth Nat.mul Nat.add];
    field.
Qed.

Lemma box_coherent (x y z : Q) (center : bool) ids d m :
  isCoherentlyOrientedManifold (mk (stored x y z center) boxTriVerts ids d m) = true.
Proof. destruct center; vm_compute; reflexivity. Qed.

Lemma box_wellFormed (x y z : Q) (center : bool) ids d m :
  wellFormed (mk (stored x y z center) boxTriVerts ids d m).
Proof.
  unfold wellFormed. destruct center; simpl; repeat constructor; vm_compute; lia.
Qed.

End Box.

(** X17.  [BoxSolid] builds a valid mesh.  For every box without a flat
    side, centred or not, [_generateBox] leaves 8 corners and 12 triangles
    whose indices name stored corners; the mesh is coherently oriented, so
    the repair has nothing to do; and its signed volume is
    width x height x depth. *)
Theorem box_mesh_is_coherent_with_volume (x y z : Q) (center : bool)
    (name : string) :
  (~ x == 0)%Q -> (~ y == 0)%Q -> (~ z == 0)%Q ->
  let s := Solid.arrays (BoxSolid.generateBox x y z center name) in
  Solid.triVerts s = BoxSolid.boxTriVerts
  /\ Solid.numVerts s = 8
  /\ Solid.triCount s = 12
  /\ Solid.wellFormed s
  /\ Solid.isCoherentlyOrientedManifold s = true
  /\ Solid.fixTriangleWindingsByAdjacency s = Some s
  /\ (Solid.computeSignedVolume s == x * y * z)%Q.
Proof.
  intros Hx Hy Hz s. unfold s.
  rewrite (box_generated x y z center name Hx Hy Hz).
  pose proof (box_coherent x y z center [1; 1; 2; 2; 3; 3; 4; 4; 5; 5; 6; 6]
                true false) as Hc.
  split; [reflexivity |].
  split; [destruct center; reflexivity |].
  split; [reflexivity |].
  split; [apply box_wellFormed |].
  split; [exact Hc |].
  split; [unfold Solid.fixTriangleWindingsByAdjacency; rewrite Hc; reflexivity |].
  apply box_volume.
Qed.

Lemma box_mesh_is_coherent_with_volume_witness :
  let s := Solid.arrays (BoxSolid.generateBox 20 30 40 true "Box") in
  Solid.triVerts s = BoxSolid.boxTriVerts
  /\ Solid.numVerts s = 8
  /\ Solid.triCount s = 12
  /\ Solid.wellFormed s
  /\ Solid.isCoherentlyOrientedManifold s = true
  /\ Solid.fixTriangleWindingsByAdjacency s = Some s
  /\ (Solid.computeSignedVolume s == 20 * 30 * 40)%Q.
Proof.
  apply (box_mesh_is_coherent_with_volume 20 30 40 true "Box");
    intros H; vm_compute in H; discriminate H.
Defined.

(** X18.  A box with positive width, height and depth is handed to the
    kernel exactly as authored: the repair and the outward flip of
    [_manifoldize] change nothing, the constructor is called on the
    authored arrays, and on success only the dirty flag and the manifold
    are set. *)
Theorem box_is_built_as_authored (x y z : Q) (center : bool) (name : string)
    (newManifold : Solid.t -> Outcome unit) :
  (0 < x)%Q -> (0 < y)%Q -> (0 < z)%Q ->
  let s := Solid.arrays (BoxSolid.generateBox x y z center name) in
  Solid.orientOutward s = s
  /\ Solid.manifoldize true newManifold s
     = Some (match newManifold s with
             | Returned _ =>
                 (Solid.mk (Solid.vertProperties s) (Solid.triVerts s)
                    (Solid.triIDs s) false true, Returned tt)
             | Thrown e => (s, Thrown e)
             end).
Proof.
  intros Hx Hy Hz s.
  assert (Hx' : ~ (x == 0)%Q) by (intros H; rewrite H in Hx; discriminate Hx).
  assert (Hy' : ~ (y == 0)%Q) by (intros H; rewrite H in Hy; discriminate Hy).
  assert (Hz' : ~ (z == 0)%Q) by (intros H; rewrite H in Hz; discriminate Hz).
  assert (Hpos : (0 < x * y * z)%Q).
  { apply Qmult_lt_0_compat; [apply Qmult_lt_0_compat |]; assumption. }
  unfold s. rewrite (box_generated x y z center name Hx' Hy' Hz').
  pose proof (box_coherent x y z center [1; 1; 2; 2; 3; 3; 4; 4; 5; 5; 6; 6]
                true false) as Hc.
  pose proof (box_volume x y z center [1; 1; 2; 2; 3; 3; 4; 4; 5; 5; 6; 6]
                true false) as Hvol.
  set (b := Solid.mk _ _ _ _ _) in *.
  assert (Hbuilt : negb (Solid.dirty b) && Solid.hasManifold b = false)
    by reflexivity.
  assert (Hcount : (Solid.triCount b =? 0) = false) by reflexivity.
  clearbody b.
  assert (Hfix : Solid.fixTriangleWindingsByAdjacency b = Some b).
  { unfold Solid.fixTriangleWindingsByAdjacency. rewrite Hc. reflexivity. }
  assert (Horient : Solid.orientOutward b = b).
  { unfold Solid.orientOutward.
    destruct (Qlt_le_dec (Solid.computeSignedVolume b) 0) as [Hneg|_];
      [| reflexivity].
    rewrite Hvol in Hneg. exfalso.
    apply (Qlt_irrefl 0). eapply Qlt_trans; eassumption. }
  split; [exact Horient |].
  unfold Solid.manifoldize. rewrite Hbuilt, Hcount, Hfix. cbn [negb].
  rewrite Horient. destruct (newManifold b); reflexivity.
Qed.

Lemma box_is_built_as_authored_witness :
  let s := Solid.arrays (BoxSolid.generateBox 20 30 40 true "Box") in
  Solid.orientOutward s = s
  /\ Solid.manifoldize true Samples.accept s
     = Some (match Samples.accept s with
             | Returned _ =>
                 (Solid.mk (Solid.vertProperties s) (Solid.triVerts s)
                    (Solid.triIDs s) false true, Returned tt)
             | Thrown e => (s, Thrown e)
             end).
Proof.
  apply (box_is_built_as_authored 20 30 40 true "Box" Samples.accept);
    reflexivity.
Defined.

(** ** The key map of a centred box *)
Section BoxKeys.
Import Solid Mesh BoxSolid.
Local Open Scope Q_scope.

Lemma Qeq_bool_shift (a b o : Q) : Qeq_bool (a + o) (b + o) = Qeq_bool a b.
Proof.
  destruct (Qeq_bool a b) eqn:E.
  - apply Qeq_bool_iff. apply Qeq_bool_iff in E. rewrite E. reflexivity.
  - destruct (Qeq_bool (a + o) (b + o)) eqn:E'; [| reflexivity].
    apply Qeq_bool_iff in E'. apply Qplus_inj_r in E'.
    apply Qeq_bool_iff in E'. congruence.
Qed.

Lemma below_eight (i : nat) :
  (i < 8)%nat ->
  i = 0%nat \/ i = 1%nat \/ i = 2%nat \/ i = 3%nat \/ i = 4%nat \/ i = 5%nat
  \/ i = 6%nat \/ i = 7%nat.
Proof. lia. Qed.

Lemma centred_box_welded (x y z : Q) (name : string) :
  ~ x == 0 -> ~ y == 0 -> ~ z == 0 ->
  welded (generateBox x y z true name).
Proof.
  intros Hx Hy Hz.
  pose proof (Qeq_bool_false_l x Hx) as X0. pose proof (Qeq_bool_false_r x Hx) as X1.
  pose proof (Qeq_bool_false_l y Hy) as Y0. pose proof (Qeq_bool_false_r y Hy) as Y1.
  pose proof (Qeq_bool_false_l z Hz) as Z0. pose proof (Qeq_bool_false_r z Hz) as Z1.
  assert (O : Qeq_bool 0 0 = true) by reflexivity.
  unfold welded, generateBox. cbn [arrays vertKeyToIndex].
  rewrite (box_authored x y z name Hx Hy Hz).
  cbn [vertProperties triVerts triIDs dirty hasManifold].
  split; [reflexivity |]. split.
  - unfold rebuildKeys.
    repeat (cbv beta iota zeta delta
              [fold_left keySet seq numVerts vertProperties translateAll
               boxCorners vertexAt coord nth sameKey length Nat.div Nat.divmod
               Nat.mul Nat.add fst snd andb map];
            rewrite ?Qeq_bool_shift, ?X0, ?X1, ?Y0, ?Y1, ?Z0, ?Z1, ?O,
              ?Qeq_bool_refl).
    reflexivity.
  - intros i j Hi Hj.
    change (numVerts _) with 8%nat in Hi, Hj.
    destruct (below_eight i Hi) as [->|[->|[->|[->|[->|[->|[->| ->]]]]]]];
      destruct (below_eight j Hj) as [->|[->|[->|[->|[->|[->|[->| ->]]]]]]];
      try reflexivity;
      cbv beta iota zeta delta
        [vertProperties translateAll boxCorners vertexAt coord nth sameKey
         Nat.mul Nat.add andb];
      rewrite ?Qeq_bool_shift, ?X0, ?X1, ?Y0, ?Y1, ?Z0, ?Z1, ?O, ?Qeq_bool_refl;
      intros H; discriminate H.
Qed.

End BoxKeys.

(** X19.  The vertex key map of a box lists its eight corners whether the
    box is centred or not: after the translation of a centred box the map
    is rebuilt from the moved coordinates, each corner under its own key
    and index, no two corners sharing a key, and every corner is used by a
    triangle.  Triangles added afterwards weld against the moved corners. *)
Theorem box_keys_list_the_corners (x y z : Q) (center : bool) (name : string) :
  (~ x == 0)%Q -> (~ y == 0)%Q -> (~ z == 0)%Q ->
  let a := BoxSolid.generateBox x y z center name in
  Mesh.welded a
  /\ Mesh.noOrphans (Solid.arrays a)
  /\ length (Solid.vertKeyToIndex a) = 8.
Proof.
  intros Hx Hy Hz a.
  assert (Hw : Mesh.welded a).
  { unfold a. destruct center; [apply centred_box_welded; assumption |].
    destruct empty_welded as [Hw Hu].
    apply (addTriangles_reads_back (BoxSolid.faces x y z name) Solid.empty [] []
             Hw Hu); constructor. }
  split; [exact Hw |].
  assert (Harr := box_generated x y z center name Hx Hy Hz). fold a in Harr.
  split.
  - unfold Mesh.noOrphans. rewrite Harr.
    intros i Hi. replace (Solid.numVerts _) with 8 in Hi
      by (destruct center; reflexivity).
    cbn [Solid.triVerts]. unfold BoxSolid.boxTriVerts.
    destruct (below_eight i Hi) as [->|[->|[->|[->|[->|[->|[->| ->]]]]]]];
      simpl; tauto.
  - destruct Hw as (_ & -> & _). rewrite length_map, length_seq, Harr.
    destruct center; reflexivity.
Qed.

Lemma box_keys_list_the_corners_witness :
  let a := BoxSolid.generateBox 20 30 40 true "Box" in
  Mesh.welded a
  /\ Mesh.noOrphans (Solid.arrays a)
  /\ length (Solid.vertKeyToIndex a) = 8.
Proof.
  apply (box_keys_list_the_corners 20 30 40 true "Box");
    intros H; vm_compute in H; discriminate H.
Defined.

(** ** The polylines of [visualize] *)
Section ChainsFacts.
Import Chains.

Lemma setAdd_In v s x : In x (setAdd v s) <-> x = v \/ In x s.
Proof.
  unfold setAdd. destruct (existsb (Nat.eqb v) s) eqn:E.
  - split; [auto |]. intros [->|H]; [| exact H].
    apply existsb_exists in E as (y & Hy & Heq). apply Nat.eqb_eq in Heq.
    subst. exact Hy.
  - rewrite in_app_iff. simpl. split.
    + intros [H|[<-|[]]]; auto.
    + intros [->|H]; auto.
Qed.

Lemma setAdd_NoDup v s : List.NoDup s -> List.NoDup (setAdd v s).
Proof.
  intros Hs. unfold setAdd. destruct (existsb (Nat.eqb v) s) eqn:E; [exact Hs |].
  apply (Permutation.Permutation_NoDup (Permutation.Permutation_cons_append s v)).
  constructor; [| exact Hs].
  intros Hin. assert (existsb (Nat.eqb v) s = true); [| congruence].
  apply existsb_exists. exists v. split; [exact Hin | apply Nat.eqb_refl].
Qed.

Lemma adjGet_In u adj s : adjGet u adj = Some s -> In (u, s) adj.
Proof.
  induction adj as [|[k t] adj IH]; simpl; [discriminate |].
  destruct (k =? u) eqn:E.
  - apply Nat.eqb_eq in E. intros [= ->]. left. congruence.
  - intros H. right. apply IH, H.
Qed.

Lemma adjGet_None u adj : adjGet u adj = None -> ~ In u (map fst adj).
Proof.
  induction adj as [|[k t] adj IH]; simpl; [intros _ [] |].
  destruct (k =? u) eqn:E; [discriminate |].
  apply Nat.eqb_neq in E. intros H [Hk|Hin]; [contradiction | exact (IH H Hin)].
Qed.

Lemma adjAdd_keys u v adj : map fst (adjAdd u v adj) = map fst adj.
Proof.
  induction adj as [|[k t] adj IH]; simpl; [reflexivity |].
  destruct (k =? u); simpl; [reflexivity | rewrite IH; reflexivity].
Qed.

Lemma adjAdd_In u v adj k s :
  List.NoDup (map fst adj) ->
  In (k, s) (adjAdd u v adj) ->
  (k <> u /\ In (k, s) adj) \/ (k = u /\ exists s0, In (u, s0) adj /\ s = setAdd v s0).
Proof.
  induction adj as [|[k0 t] adj IH]; simpl; [intros _ [] |].
  intros Hnd. inversion_clear Hnd as [|? ? Hk0 Hrest].
  destruct (k0 =? u) eqn:E.
  - apply Nat.eqb_eq in E. subst k0. intros [[= <- <-]|Hin].
    + right. split; [reflexivity |]. exists t. auto.
    + left. split; [| right; exact Hin].
      intros ->. apply Hk0. apply (in_map fst) in Hin. exact Hin.
  - apply Nat.eqb_neq in E. intros [[= <- <-]|Hin].
    + left. split; [exact E | left; reflexivity].
    + destruct (IH Hrest Hin) as [[Hne H]|(-> & s0 & H & ->)].
      * left. split; [exact Hne | right; exact H].
      * right. split; [reflexivity |]. exists s0. auto.
Qed.

(** The map holds, for every vertex of the relation, the set of the
    vertices it is related to. *)
Local Abbreviation holds R adj :=
  (List.NoDup (map fst adj)
   /\ (forall u s, In (u, s) adj ->
         List.NoDup s /\ forall v : nat, In v s <-> R u v)
   /\ (forall u v : nat, R u v -> In u (map fst adj))).

Lemma holds_ext (R R' : nat -> nat -> Prop) adj :
  (forall u v, R u v <-> R' u v) -> holds R adj -> holds R' adj.
Proof.
  intros Hext (Hk & Hs & Hv). split; [exact Hk |]. split.
  - intros u s Hin. destruct (Hs u s Hin) as [Hnd Hiff]. split; [exact Hnd |].
    intros v. rewrite Hiff. apply Hext.
  - intros u v Huv. apply (Hv u v), Hext, Huv.
Qed.

Lemma adjEnsure_holds (R : nat -> nat -> Prop) k adj :
  holds R adj -> holds R (adjEnsure k adj) /\ In k (map fst (adjEnsure k adj)).
Proof.
  intros (Hk & Hs & Hv). unfold adjEnsure.
  destruct (adjGet k adj) as [s|] eqn:E.
  - split; [auto |]. apply adjGet_In in E. apply (in_map fst) in E. exact E.
  - pose proof (adjGet_None _ _ E) as Hnot.
    split; [| rewrite map_app, in_app_iff; right; left; reflexivity].
    split; [| split].
    + rewrite map_app. simpl.
      apply (Permutation.Permutation_NoDup
               (Permutation.Permutation_cons_append (map fst adj) k)).
      constructor; assumption.
    + intros u s Hin. apply in_app_iff in Hin as [Hin|[[= <- <-]|[]]]; [auto |].
      split; [constructor |]. intros v. split; [intros [] |].
      intros Hkv. exfalso. apply Hnot. eapply Hv, Hkv.
    + intros u v Huv. rewrite map_app, in_app_iff. left. eapply Hv, Huv.
Qed.

Lemma adjAdd_holds (R : nat -> nat -> Prop) k w adj :
  holds R adj -> In k (map fst adj) ->
  holds (fun u v => R u v \/ (u = k /\ v = w)) (adjAdd k w adj).
Proof.
  intros (Hk & Hs & Hv) Hin. rewrite adjAdd_keys. split; [exact Hk |]. split.
  - intros u s Hus. destruct (adjAdd_In _ _ _ _ _ Hk Hus)
      as [[Hne H]|(-> & s0 & H & ->)].
    + destruct (Hs u s H) as [Hnd Hiff]. split; [exact Hnd |].
      intros v. rewrite Hiff. split; [auto |]. intros [H'|[Hu _]]; [exact H' |].
      contradiction.
    + destruct (Hs k s0 H) as [Hnd Hiff]. split; [apply setAdd_NoDup, Hnd |].
      intros v. rewrite setAdd_In, Hiff. split.
      * intros [->|H']; auto.
      * intros [H'|[_ ->]]; auto.
  - intros u v [Huv|[-> _]]; [eapply Hv, Huv | exact Hin].
Qed.

Lemma neighbours_app u l l' : neighbours u (l ++ l') = neighbours u l ++ neighbours u l'.
Proof. unfold neighbours. apply flat_map_app. Qed.

Lemma neighbours_In u l v :
  In v (neighbours u l) <-> joined l u v.
Proof.
  unfold neighbours, joined. rewrite in_flat_map. split.
  - intros ([a b] & Hin & Hv). simpl in Hv. apply in_app_iff in Hv as [Hv|Hv].
    + destruct (a =? u) eqn:E; [| destruct Hv]. apply Nat.eqb_eq in E.
      destruct Hv as [<-|[]]. subst. left. exact Hin.
    + destruct (b =? u) eqn:E; [| destruct Hv]. apply Nat.eqb_eq in E.
      destruct Hv as [<-|[]]. subst. right. exact Hin.
  - intros [Hin|Hin]; eexists; (split; [exact Hin |]); simpl;
      rewrite Nat.eqb_refl, in_app_iff; simpl; auto.
Qed.

Lemma addSegment_holds l adj e :
  holds (fun u v => In v (neighbours u l)) adj ->
  holds (fun u v => In v (neighbours u (l ++ [e]))) (addSegment adj e).
Proof.
  intros H. destruct e as [a b]. unfold addSegment.
  destruct (adjEnsure_holds _ a adj H) as [H1 Ha].
  destruct (adjEnsure_holds _ b _ H1) as [H2 Hb].
  assert (Ha2 : In a (map fst (adjEnsure b (adjEnsure a adj)))).
  { unfold adjEnsure at 1. destruct (adjGet b _); [exact Ha |].
    rewrite map_app, in_app_iff. left. exact Ha. }
  pose proof (adjAdd_holds _ a b _ H2 Ha2) as H3.
  assert (Hb3 : In b (map fst (adjAdd a b (adjEnsure b (adjEnsure a adj)))))
    by (rewrite adjAdd_keys; exact Hb).
  pose proof (adjAdd_holds _ b a _ H3 Hb3) as H4.
  revert H4. apply holds_ext. intros u v.
  rewrite !neighbours_In. unfold joined. rewrite !in_app_iff. simpl. split.
  - intros [[[H'|H']|[-> ->]]|[-> ->]]; auto.
  - intros [[H'|[[= -> ->]|[]]]|[H'|[[= -> ->]|[]]]]; auto.
Qed.

Lemma buildAdj_holds l :
  holds (fun u v => In v (neighbours u l)) (buildAdj l).
Proof.
  unfold buildAdj.
  assert (Hgen : forall l' l0 adj0,
            holds (fun u v => In v (neighbours u l0)) adj0 ->
            holds (fun u v => In v (neighbours u (l0 ++ l')))
              (fold_left addSegment l' adj0)).
  { induction l' as [|e l' IH]; intros l0 adj0 H0; simpl.
    - rewrite app_nil_r. exact H0.
    - replace (l0 ++ e :: l') with ((l0 ++ [e]) ++ l')
        by (rewrite <- app_assoc; reflexivity).
      apply IH, addSegment_holds, H0. }
  apply (Hgen l [] []). split; [constructor |]. split; [intros ? ? [] |].
  intros u v [].
Qed.

Lemma entry_degree l u s : In (u, s) (buildAdj l) -> length s = degree u l.
Proof.
  intros Hin. destruct (buildAdj_holds l) as (_ & Hs & _).
  destruct (Hs u s Hin) as [Hnd Hiff]. unfold degree.
  apply Permutation.Permutation_length.
  apply Permutation.NoDup_Permutation; [exact Hnd | apply NoDup_nodup |].
  intros v. rewrite Hiff, nodup_In. reflexivity.
Qed.

Lemma starts_skip fuel adj entries visited :
  (forall u s, In (u, s) entries -> length s <> 1) ->
  starts fuel adj entries visited = Some [].
Proof.
  induction entries as [|[start nbrs] rest IH]; intros Hall; simpl; [reflexivity |].
  assert (Hrest : starts fuel adj rest visited = Some [])
    by (apply IH; intros u s Hin; apply (Hall u s); right; exact Hin).
  destruct nbrs as [|n [|n' nbrs]]; try exact Hrest.
  exfalso. apply (Hall start [n]); [left |]; reflexivity.
Qed.

(** *** Walks end, and walk along segments *)

Lemma ek_sym u v : ek u v = ek v u.
Proof.
  unfold ek. destruct (u <? v) eqn:E1, (v <? u) eqn:E2; try reflexivity.
  - apply Nat.ltb_lt in E1, E2. lia.
  - apply Nat.ltb_ge in E1, E2. assert (u = v) by lia. subst. reflexivity.
Qed.

Lemma hasKey_In visited k : hasKey visited k = true <-> In k visited.
Proof.
  unfold hasKey. rewrite existsb_exists. split.
  - intros ([a b] & Hin & Hs). unfold sameSegment in Hs. simpl in Hs.
    apply andb_true_iff in Hs as [H1 H2]. apply Nat.eqb_eq in H1, H2.
    destruct k as [c d]. simpl in *. subst. exact Hin.
  - intros Hin. exists k. split; [exact Hin |].
    unfold sameSegment. rewrite !Nat.eqb_refl. reflexivity.
Qed.

Lemma pickNext_spec curr prev nbrs visited next :
  pickNext curr prev nbrs visited = Some next ->
  In next nbrs /\ ~ In (ek curr next) visited.
Proof.
  induction nbrs as [|n rest IH]; simpl; [discriminate |].
  destruct (hasKey visited (ek curr n)) eqn:E; simpl.
  - intros H. destruct (IH H). auto.
  - destruct (isPrev prev n).
    + intros H. destruct (IH H). auto.
    + intros [= <-]. split; [left; reflexivity |].
      intros Hin. apply hasKey_In in Hin. congruence.
Qed.

Lemma isPath_snoc l pre curr next :
  isPath l (pre ++ [curr]) -> joined l curr next ->
  isPath l ((pre ++ [curr]) ++ [next]).
Proof.
  intros Hpath Hj. induction pre as [|a pre IH]; simpl in *; [auto |].
  destruct pre as [|b pre]; simpl in *.
  - destruct Hpath as [Hab _]. auto.
  - destruct Hpath as [Hab Hrest]. split; [exact Hab | apply IH, Hrest].
Qed.

Section Walk.
Context (l : list (nat * nat)).

(** The segments, each under its key. *)
Local Abbreviation keys := (map (fun e : nat * nat => ek (fst e) (snd e)) l).

Lemma joined_key u v : joined l u v -> In (ek u v) keys.
Proof.
  intros [H|H]; [| rewrite ek_sym];
    apply (in_map (fun e : nat * nat => ek (fst e) (snd e))) in H; exact H.
Qed.

Lemma walk_total fuel : forall prev curr pre visited,
  List.NoDup visited -> incl visited keys ->
  length keys - length visited < fuel ->
  isPath l (pre ++ [curr]) ->
  exists ext visited',
    walk fuel (buildAdj l) prev curr (pre ++ [curr]) visited
    = Some ((pre ++ [curr]) ++ ext, visited')
    /\ List.NoDup visited' /\ incl visited' keys
    /\ isPath l ((pre ++ [curr]) ++ ext).
Proof.
  induction fuel as [|fuel IH]; intros prev curr pre visited Hnd Hincl Hfuel Hpath;
    [lia |].
  simpl.
  assert (Hstop : exists ext visited',
            Some (pre ++ [curr], visited) = Some ((pre ++ [curr]) ++ ext, visited')
            /\ List.NoDup visited' /\ incl visited' keys
            /\ isPath l ((pre ++ [curr]) ++ ext)).
  { exists [], visited. rewrite app_nil_r. auto. }
  destruct (adjGet curr (buildAdj l)) as [currNbrs|] eqn:Hget; [| exact Hstop].
  destruct (pickNext curr prev currNbrs visited) as [next|] eqn:Hpick;
    [| exact Hstop].
  destruct (pickNext_spec _ _ _ _ _ Hpick) as [Hin Hnew].
  assert (Hj : joined l curr next).
  { destruct (buildAdj_holds l) as (_ & Hs & _).
    destruct (Hs curr currNbrs (adjGet_In _ _ _ Hget)) as [_ Hiff].
    apply neighbours_In, Hiff, Hin. }
  assert (Hnd' : List.NoDup (visited ++ [ek curr next])).
  { apply (Permutation.Permutation_NoDup
             (Permutation.Permutation_cons_append visited (ek curr next))).
    constructor; assumption. }
  assert (Hincl' : incl (visited ++ [ek curr next]) keys).
  { intros k Hk. apply in_app_iff in Hk as [Hk|[<-|[]]]; [apply Hincl, Hk |].
    apply joined_key, Hj. }
  pose proof (NoDup_incl_length Hnd' Hincl') as Hlen.
  rewrite length_app in Hlen. simpl in Hlen.
  destruct (IH (Some curr) next (pre ++ [curr]) (visited ++ [ek curr next])
              Hnd' Hincl') as (ext & visited' & Hrun & Hnd2 & Hincl2 & Hpath2).
  - rewrite length_app. simpl. lia.
  - apply isPath_snoc; assumption.
  - exists (next :: ext), visited'. rewrite Hrun.
    replace ((pre ++ [curr]) ++ next :: ext) with (((pre ++ [curr]) ++ [next]) ++ ext)
      by (rewrite <- (app_assoc _ [next] ext); reflexivity).
    auto.
Qed.

Lemma starts_total entries : forall visited,
  (forall u s, In (u, s) entries -> In (u, s) (buildAdj l)) ->
  List.NoDup visited -> incl visited keys ->
  exists chains,
    starts (S (length l)) (buildAdj l) entries visited = Some chains
    /\ Forall (fun chain =>
                 2 <= length chain /\ isPath l chain
                 /\ exists start rest, chain = start :: rest /\ degree start l = 1)
         chains.
Proof.
  induction entries as [|[start nbrs] rest IH]; intros visited Hsub Hnd Hincl.
  - exists []. split; [reflexivity | constructor].
  - assert (Hrest : forall u s, In (u, s) rest -> In (u, s) (buildAdj l))
      by (intros u s Hin; apply Hsub; right; exact Hin).
    cbn [starts].
    destruct nbrs as [|firstNbr [|n' nbrs]]; try (apply IH; assumption).
    destruct (hasKey visited (ek start firstNbr)); [apply IH; assumption |].
    destruct (walk_total (S (length l)) None start [] visited Hnd Hincl)
      as (ext & visited' & Hrun & Hnd' & Hincl' & Hpath).
    + rewrite length_map. lia.
    + exact I.
    + simpl app in Hrun, Hpath. rewrite Hrun.
      destruct (IH visited' Hrest Hnd' Hincl') as (chains & -> & Hall).
      eexists. split; [reflexivity |].
      destruct (2 <=? length (start :: ext)) eqn:Hlen; [| exact Hall].
      constructor; [| exact Hall].
      apply Nat.leb_le in Hlen. split; [exact Hlen |]. split; [exact Hpath |].
      exists start, ext. split; [reflexivity |].
      rewrite <- (entry_degree l start [firstNbr]); [reflexivity |].
      apply Hsub. left. reflexivity.
Qed.

End Walk.

End ChainsFacts.

(** X20.  [visualize] draws no edge along a closed boundary.  The walk
    over the segments shared by two faces starts only at vertices with
    exactly one neighbour, so when every vertex of the segments has two or
    more neighbours (a closed loop, as the rim of a hole) no polyline is
    produced and no [CADEdge] is created for that pair of faces. *)
Theorem closed_boundaries_yield_no_polyline (edgeList : list (nat * nat)) :
  (forall u, Chains.degree u edgeList <> 1) ->
  Chains.walkChains edgeList = Some [].
Proof.
  intros Hdeg. unfold Chains.walkChains. apply starts_skip.
  intros u s Hin. rewrite (entry_degree edgeList u s Hin). apply Hdeg.
Qed.

Lemma closed_boundaries_yield_no_polyline_witness :
  Chains.walkChains Chains.squareLoop = Some [].
Proof.
  apply (closed_boundaries_yield_no_polyline Chains.squareLoop).
  intros u.
  destruct u as [|[|[|[|u]]]]; vm_compute; intros H; discriminate H.
Defined.

(** X21.  The walk of [visualize] over the segments shared by two faces
    always ends, and every polyline it produces has at least two vertices,
    starts at a vertex with exactly one neighbour, and runs along
    segments: each two consecutive vertices are the ends of a segment of
    the list. *)
Theorem polylines_run_along_segments (edgeList : list (nat * nat)) :
  exists chains,
    Chains.walkChains edgeList = Some chains
    /\ Forall (fun chain =>
                 2 <= length chain /\ Chains.isPath edgeList chain
                 /\ exists start rest,
                      chain = start :: rest /\ Chains.degree start edgeList = 1)
         chains.
Proof.
  unfold Chains.walkChains.
  apply (starts_total edgeList (Chains.buildAdj edgeList) []).
  - auto.
  - constructor.
  - intros k [].
Qed.

(** ** Which failures become error results *)
Section ErrorResults.
Import CAD GeometryComputer.
Context (K : Kernel) (nodes : Nodes).
Context (Hthree : forall mesh, exists three, newBufferGeometry K mesh = Returned three).

Lemma manifoldToGeometry_returns (m : Manifold K) :
  exists g, manifoldToGeometry K m = Returned g.
Proof.
  unfold manifoldToGeometry.
  destruct (ManifoldEngine.extractMesh K m) as [mesh|e]; [| eauto].
  destruct (Hthree mesh) as [three ->]. eauto.
Qed.

Lemma computeOperands_length (rec : Compute K) operandIds : forall acc s ms s',
  computeOperands K rec operandIds acc s = Some (inr ms, s') ->
  length ms = length acc + length operandIds.
Proof.
  induction operandIds as [|operandId rest IH]; intros acc s ms s'; simpl.
  - intros [= <- <-]. lia.
  - destruct (rec operandId s) as [[r s1]|]; [| discriminate].
    destruct r as [[[m|] ? ? ? ? ? ?]|e]; try discriminate.
    intros H. rewrite (IH _ _ _ _ H), length_app. simpl. lia.
Qed.

Lemma dispatch_returns (rec : Compute K) node s o s' :
  dispatch K nodes rec node s = Some (o, s') -> exists g, o = Returned g.
Proof.
  unfold dispatch. destruct (body node).
  - intros [= <- <-]. eauto.
  - unfold computeBoolean. destruct (Nat.ltb_spec (length operandIds) 2) as [|Hlen].
    + intros [= <- <-]. eauto.
    + destruct (computeOperands K rec operandIds [] s) as [[x s1]|] eqn:Hops;
        [| discriminate].
      destruct x as [early|ms]; [intros [= <- <-]; eauto |].
      apply computeOperands_length in Hops. simpl in Hops.
      destruct ms as [|first rest]; [simpl in Hops; lia |].
      destruct (foldBoolean K op first rest s1) as [[early|result] s2].
      * intros [= <- <-]. eauto.
      * intros [= <- <-]. apply manifoldToGeometry_returns.
  - intros [= <- <-]. eauto.
  - unfold computeExtrude.
    destruct (nodesGet (sketchId params) nodes) as [[? ? []]|];
      try (intros [= <- <-]; eauto).
    destruct profiles; [intros [= <- <-]; eauto |].
    destruct (extrudeProfiles K _ _ _) as [|first rest]; [intros [= <- <-]; eauto |].
    destruct (booleanTarget params) as [[op target]|];
      [| intros [= <- <-]; apply manifoldToGeometry_returns].
    destruct (rec target s) as [[r s1]|]; [| discriminate].
    destruct r as [[[tm|] ? ? ? ? ? ?]|e];
      try (intros [= <- <-]; apply manifoldToGeometry_returns).
    destruct (ManifoldEngine.boolean K tm _ op); intros [= <- <-];
      apply manifoldToGeometry_returns.
  - unfold computeRevolve.
    destruct (nodesGet (rev_sketchId params) nodes) as [[? ? []]|];
      try (intros [= <- <-]; eauto).
    destruct profiles; [intros [= <- <-]; eauto |].
    destruct (revolveProfiles K _ _) as [|first rest]; intros [= <- <-];
      [eauto | apply manifoldToGeometry_returns].
  - intros [= <- <-]. eauto.
Qed.

End ErrorResults.

(** X22.  Failures of the kernel never become error results.  As long as
    three.js does not throw, the only error results of [compute] are its
    three guards: the engine could not be initialised, "Already computing
    this node", and "Node not found"; such a call stores nothing and leaves
    the nodes in progress as they are.  A boolean, extrusion or revolution
    the kernel refuses is a success result whose geometry carries the
    error. *)
Theorem error_results_are_the_guards (K : Kernel) (nodes : CAD.Nodes)
    (fuel : nat) (nodeId : string) (s s' : GeometryComputer.State K) (e : string) :
  (forall mesh, exists three, newBufferGeometry K mesh = Returned three) ->
  GeometryComputer.compute K nodes fuel nodeId s = Some (Err e, s') ->
  (engineInitialize K = Err e
   \/ e = "Already computing this node"
   \/ e = "Node not found: " +:+ nodeId)
  /\ GeometryComputer.cache K s' = GeometryComputer.cache K s
  /\ GeometryComputer.computing K s' = GeometryComputer.computing K s.
Proof.
  intros Hthree. destruct fuel as [|fuel]; [discriminate |].
  simpl. unfold GeometryComputer.computeBody.
  destruct (GeometryComputer.initialized K s) eqn:Hinit.
  - case_bool_decide as Hin; [intros [= <- <-]; auto |].
    destruct (CAD.nodesGet nodeId nodes) as [node|]; [| intros [= <- <-]; auto].
    destruct (GeometryComputer.cachedClean K nodeId s); [discriminate |].
    destruct (GeometryComputer.dispatch K nodes _ node _) as [[o s1]|] eqn:Hd;
      [| discriminate].
    destruct (dispatch_returns K nodes Hthree _ _ _ _ _ Hd) as [g ->].
    discriminate.
  - destruct (engineInitialize K) as [u|e0] eqn:Hengine;
      [| intros [= <- <-]; auto].
    case_bool_decide as Hin; [intros [= <- <-]; auto |].
    destruct (CAD.nodesGet nodeId nodes) as [node|]; [| intros [= <- <-]; auto].
    destruct (GeometryComputer.cachedClean K nodeId _); [discriminate |].
    destruct (GeometryComputer.dispatch K nodes _ node _) as [[o s1]|] eqn:Hd;
      [| discriminate].
    destruct (dispatch_returns K nodes Hthree _ _ _ _ _ Hd) as [g ->].
    discriminate.
Qed.

Lemma error_results_are_the_guards_witness :
  let K := Fixtures.boxKernel in
  (engineInitialize K = Err "Node not found: missing"
   \/ "Node not found: missing" = "Already computing this node"
   \/ "Node not found: missing" = "Node not found: " +:+ "missing")
  /\ GeometryComputer.cache K (States.fresh K) = GeometryComputer.cache K (States.fresh K)
  /\ GeometryComputer.computing K (States.fresh K)
     = GeometryComputer.computing K (States.fresh K).
Proof.
  intros K.
  apply (error_results_are_the_guards K Fixtures.document 3 "missing"
           (States.fresh K) (States.fresh K) "Node not found: missing").
  - intros mesh. exists tt. reflexivity.
  - vm_compute. reflexivity.
Defined.
